(** * cascade: trajectory AABBs, Morton sort and level-synchronous BVH build

    A shallow embedding of [src/sim_propagate.cpp] and [src/sim_bvh.cpp].

    Conventions.
    - [std::uint32_t], [std::uint64_t], [std::int32_t] and [std::size_t]
      values are integers of [Z]; every arithmetic operation of the source
      that can wrap is written with [wrap32].
    - [float] and [double] values are IEEE-754 values of [spec_float]
      (binary32: precision 24, binary64: precision 53); [std::min] and
      [std::max] are the comparisons of the C++ standard library.
    - [std::vector] is [list], read with a default and written by index.
    - Where a statement needs the exact value of a floating-point number,
      it is the rational of [Q] the number stands for.
    - C++ exceptions and the unbounded [while] loops are the constructors
      of [outcome]; [assert] is compiled out ([NDEBUG]). *)

From Stdlib Require Import ZArith QArith Lia Bool List Permutation Sorting.Sorted.
From Stdlib Require Import Floats.SpecFloat.
From stdpp Require Import base list gmap.

Local Open Scope Z_scope.

(** ** Outcomes: a value, a C++ exception, or an exhausted loop budget *)

Inductive outcome (A : Type) : Type :=
| Done (a : A)
| OverflowError          (* std::overflow_error *)
| BadNumericCast         (* boost::numeric::bad_numeric_cast *)
| OutOfFuel.             (* the loop budget of the model ran out *)

Arguments Done {A} a.
Arguments OverflowError {A}.
Arguments BadNumericCast {A}.
Arguments OutOfFuel {A}.

Definition obind {A B} (m : outcome A) (k : A -> outcome B) : outcome B :=
  match m with
  | Done a => k a
  | OverflowError => OverflowError
  | BadNumericCast => BadNumericCast
  | OutOfFuel => OutOfFuel
  end.

Notation "'let!' x ':=' m 'in' k" := (obind m (fun x => k))
  (at level 10, x name, m at level 100, k at level 200).

(** ** Machine integers *)

Definition u32_max : Z := 4294967295.
Definition i32_max : Z := 2147483647.
Definition size_max : Z := 18446744073709551615.

Definition wrap32 (z : Z) : Z := z mod 4294967296.

(** [boost::numeric_cast<std::uint32_t>] and [<std::int32_t>] of a
    non-negative source value. *)
Definition numeric_cast_u32 (z : Z) : outcome Z :=
  if (0 <=? z) && (z <=? u32_max) then Done z else BadNumericCast.

Definition numeric_cast_i32 (z : Z) : outcome Z :=
  if (-2147483648 <=? z) && (z <=? i32_max) then Done z else BadNumericCast.

(** ** Floating point: comparisons of [<algorithm>] *)

Definition finf : spec_float := S754_infinity false.
Definition neg_finf : spec_float := S754_infinity true.

(** [std::min(a, b)] is [(b < a) ? b : a]; [std::max(a, b)] is
    [(a < b) ? b : a]. *)
Definition std_min (a b : spec_float) : spec_float := if SFltb b a then b else a.
Definition std_max (a b : spec_float) : spec_float := if SFltb a b then b else a.

(** [std::array<float, 4>]. *)
Record array4 : Type := Array4 { a_x : spec_float; a_y : spec_float; a_z : spec_float; a_r : spec_float }.

Definition array4_map2 (f : spec_float -> spec_float -> spec_float) (a b : array4) : array4 :=
  Array4 (f (a_x a) (a_x b)) (f (a_y a) (a_y b)) (f (a_z a) (a_z b)) (f (a_r a) (a_r b)).

Definition default_lb : array4 := Array4 finf finf finf finf.
Definition default_ub : array4 := Array4 neg_finf neg_finf neg_finf neg_finf.

(** ** The BVH node ([sim_data::bvh_node]) *)

Record bvh_node : Type := mk_bvh_node {
  begin : Z;        (* std::uint32_t *)
  end_ : Z;         (* std::uint32_t *)
  parent : Z;       (* std::int32_t *)
  left : Z;         (* std::int32_t *)
  right : Z;        (* std::int32_t *)
  lb : array4;
  ub : array4;
  nn_level : Z;     (* std::uint32_t *)
  split_idx : Z     (* std::uint32_t *)
}.

(** The value-initialised node that [tree.resize] appends. *)
Definition zero_f : spec_float := S754_zero false.
Definition zero4 : array4 := Array4 zero_f zero_f zero_f zero_f.
Definition blank_node : bvh_node := mk_bvh_node 0 0 0 0 0 zero4 zero4 0 0.

#[global] Instance bvh_node_inhabited : Inhabited bvh_node := populate blank_node.
#[global] Instance array4_inhabited : Inhabited array4 := populate zero4.
#[global] Instance Z_inhabited' : Inhabited Z := populate 0.

Definition set_split_idx (n : bvh_node) (s : Z) : bvh_node :=
  mk_bvh_node (begin n) (end_ n) (parent n) (left n) (right n) (lb n) (ub n) (nn_level n) s.
Definition set_aabb (n : bvh_node) (l u : array4) : bvh_node :=
  mk_bvh_node (begin n) (end_ n) (parent n) (left n) (right n) l u (nn_level n) (split_idx n).
Definition set_nn_level (n : bvh_node) (k : Z) : bvh_node :=
  mk_bvh_node (begin n) (end_ n) (parent n) (left n) (right n) (lb n) (ub n) k (split_idx n).
Definition set_children (n : bvh_node) (l r : Z) : bvh_node :=
  mk_bvh_node (begin n) (end_ n) (parent n) l r (lb n) (ub n) (nn_level n) (split_idx n).

(** Reading a vector at a [Z] index. *)
Definition at_ {A} `{Inhabited A} (l : list A) (i : Z) : A := l !!! Z.to_nat i.
Definition size {A} (l : list A) : Z := Z.of_nat (length l).

(** ** [std::lower_bound]

    The halving search of the standard library over the index range
    [first, first + len); [comp i] stands for the comparator applied to
    the element at index [i] and the searched value. *)
Fixpoint lower_bound_loop (fuel : nat) (comp : Z -> bool) (first len : Z) : Z :=
  match fuel with
  | O => first
  | S fuel' =>
      if 0 <? len then
        let half := Z.shiftr len 1 in
        let middle := first + half in
        if comp middle
        then lower_bound_loop fuel' comp (middle + 1) (len - half - 1)
        else lower_bound_loop fuel' comp first half
      else first
  end.

Definition lower_bound (comp : Z -> bool) (first last : Z) : Z :=
  lower_bound_loop (Z.to_nat (last - first)) comp first (last - first).

(** ** [first_diff_bit] (64-bit instance): [__builtin_clzll] of the xor. *)
Definition clzll (x : Z) : Z := 63 - Z.log2 x.

Definition first_diff_bit (n1 n2 : Z) : Z :=
  let res_xor := Z.lxor n1 n2 in
  if res_xor =? 0 then 64 else clzll res_xor.

(** ** [sim::construct_bvh_trees_parallel], one chunk *)

Section Builder.
(** The sorted Morton codes and AABBs of the chunk:
    [srt_mcodes(chunk_idx, .)], [srt_lbs(chunk_idx, ., .)],
    [srt_ubs(chunk_idx, ., .)]. *)
Variable srt_mcodes : list Z.
Variable srt_lbs srt_ubs : list array4.

(** The search of lines 215-218 and 236-239: the comparator is
    [(mcode & mask) < 1u] with [mask = 1 << (63 - split_idx)]; pointers
    into the code array are indices. *)
Definition split_mask (s : Z) : Z := Z.shiftl 1 (63 - s).

Definition bit_comp (s : Z) (i : Z) : bool :=
  Z.land (at_ srt_mcodes i) (split_mask s) <? 1.

Definition find_flip (b e s : Z) : Z := lower_bound (bit_comp s) b e.

(** The [while] loop of lines 220-240. It returns [is_leaf_node], the
    final [split_idx] and the final [split_ptr]. The budget is the
    number of bit indices left, which the loop cannot exceed. *)
Fixpoint bump_loop (fuel : nat) (b e s split_ptr : Z) : bool * Z * Z :=
  match fuel with
  | O => (true, s, split_ptr)
  | S fuel' =>
      if (split_ptr =? b) || (split_ptr =? e) then
        if s =? 63 then (true, s, split_ptr)
        else
          let s' := wrap32 (s + 1) in
          bump_loop fuel' b e s' (find_flip b e s')
      else (false, s, split_ptr)
  end.

(** The leaf AABB of lines 270-277. *)
Definition leaf_aabb (b e : Z) (l u : array4) : array4 * array4 :=
  fold_left
    (fun acc pidx =>
       (array4_map2 std_min (fst acc) (at_ srt_lbs pidx),
        array4_map2 std_max (snd acc) (at_ srt_ubs pidx)))
    (map (fun k => b + Z.of_nat k) (seq 0 (Z.to_nat (e - b))))
    (l, u).

(** Step 1 on one node: the updated node, [nc_buf] and [nplc_buf]
    entries. *)
Definition classify (cur_node : bvh_node) : outcome (bvh_node * Z * Z) :=
  let b := begin cur_node in
  let e := end_ cur_node in
  let '(is_leaf_node, s, split_ptr) :=
    if (1 <? wrap32 (e - b)) && (split_idx cur_node <=? 63) then
      bump_loop (Z.to_nat (64 - split_idx cur_node)) b e (split_idx cur_node)
                (find_flip b e (split_idx cur_node))
    else (true, split_idx cur_node, 0) in
  let cur_node := set_split_idx cur_node s in
  if is_leaf_node then
    let '(l, u) := leaf_aabb b e (lb cur_node) (ub cur_node) in
    Done (set_aabb cur_node l u, 0, 0)
  else
    let! nplc := numeric_cast_u32 (split_ptr - b) in
    Done (cur_node, 2, nplc).

(** Step 1 over the level [n_begin, n_end): the tree with the level's
    nodes updated, [nc_buf], [nplc_buf] and the number of leaves. *)
Fixpoint classify_level (nodes : list bvh_node)
  : outcome (list bvh_node * list Z * list Z * Z) :=
  match nodes with
  | [] => Done ([], [], [], 0)
  | cur_node :: rest =>
      let! r := classify cur_node in
      let '(cur_node', nc, nplc) := r in
      let! rs := classify_level rest in
      let '(nodes', nc_buf, nplc_buf, n_leaf) := rs in
      Done (cur_node' :: nodes', nc :: nc_buf, nplc :: nplc_buf,
            if nc =? 0 then wrap32 (1 + n_leaf) else n_leaf)
  end.

(** Step 3: the inclusive prefix sum of [nc_buf]. *)
Fixpoint prefix_sum (sum : Z) (nc_buf : list Z) : list Z :=
  match nc_buf with
  | [] => []
  | nc :: rest => let temp := wrap32 (sum + nc) in temp :: prefix_sum temp rest
  end.

(** Step 4 on one node. *)
Definition finalise (cur_tree_size cur_n_nodes n_begin : Z)
           (nc_buf nplc_buf ps_buf : list Z)
           (tree : list bvh_node) (node_idx : Z) : outcome (list bvh_node) :=
  let cur_node := set_nn_level (at_ tree node_idx) cur_n_nodes in
  let nc := at_ nc_buf (node_idx - n_begin) in
  if nc =? 0 then
    Done (<[Z.to_nat node_idx := cur_node]> tree)
  else
    let lsize := at_ nplc_buf (node_idx - n_begin) in
    let lc_idx := cur_tree_size + at_ ps_buf (node_idx - n_begin) - 2 in
    let! l := numeric_cast_i32 lc_idx in
    let! r := numeric_cast_i32 (lc_idx + 1) in
    let cur_node := set_children cur_node l r in
    let! p := numeric_cast_i32 node_idx in
    let lc := mk_bvh_node (begin cur_node) (wrap32 (begin cur_node + lsize)) p (-1) (-1)
                          default_lb default_ub 0 (wrap32 (split_idx cur_node + 1)) in
    let rc := mk_bvh_node (wrap32 (begin cur_node + lsize)) (end_ cur_node) p (-1) (-1)
                          default_lb default_ub 0 (wrap32 (split_idx cur_node + 1)) in
    Done (<[Z.to_nat (lc_idx + 1) := rc]>
            (<[Z.to_nat lc_idx := lc]>
               (<[Z.to_nat node_idx := cur_node]> tree))).

Fixpoint finalise_level (cur_tree_size cur_n_nodes n_begin : Z)
         (nc_buf nplc_buf ps_buf : list Z)
         (idxs : list Z) (tree : list bvh_node) : outcome (list bvh_node) :=
  match idxs with
  | [] => Done tree
  | node_idx :: rest =>
      let! tree' := finalise cur_tree_size cur_n_nodes n_begin nc_buf nplc_buf ps_buf tree node_idx in
      finalise_level cur_tree_size cur_n_nodes n_begin nc_buf nplc_buf ps_buf rest tree'
  end.

Definition index_range (n_begin n_end : Z) : list Z :=
  map (fun k => n_begin + Z.of_nat k) (seq 0 (Z.to_nat (n_end - n_begin))).

(** One iteration of the [while (cur_n_nodes != 0u)] loop: the new tree
    and the new [cur_n_nodes]. *)
Definition level_step (tree : list bvh_node) (cur_n_nodes : Z)
  : outcome (list bvh_node * Z) :=
  let cur_tree_size := size tree in
  let n_begin := cur_tree_size - cur_n_nodes in
  let n_end := cur_tree_size in
  if cur_n_nodes >? u32_max / 2 then OverflowError else
  let nn_next_level := wrap32 (cur_n_nodes * 2) in
  (* Step 1 *)
  let! r := classify_level (drop (Z.to_nat n_begin) tree) in
  let '(nodes', nc_buf, nplc_buf, n_leaf_nodes) := r in
  let tree := take (Z.to_nat n_begin) tree ++ nodes' in
  let nn_next_level := wrap32 (nn_next_level - wrap32 (n_leaf_nodes * 2)) in
  (* Step 2 *)
  if nn_next_level >? size_max - cur_tree_size then OverflowError else
  let tree := tree ++ replicate (Z.to_nat nn_next_level) blank_node in
  (* Step 3 *)
  let ps_buf := prefix_sum 0 nc_buf in
  (* Step 4 *)
  let! tree := finalise_level cur_tree_size cur_n_nodes n_begin nc_buf nplc_buf ps_buf
                              (index_range n_begin n_end) tree in
  Done (tree, nn_next_level).

Fixpoint build_levels (fuel : nat) (tree : list bvh_node) (cur_n_nodes n_levels : Z)
  : outcome (list bvh_node * Z) :=
  if cur_n_nodes =? 0 then Done (tree, n_levels) else
  match fuel with
  | O => OutOfFuel
  | S fuel' =>
      let! r := level_step tree cur_n_nodes in
      build_levels fuel' (fst r) (snd r) (wrap32 (n_levels + 1))
  end.

(** The backward pass of lines 411-485. *)
Definition pull_up (tree : list bvh_node) (node_idx : Z) : list bvh_node :=
  let cur_node := at_ tree node_idx in
  if left cur_node =? -1 then tree
  else
    let lc := at_ tree (left cur_node) in
    let rc := at_ tree (right cur_node) in
    <[Z.to_nat node_idx :=
        set_aabb cur_node (array4_map2 std_min (lb lc) (lb rc))
                          (array4_map2 std_max (ub lc) (ub rc))]> tree.

Fixpoint backward_loop (fuel : nat) (tree : list bvh_node) (n_begin n_end : Z)
  : outcome (list bvh_node) :=
  match fuel with
  | O => OutOfFuel
  | S fuel' =>
      let tree := fold_left pull_up (index_range n_begin n_end) tree in
      if n_begin =? 0 then Done tree
      else
        let new_n_end := n_begin in
        let n_begin := n_begin - nn_level (at_ tree (n_begin - 1)) in
        backward_loop fuel' tree n_begin new_n_end
  end.

Definition backward_pass (tree : list bvh_node) : outcome (list bvh_node) :=
  let n_begin := size tree - nn_level (at_ tree (size tree - 1)) in
  if n_begin =? 0 then Done tree
  else
    let new_n_end := n_begin in
    let n_begin := n_begin - nn_level (at_ tree (n_begin - 1)) in
    backward_loop (length tree) tree n_begin new_n_end.

(** The body of the per-chunk loop. [nparts] is the number of
    particles; [fuel] bounds the iterations of the level loop. Of the two
    counters that are only logged, [n_levels] is kept and [n_nodes] is
    left out. *)
Definition construct_bvh_tree (fuel : nat) (nparts : Z) : outcome (list bvh_node) :=
  let! e := numeric_cast_u32 nparts in
  let tree := [mk_bvh_node 0 e (-1) (-1) (-1) default_lb default_ub 0 0] in
  let! r := build_levels fuel tree 1 0 in
  backward_pass (fst r).

End Builder.

(** Scenario S1: two particles with codes 0 and 2^64 - 1. *)
Definition fl (m : positive) (e : Z) : spec_float := S754_finite false m e.
Definition pt (v : spec_float) : array4 := Array4 v v v v.

(** [sim::construct_bvh_trees_parallel]: the overflow check on the size
    of the code vector, then one tree per chunk. An exception of a chunk
    leaves the parallel loop. *)
Definition ptrdiff_max : Z := 9223372036854775807.

Fixpoint construct_chunks (fuel : nat) (nparts : Z)
         (chunks : list (list Z * list array4 * list array4))
  : outcome (list (list bvh_node)) :=
  match chunks with
  | [] => Done []
  | (srt_mcodes, srt_lbs, srt_ubs) :: rest =>
      let! tree := construct_bvh_tree srt_mcodes srt_lbs srt_ubs fuel nparts in
      let! trees := construct_chunks fuel nparts rest in
      Done (tree :: trees)
  end.

Definition construct_bvh_trees_parallel (fuel : nat) (nparts : Z)
           (chunks : list (list Z * list array4 * list array4))
  : outcome (list (list bvh_node)) :=
  if nparts * size chunks >? ptrdiff_max then OverflowError
  else construct_chunks fuel nparts chunks.

(** ** Interval arithmetic and [horner_eval] *)

(** [double] arithmetic: IEEE-754 binary64, rounding to nearest even. *)
Definition double_add : spec_float -> spec_float -> spec_float := SFadd 53 1024.
Definition double_mul : spec_float -> spec_float -> spec_float := SFmul 53 1024.
Definition double_of_Z (z : Z) : spec_float := binary_normalize 53 1024 z 0 false.

#[global] Instance spec_float_inhabited : Inhabited spec_float := populate (S754_zero false).

(** [struct ival] with its converting constructor [ival(double val)]. *)
Record ival : Type := mk_ival { lower : spec_float; upper : spec_float }.

Definition ival_of (val : spec_float) : ival := mk_ival val val.

(** [operator+] and [operator*] of lines 61-77. *)
Definition ival_add (a b : ival) : ival :=
  mk_ival (double_add (lower a) (lower b)) (double_add (upper a) (upper b)).

Definition ival_mul (a b : ival) : ival :=
  let tmp1 := double_mul (lower a) (lower b) in
  let tmp2 := double_mul (lower a) (upper b) in
  let tmp3 := double_mul (upper a) (lower b) in
  let tmp4 := double_mul (upper a) (upper b) in
  let l := std_min (std_min tmp1 tmp2) (std_min tmp3 tmp4) in
  let u := std_max (std_max tmp1 tmp2) (std_max tmp3 tmp4) in
  mk_ival l u.

(** The lambda [horner_eval] of lines 509-516: [ptr] holds the
    coefficients of one substep, [order] is the Taylor order. The counter
    [o] runs from 1 to [order] (an order below [2^32 - 1], so that the
    unsigned counter does not wrap). *)
Definition horner_eval (order : Z) (h_int : ival) (ptr : list spec_float) : ival :=
  fold_left
    (fun acc o => ival_add (ival_of (at_ ptr (order - o))) (ival_mul acc h_int))
    (map Z.of_nat (seq 1 (Z.to_nat order)))
    (ival_of (at_ ptr order)).

(** ** [disc_single_coord] and [sim::morton_encode_sort] *)

Definition float_add : spec_float -> spec_float -> spec_float := SFadd 24 128.
Definition float_sub : spec_float -> spec_float -> spec_float := SFsub 24 128.
Definition float_mul : spec_float -> spec_float -> spec_float := SFmul 24 128.
Definition float_div : spec_float -> spec_float -> spec_float := SFdiv 24 128.
Definition float_of_Z (z : Z) : spec_float := binary_normalize 24 128 z 0 false.

(** [static_cast<std::uint64_t>] of a [float]: truncation, for a finite
    value in [[0, 2^64)]. The conversion of any other value (negative,
    NaN, infinite, [2^64] or more) is undefined in C++; the model returns
    0 for them. *)
Definition u64_of_float (f : spec_float) : Z :=
  match f with
  | S754_finite false m e =>
      let v := if 0 <=? e then Z.pos m * 2 ^ e else Z.pos m / 2 ^ (- e) in
      if v <? 2 ^ 64 then v else 0
  | _ => 0
  end.

Definition disc_single_coord (x min max : spec_float) : Z :=
  let isize := float_sub max min in
  let rx := float_div (float_sub x min) isize in
  let rx := if SFleb (float_of_Z 0) rx then rx else float_of_Z 0 in
  let rx := float_mul rx (float_of_Z (Z.shiftl 1 16)) in
  let retval := u64_of_float rx in
  Z.min retval (Z.shiftl 1 16 - 1).

(** The output of one chunk of [morton_encode_sort]. *)
Record sorted_chunk : Type := mk_sorted_chunk {
  mcodes : list Z;
  vidx : list Z;
  srt_lb : list array4;
  srt_ub : list array4;
  srt_mcodes_of : list Z
}.

(** The index vector as [propagate_for] initialises it, lines 641-656. *)
Definition vidx_init (nparts : Z) : list Z := index_range 0 nparts.

(** [isort_apply], lines 219-225: [out[i] = src[vidx_ptr[i]]]. *)
Definition isort_apply {A} `{Inhabited A} (vidx_ptr : list Z) (nparts : Z) (src : list A)
  : list A :=
  map (fun i => at_ src (at_ vidx_ptr i)) (index_range 0 nparts).

Section MortonSort.
(** [mortonnd::MortonNDLutEncoder<4, 16, 8>::Encode] and
    [oneapi::tbb::parallel_sort] are taken as parameters. *)
Variable morton_enc : Z -> Z -> Z -> Z -> Z.
Variable parallel_sort : (Z -> Z -> bool) -> list Z -> list Z.

Definition centre (l u : spec_float) : spec_float :=
  float_add (float_div l (float_of_Z 2)) (float_div u (float_of_Z 2)).

Definition mcode_of (glb gub lbv ubv : array4) : Z :=
  let n0 := disc_single_coord (centre (a_x lbv) (a_x ubv)) (a_x glb) (a_x gub) in
  let n1 := disc_single_coord (centre (a_y lbv) (a_y ubv)) (a_y glb) (a_y gub) in
  let n2 := disc_single_coord (centre (a_z lbv) (a_z ubv)) (a_z glb) (a_z gub) in
  let n3 := disc_single_coord (centre (a_r lbv) (a_r ubv)) (a_r glb) (a_r gub) in
  morton_enc n0 n1 n2 n3.

(** The body of the loop over the chunks, lines 140-241. [glb] and [gub]
    are the values loaded from the atomics; [vidx_ptr] is the chunk's
    part of the index vector. *)
Definition morton_encode_sort_chunk (glb gub : array4) (lb_ptr ub_ptr : list array4)
           (vidx_ptr : list Z) (nparts : Z) : sorted_chunk :=
  let mcodes_ptr :=
    map (fun pidx => mcode_of glb gub (at_ lb_ptr pidx) (at_ ub_ptr pidx))
        (index_range 0 nparts) in
  let vidx_ptr :=
    parallel_sort (fun idx1 idx2 => at_ mcodes_ptr idx1 <? at_ mcodes_ptr idx2) vidx_ptr in
  mk_sorted_chunk mcodes_ptr vidx_ptr
                  (isort_apply vidx_ptr nparts lb_ptr)
                  (isort_apply vidx_ptr nparts ub_ptr)
                  (isort_apply vidx_ptr nparts mcodes_ptr).

(** [sim::morton_encode_sort]: every chunk, [nchunks] being the size of
    [global_lb]. *)
Definition morton_encode_sort (global_lb_atomic global_ub_atomic : list array4)
           (lbs ubs : list (list array4)) (vidx : list (list Z)) (nparts : Z)
  : list sorted_chunk :=
  map (fun chunk_idx =>
         morton_encode_sort_chunk (at_ global_lb_atomic chunk_idx)
                                  (at_ global_ub_atomic chunk_idx)
                                  (at_ lbs chunk_idx) (at_ ubs chunk_idx)
                                  (at_ vidx chunk_idx) nparts)
      (index_range 0 (size global_lb_atomic)).

End MortonSort.

(** ** [sim::propagate_for]: integration and boxes

    The vectors of size [nparts * nchunks] are read through their
    [(nchunks, nparts)] view: one list per chunk, the pointer
    [data() + nparts * chunk_idx] of the source. The eight scalar vectors
    [x_lb ... r_ub] are paired up as one vector of lower and one of upper
    bounds with elements of type [array4]. *)

(** [static_cast<float>] of a [double] and [std::nextafter] on [float]. *)
Definition float_of_double (d : spec_float) : spec_float :=
  match d with
  | S754_finite s m e => binary_round 24 128 s m e
  | _ => d
  end.

Definition nextafter_down : spec_float -> spec_float := SFpred 24 128.
Definition nextafter_up : spec_float -> spec_float := SFsucc 24 128.

Definition double_div : spec_float -> spec_float -> spec_float := SFdiv 53 1024.

(** [delta_t = 0.46 * 8u], [nchunks = 8u], [chunk_size = delta_t / nchunks]. *)
Definition nchunks : Z := 8.
Definition delta_t : spec_float :=
  double_mul (double_div (double_of_Z 46) (double_of_Z 100)) (double_of_Z 8).
Definition chunk_size : spec_float := double_div delta_t (double_of_Z nchunks).

(** Writing element [(chunk_idx, pidx)] of a per-chunk vector. *)
Definition write2 {A} (v : list (list A)) (chunk_idx pidx : Z) (x : A) : list (list A) :=
  <[Z.to_nat chunk_idx := <[Z.to_nat pidx := x]> (at_ v chunk_idx)]> v.

Definition read2 {A} `{Inhabited A} (v : list (list A)) (chunk_idx pidx : Z) : A :=
  at_ (at_ v chunk_idx) pidx.

(** Modelled from the spec: the default-constructed atomic global boxes
    of [sim_data], the neutral elements of the reduction of section 4.6. *)
Definition default_global_lb : array4 := default_lb.
Definition default_global_ub : array4 := default_ub.

Section Propagate.
(** The double-length time type [heyoka::detail::dfloat<double>] and the
    batch integrator are external; the model takes them as parameters. *)
Variable dfloat : Type.
Variable df_of_double : spec_float -> dfloat.
Variable df_lt : dfloat -> dfloat -> bool.
Variable df_sub : dfloat -> dfloat -> dfloat.
Variable df_to_double : dfloat -> spec_float.

#[local] Instance dfloat_inhabited : Inhabited dfloat :=
  populate (df_of_double (S754_zero false)).

(** The substep record of one particle ([s_data[i]]). *)
Record s_data_t : Type := mk_s_data {
  tc_x : list spec_float;
  tc_y : list spec_float;
  tc_z : list spec_float;
  tc_r : list spec_float;
  tcoords : list dfloat
}.

Variable order : Z.
Variable batch_size : Z.

(** Lines 343-415 for the batch [idx]: the substep records of its
    [batch_size] lanes after [ta.propagate_for], and whether every lane
    ended with [taylor_outcome::time_limit]. *)
Variable integrate : Z -> list s_data_t * bool.

#[local] Instance s_data_inhabited : Inhabited s_data_t := populate (mk_s_data [] [] [] [] []).

Definition df_max (a b : dfloat) : dfloat := if df_lt a b then b else a.
Definition df_min (a b : dfloat) : dfloat := if df_lt b a then b else a.

(** [std::upper_bound]: the first element that [val] compares below. *)
Definition upper_bound (elems : list dfloat) (first last : Z) (val : dfloat) : Z :=
  lower_bound (fun i => negb (df_lt val (at_ elems i))) first last.

(** The body of the loop over the substeps, lines 472-545. *)
Definition substep_update (sd : s_data_t) (chunk_begin chunk_end : dfloat)
           (box : array4 * array4) (it : Z) : array4 * array4 :=
  let ss_start :=
    if it =? 0 then df_of_double (S754_zero false) else at_ (tcoords sd) (it - 1) in
  let ev_lb := df_max chunk_begin ss_start in
  let ev_ub := df_min chunk_end (at_ (tcoords sd) it) in
  let h_int_lb := df_to_double (df_sub ev_lb ss_start) in
  let h_int_ub := df_to_double (df_sub ev_ub ss_start) in
  let ss_idx := it in
  let tc_ptr (tc : list spec_float) := drop (Z.to_nat (ss_idx * wrap32 (order + 1))) tc in
  let h_int := mk_ival h_int_lb h_int_ub in
  let x_int := horner_eval order h_int (tc_ptr (tc_x sd)) in
  let y_int := horner_eval order h_int (tc_ptr (tc_y sd)) in
  let z_int := horner_eval order h_int (tc_ptr (tc_z sd)) in
  let r_int := horner_eval order h_int (tc_ptr (tc_r sd)) in
  let down (i : ival) := nextafter_down (float_of_double (lower i)) in
  let up (i : ival) := nextafter_up (float_of_double (upper i)) in
  (array4_map2 std_min (fst box) (Array4 (down x_int) (down y_int) (down z_int) (down r_int)),
   array4_map2 std_max (snd box) (Array4 (up x_int) (up y_int) (up z_int) (up r_int))).

(** The box of one particle in one chunk, lines 440-546. *)
Definition lane_aabb (chunk_idx : Z) (sd : s_data_t) : array4 * array4 :=
  let chunk_begin := df_of_double (double_mul chunk_size (double_of_Z chunk_idx)) in
  let chunk_end := df_of_double (double_mul chunk_size (double_of_Z (wrap32 (chunk_idx + 1)))) in
  let tcoords_end := size (tcoords sd) in
  let ss_it_begin := upper_bound (tcoords sd) 0 tcoords_end chunk_begin in
  let ss_it_end :=
    lower_bound (fun i => df_lt (at_ (tcoords sd) i) chunk_end) ss_it_begin tcoords_end in
  let ss_it_end := ss_it_end + (if ss_it_end =? tcoords_end then 0 else 1) in
  fold_left (substep_update sd chunk_begin chunk_end)
            (index_range ss_it_begin ss_it_end) (default_lb, default_ub).

(** The per-particle boxes and the global boxes of the chunks. *)
Record aabb_state : Type := mk_aabb_state {
  st_lb : list (list array4);          (* x_lb, y_lb, z_lb, r_lb *)
  st_ub : list (list array4);          (* x_ub, y_ub, z_ub, r_ub *)
  global_lb_atomic : list array4;
  global_ub_atomic : list array4;
  int_error : bool
}.

(** Lines 420-547 for one batch: every chunk, every lane. *)
Definition lane_store (idx chunk_idx : Z) (recs : list s_data_t)
           (boxes : list (list array4) * list (list array4)) (i : Z)
  : list (list array4) * list (list array4) :=
  let pidx_begin := idx * batch_size in
  let box := lane_aabb chunk_idx (at_ recs i) in
  (write2 (fst boxes) chunk_idx (pidx_begin + i) (fst box),
   write2 (snd boxes) chunk_idx (pidx_begin + i) (snd box)).

Definition batch_store (idx : Z) (recs : list s_data_t)
           (boxes : list (list array4) * list (list array4))
  : list (list array4) * list (list array4) :=
  fold_left
    (fun boxes chunk_idx =>
       fold_left (lane_store idx chunk_idx recs) (index_range 0 batch_size) boxes)
    (index_range 0 nchunks) boxes.

(** The first loop of [batch_int_aabb], lines 338-548: it stops at the
    first batch whose integration fails. *)
Fixpoint integrate_range (range : list Z)
         (boxes : list (list array4) * list (list array4))
  : list (list array4) * list (list array4) * bool :=
  match range with
  | [] => (boxes, false)
  | idx :: rest =>
      let '(recs, ok) := integrate idx in
      if ok then integrate_range rest (batch_store idx recs boxes)
      else (boxes, true)
  end.

(** The local reduction of lines 576-594 for one chunk. Both
    accumulators read the lower-bound vectors, as the source does. *)
Definition local_update (x_lb_ptr : list array4) (idx : Z)
           (loc : array4 * array4) (i : Z) : array4 * array4 :=
  let pidx_begin := idx * batch_size in
  (array4_map2 std_min (fst loc) (at_ x_lb_ptr (pidx_begin + i)),
   array4_map2 std_max (snd loc) (at_ x_lb_ptr (pidx_begin + i))).

Definition local_reduce (x_lb_ptr : list array4) (range : list Z) : array4 * array4 :=
  fold_left
    (fun loc idx => fold_left (local_update x_lb_ptr idx) (index_range 0 batch_size) loc)
    range (default_lb, default_ub).

(** [lb_updater] and [ub_updater], lines 597-622: the retry loop makes
    the update of the atomic one step, [out = min(val, out)] and
    [out = max(val, out)]. *)
Definition lb_updater (out val : spec_float) : spec_float := std_min val out.
Definition ub_updater (out val : spec_float) : spec_float := std_max val out.

(** The second loop of [batch_int_aabb], lines 554-633. *)
Definition reduce_chunk (range : list Z) (st : aabb_state) (chunk_idx : Z) : aabb_state :=
  let loc := local_reduce (at_ (st_lb st) chunk_idx) range in
  let glb := at_ (global_lb_atomic st) chunk_idx in
  let gub := at_ (global_ub_atomic st) chunk_idx in
  mk_aabb_state (st_lb st) (st_ub st)
    (<[Z.to_nat chunk_idx := array4_map2 lb_updater glb (fst loc)]> (global_lb_atomic st))
    (<[Z.to_nat chunk_idx := array4_map2 ub_updater gub (snd loc)]> (global_ub_atomic st))
    (int_error st).

Definition batch_int_aabb (range : list Z) (st : aabb_state) : aabb_state :=
  let '(boxes, err) := integrate_range range (st_lb st, st_ub st) in
  let st := mk_aabb_state (fst boxes) (snd boxes)
                          (global_lb_atomic st) (global_ub_atomic st)
                          (int_error st || err) in
  fold_left (reduce_chunk range) (index_range 0 nchunks) st.

(** [oneapi::tbb::parallel_for] over the batches: the workers get the
    blocked ranges [ranges]; each runs [batch_int_aabb] on its own. *)
Definition parallel_for_batches (ranges : list (list Z)) (st : aabb_state) : aabb_state :=
  fold_left (fun st range => batch_int_aabb range st) ranges st.

(** [sim::propagate_for], lines 256-667. The number of regular batches
    is [nparts / batch_size]; the scalar remainder [s_rem] is computed and
    not used. The box vectors come in with their final size; the atomics
    are rebuilt ([clear] and [resize]) and the error flag starts unset. *)
Definition n_batches (nparts : Z) : Z := nparts / batch_size.
Definition s_rem (nparts : Z) : Z := nparts mod batch_size.

Definition reset_globals (st : aabb_state) : aabb_state :=
  mk_aabb_state (st_lb st) (st_ub st)
                (replicate (Z.to_nat nchunks) default_global_lb)
                (replicate (Z.to_nat nchunks) default_global_ub)
                false.

Definition propagate_for_aabb (nparts : Z) (st : aabb_state) : aabb_state :=
  parallel_for_batches [index_range 0 (n_batches nparts)] (reset_globals st).

(** The whole function: [None] is the [throw] of line 662. *)
Definition propagate_for (morton_enc : Z -> Z -> Z -> Z -> Z)
           (parallel_sort : (Z -> Z -> bool) -> list Z -> list Z)
           (nparts : Z) (st : aabb_state) : option (aabb_state * list sorted_chunk) :=
  let vidx := replicate (Z.to_nat nchunks) (vidx_init nparts) in
  let st := propagate_for_aabb nparts st in
  if int_error st then None
  else Some (st, morton_encode_sort morton_enc parallel_sort
                                    (global_lb_atomic st) (global_ub_atomic st)
                                    (st_lb st) (st_ub st) vidx nparts).

End Propagate.

(** ** [sim::verify_bvh_trees_parallel]

    The check of the trees that debug builds run after the construction,
    lines 498-656. A failed [assert] aborts the program: the check of a
    node yields [None] for it, and otherwise [pset], the set of the
    particles met in the leaves so far. *)

(** [operator==] of [std::array<float, 4>]. *)
Definition array4_eqb (a b : array4) : bool :=
  SFeqb (a_x a) (a_x b) && SFeqb (a_y a) (a_y b) &&
  SFeqb (a_z a) (a_z b) && SFeqb (a_r a) (a_r b).

(** [assert(pset.find(x) == pset.end()); pset.insert(x);] *)
Definition pset_add (pset : gset Z) (x : Z) : option (gset Z) :=
  if decide (elem_of x pset) then None else Some (union (singleton x) pset).

Section Verify.
Variable bvh_tree : list bvh_node.
Variable srt_mcodes mcodes vidx : list Z.
Variable srt_lbs srt_ubs lbs ubs : list array4.

(** Lines 550-577: the particles of a leaf. *)
Definition verify_particles (cur_node : bvh_node) (pset : gset Z) : option (gset Z) :=
  if wrap32 (end_ cur_node - begin cur_node) =? 1 then
    if (left cur_node =? -1) && (right cur_node =? -1)
    then pset_add pset (begin cur_node)
    else None
  else if left cur_node =? -1 then
    if right cur_node =? -1 then
      let mc := at_ srt_mcodes (begin cur_node) in
      fold_left
        (fun acc j =>
           match acc with
           | Some pset => if at_ srt_mcodes j =? mc then pset_add pset j else None
           | None => None
           end)
        (index_range (wrap32 (begin cur_node + 1)) (end_ cur_node))
        (pset_add pset (begin cur_node))
    else None
  else Some pset.

(** Lines 579-618: the children of an internal node, the bound on
    [split_idx] of a leaf. *)
Definition verify_children (i : Z) (cur_node : bvh_node) : bool :=
  if left cur_node =? -1 then split_idx cur_node <=? 64
  else
    let uleft := wrap32 (left cur_node) in
    let uright := wrap32 (right cur_node) in
    (0 <? left cur_node) && (0 <? right cur_node) &&
    (i <? uleft) && (uleft <? size bvh_tree) &&
    (i <? uright) && (uright <? size bvh_tree) &&
    (begin (at_ bvh_tree uleft) =? begin cur_node) &&
    (end_ (at_ bvh_tree uleft) <? end_ cur_node) &&
    (begin (at_ bvh_tree uright) =? end_ (at_ bvh_tree uleft)) &&
    (end_ (at_ bvh_tree uright) =? end_ cur_node) &&
    (split_idx cur_node <=? 63) &&
    (let split_idx_ := wrap32 (end_ (at_ bvh_tree uleft) - 1) in
     (first_diff_bit (at_ srt_mcodes split_idx_) (at_ srt_mcodes (wrap32 (split_idx_ + 1)))
      =? split_idx cur_node) &&
     (at_ srt_mcodes split_idx_ =? at_ mcodes (at_ vidx split_idx_))).

(** Lines 620-632: the parent. *)
Definition verify_parent (i : Z) (cur_node : bvh_node) : bool :=
  if i =? 0 then parent cur_node =? -1
  else
    let upar := wrap32 (parent cur_node) in
    (0 <=? parent cur_node) && (upar <? i) &&
    (begin (at_ bvh_tree upar) <=? begin cur_node) &&
    (end_ cur_node <=? end_ (at_ bvh_tree upar)) &&
    ((begin cur_node =? begin (at_ bvh_tree upar)) ||
     (end_ cur_node =? end_ (at_ bvh_tree upar))).

(** Lines 637-652: the box, recomputed from the particles. *)
Definition verify_aabb_step (acc : bool * array4 * array4) (j : Z) : bool * array4 * array4 :=
  let '(ok, lb_, ub_) := acc in
  (ok && array4_eqb (at_ srt_lbs j) (at_ lbs (at_ vidx j))
      && array4_eqb (at_ srt_ubs j) (at_ ubs (at_ vidx j)),
   array4_map2 std_min lb_ (at_ srt_lbs j),
   array4_map2 std_max ub_ (at_ srt_ubs j)).

Definition verify_aabb (cur_node : bvh_node) : bool :=
  let '(ok, lb_, ub_) :=
    fold_left verify_aabb_step (index_range (begin cur_node) (end_ cur_node))
              (true, default_lb, default_ub) in
  ok && array4_eqb lb_ (lb cur_node) && array4_eqb ub_ (ub cur_node).

(** The body of the loop over the nodes. *)
Definition verify_node (pset : gset Z) (i : Z) : option (gset Z) :=
  let cur_node := at_ bvh_tree i in
  if (begin cur_node <? end_ cur_node) &&
     (if left cur_node =? -1 then right cur_node =? -1
      else (0 <? left cur_node) && (0 <? right cur_node))
  then
    match verify_particles cur_node pset with
    | Some pset =>
        if verify_children i cur_node && verify_parent i cur_node &&
           (0 <? nn_level cur_node) && verify_aabb cur_node
        then Some pset else None
    | None => None
    end
  else None.

(** The check of one tree: [true] when no assertion fails. *)
Definition verify_bvh_tree : bool :=
  match fold_left
          (fun acc i => match acc with Some pset => verify_node pset i | None => None end)
          (index_range 0 (size bvh_tree)) (Some empty) with
  | Some _ => true
  | None => false
  end.

End Verify.

#[global] Instance sorted_chunk_inhabited : Inhabited sorted_chunk :=
  populate (mk_sorted_chunk [] [] [] [] []).

(** Every chunk: its tree against its sorted and unsorted data. *)
Definition verify_bvh_trees_parallel (bvh_trees : list (list bvh_node))
           (chunks : list sorted_chunk) (lbs ubs : list (list array4)) : bool :=
  forallb
    (fun chunk_idx =>
       let c := at_ chunks chunk_idx in
       verify_bvh_tree (at_ bvh_trees chunk_idx) (srt_mcodes_of c) (mcodes c) (vidx c)
                       (srt_lb c) (srt_ub c) (at_ lbs chunk_idx) (at_ ubs chunk_idx))
    (index_range 0 (size bvh_trees)).

(** * Part II: properties *)

(** ** Machine integers and outcomes *)

Lemma wrap32_small z : 0 <= z <= u32_max -> wrap32 z = z.
Proof. unfold wrap32, u32_max. intros H. apply Z.mod_small. lia. Qed.

Lemma numeric_cast_u32_Done z r : numeric_cast_u32 z = Done r -> r = z /\ 0 <= z <= u32_max.
Proof.
  unfold numeric_cast_u32.
  destruct (0 <=? z) eqn:H1; destruct (z <=? u32_max) eqn:H2; simpl; intros H; inversion H.
  lia.
Qed.

Lemma numeric_cast_i32_Done z r : numeric_cast_i32 z = Done r -> r = z /\ z <= i32_max.
Proof.
  unfold numeric_cast_i32.
  destruct (-2147483648 <=? z) eqn:H1; destruct (z <=? i32_max) eqn:H2; simpl; intros H; inversion H.
  lia.
Qed.

Lemma obind_Done {A B} (m : outcome A) (k : A -> outcome B) b :
  obind m k = Done b -> exists a, m = Done a /\ k a = Done b.
Proof. destruct m; simpl; intros H; try discriminate. eauto. Qed.

Lemma obind_fuel {A B} (m : outcome A) (k : A -> outcome B) :
  obind m k = OutOfFuel -> m = OutOfFuel \/ exists a, m = Done a /\ k a = OutOfFuel.
Proof. destruct m; simpl; intros H; try discriminate; eauto. Qed.

(** ** The halving search *)

Lemma lower_bound_loop_range fuel comp first len :
  0 <= len ->
  first <= lower_bound_loop fuel comp first len <= first + len.
Proof.
  revert first len. induction fuel as [|fuel IH]; intros first len Hlen; simpl; [lia|].
  destruct (0 <? len) eqn:Hpos; [|lia].
  apply Z.ltb_lt in Hpos.
  rewrite Z.shiftr_div_pow2 by lia. change (2 ^ 1) with 2.
  assert (0 <= len / 2 < len) by (split; [apply Z.div_pos; lia | apply Z.div_lt; lia]).
  destruct (comp (first + len / 2)).
  - specialize (IH (first + len / 2 + 1) (len - len / 2 - 1)). lia.
  - specialize (IH first (len / 2)). lia.
Qed.

(** On a range that the comparator partitions, the search returns the
    partition point. *)
Lemma lower_bound_loop_partition fuel comp first len :
  0 <= len -> (Z.to_nat len <= fuel)%nat ->
  (forall i j, first <= i -> i <= j -> j < first + len -> comp j = true -> comp i = true) ->
  let r := lower_bound_loop fuel comp first len in
  (forall i, first <= i < r -> comp i = true) /\
  (forall i, r <= i < first + len -> comp i = false).
Proof.
  revert first len. induction fuel as [|fuel IH]; intros first len Hlen Hfuel Hmono; simpl.
  - split; intros; lia.
  - destruct (0 <? len) eqn:Hpos; [|apply Z.ltb_ge in Hpos; split; intros; lia].
    apply Z.ltb_lt in Hpos.
    rewrite Z.shiftr_div_pow2 by lia. change (2 ^ 1) with 2.
    assert (Hh : 0 <= len / 2 < len) by (split; [apply Z.div_pos; lia | apply Z.div_lt; lia]).
    destruct (comp (first + len / 2)) eqn:Hc.
    + destruct (IH (first + len / 2 + 1) (len - len / 2 - 1)) as [IH1 IH2]; [lia|lia| |].
      { intros i j Hi Hij Hj. apply Hmono; lia. }
      split.
      * intros i Hi. destruct (Z_lt_le_dec i (first + len / 2 + 1)) as [Hlt|Hge].
        -- apply (Hmono i (first + len / 2)); try lia. exact Hc.
        -- apply IH1. lia.
      * intros i Hi. apply IH2. lia.
    + destruct (IH first (len / 2)) as [IH1 IH2]; [lia|lia| |].
      { intros i j Hi Hij Hj. apply Hmono; lia. }
      split.
      * intros i Hi. apply IH1. lia.
      * intros i Hi. destruct (Z_lt_le_dec i (first + len / 2)) as [Hlt|Hge].
        -- apply IH2. lia.
        -- destruct (comp i) eqn:Hci; [|reflexivity].
           rewrite <- Hc. symmetry. apply (Hmono (first + len / 2) i); try lia. exact Hci.
Qed.

Lemma lower_bound_range comp first last :
  first <= last -> first <= lower_bound comp first last <= last.
Proof.
  intros H. unfold lower_bound.
  pose proof (lower_bound_loop_range (Z.to_nat (last - first)) comp first (last - first)). lia.
Qed.

Lemma lower_bound_partition comp first last :
  first <= last ->
  (forall i j, first <= i -> i <= j -> j < last -> comp j = true -> comp i = true) ->
  (forall i, first <= i < lower_bound comp first last -> comp i = true) /\
  (forall i, lower_bound comp first last <= i < last -> comp i = false).
Proof.
  intros H Hmono. unfold lower_bound.
  pose proof (lower_bound_loop_partition (Z.to_nat (last - first)) comp first (last - first)) as L.
  simpl in L. destruct L as [L1 L2]; [lia|lia| |].
  - intros i j ? ? ?. apply Hmono; lia.
  - split; intros i Hi; [apply L1|apply L2]; lia.
Qed.

(** ** Bits of Morton codes *)

Lemma land_pow2_testbit c k :
  0 <= k -> (Z.land c (Z.shiftl 1 k) <? 1) = negb (Z.testbit c k).
Proof.
  intros Hk. rewrite Z.shiftl_1_l.
  destruct (Z.testbit c k) eqn:Hb; simpl.
  - apply Z.ltb_ge.
    assert (Hl : Z.land c (2 ^ k) = 2 ^ k).
    { apply Z.bits_inj'. intros n Hn. rewrite Z.land_spec.
      destruct (Z.eq_dec n k) as [->|Hne].
      - rewrite Hb, Z.pow2_bits_true by lia. reflexivity.
      - rewrite Z.pow2_bits_false by lia. apply andb_false_r. }
    rewrite Hl. pose proof (Z.pow_pos_nonneg 2 k). lia.
  - apply Z.ltb_lt.
    assert (Hl : Z.land c (2 ^ k) = 0).
    { apply Z.bits_inj'. intros n Hn. rewrite Z.land_spec, Z.bits_0.
      destruct (Z.eq_dec n k) as [->|Hne].
      - rewrite Hb. reflexivity.
      - rewrite Z.pow2_bits_false by lia. apply andb_false_r. }
    rewrite Hl. lia.
Qed.

(** Two codes agree on their [s] most significant bits (of 64). *)
Definition same_prefix (s a b : Z) : Prop := Z.shiftr a (64 - s) = Z.shiftr b (64 - s).

Lemma same_prefix_refl s a : same_prefix s a a.
Proof. reflexivity. Qed.

Lemma shiftr_succ_bit a k :
  0 <= k -> Z.shiftr a k = 2 * Z.shiftr a (k + 1) + Z.b2z (Z.testbit a k).
Proof.
  intros Hk.
  replace (Z.shiftr a (k + 1)) with (Z.div2 (Z.shiftr a k)).
  2:{ rewrite Z.div2_spec, Z.shiftr_shiftr by lia. reflexivity. }
  replace (Z.testbit a k) with (Z.odd (Z.shiftr a k)).
  2:{ rewrite <- Z.bit0_odd, Z.shiftr_spec by lia. reflexivity. }
  apply Z.div2_odd.
Qed.

Lemma same_prefix_step s a b :
  0 <= s <= 63 -> same_prefix s a b ->
  Z.testbit a (63 - s) = Z.testbit b (63 - s) ->
  same_prefix (s + 1) a b.
Proof.
  unfold same_prefix. intros Hs Hp Hb.
  replace (64 - (s + 1)) with (63 - s) by lia.
  rewrite (shiftr_succ_bit a (63 - s)), (shiftr_succ_bit b (63 - s)) by lia.
  replace (63 - s + 1) with (64 - s) by lia. rewrite Hp, Hb. reflexivity.
Qed.

Lemma same_prefix_bit_mono s a b :
  0 <= s <= 63 -> a <= b -> same_prefix s a b ->
  Z.testbit a (63 - s) = true -> Z.testbit b (63 - s) = true.
Proof.
  unfold same_prefix. intros Hs Hab Hp Ha.
  assert (Hle : Z.shiftr a (63 - s) <= Z.shiftr b (63 - s)).
  { rewrite !Z.shiftr_div_pow2 by lia. apply Z.div_le_mono; [apply Z.pow_pos_nonneg; lia|lia]. }
  rewrite (shiftr_succ_bit a (63 - s)), (shiftr_succ_bit b (63 - s)) in Hle by lia.
  replace (63 - s + 1) with (64 - s) in Hle by lia. rewrite Hp, Ha in Hle.
  destruct (Z.testbit b (63 - s)); simpl in *; [reflexivity|lia].
Qed.

Lemma first_diff_bit_split s a b :
  0 <= s <= 63 -> 0 <= a -> 0 <= b -> same_prefix s a b ->
  Z.testbit a (63 - s) = false -> Z.testbit b (63 - s) = true ->
  first_diff_bit a b = s.
Proof.
  unfold same_prefix, first_diff_bit, clzll. intros Hs Ha Hb Hp Hba Hbb.
  set (x := Z.lxor a b).
  assert (Hx0 : 0 <= x) by (apply Z.lxor_nonneg; lia).
  assert (Hbit : Z.testbit x (63 - s) = true).
  { unfold x. rewrite Z.lxor_spec, Hba, Hbb. reflexivity. }
  assert (Hhi : Z.shiftr x (64 - s) = 0).
  { unfold x. rewrite Z.shiftr_lxor, Hp. apply Z.lxor_nilpotent. }
  assert (Hne : x <> 0).
  { intros E. rewrite E, Z.bits_0 in Hbit. discriminate. }
  destruct (x =? 0) eqn:E; [apply Z.eqb_eq in E; contradiction|].
  assert (Hlo : 63 - s <= Z.log2 x).
  { destruct (Z_lt_le_dec (Z.log2 x) (63 - s)) as [Hlt|]; [|lia].
    rewrite Z.bits_above_log2 in Hbit by lia. discriminate. }
  assert (Hup : Z.log2 x < 64 - s).
  { apply Z.log2_lt_pow2; [lia|].
    rewrite Z.shiftr_div_pow2 in Hhi by lia.
    pose proof (Z.pow_pos_nonneg 2 (64 - s)).
    apply Z.div_small_iff in Hhi; lia. }
  lia.
Qed.


(** ** Step 4 writes the children in order behind the level *)

Definition left_child (n : bvh_node) (nplc p : Z) : bvh_node :=
  mk_bvh_node (begin n) (wrap32 (begin n + nplc)) p (-1) (-1)
              default_lb default_ub 0 (wrap32 (split_idx n + 1)).

Definition right_child (n : bvh_node) (nplc p : Z) : bvh_node :=
  mk_bvh_node (wrap32 (begin n + nplc)) (end_ n) p (-1) (-1)
              default_lb default_ub 0 (wrap32 (split_idx n + 1)).

(** The level after step 4 and the children it creates, as lists: the
    node at [node_idx] gets the next free pair of slots from [lc_idx]. *)
Fixpoint layout (cur_n_nodes node_idx lc_idx : Z)
         (nodes : list bvh_node) (nc_buf nplc_buf : list Z)
  : list bvh_node * list bvh_node :=
  match nodes, nc_buf, nplc_buf with
  | n :: nodes', nc :: nc_buf', nplc :: nplc_buf' =>
      if nc =? 0 then
        let r := layout cur_n_nodes (node_idx + 1) lc_idx nodes' nc_buf' nplc_buf' in
        (set_nn_level n cur_n_nodes :: fst r, snd r)
      else
        let r := layout cur_n_nodes (node_idx + 1) (lc_idx + 2) nodes' nc_buf' nplc_buf' in
        (set_children (set_nn_level n cur_n_nodes) lc_idx (lc_idx + 1) :: fst r,
         left_child n nplc node_idx :: right_child n nplc node_idx :: snd r)
  | _, _, _ => ([], [])
  end.

Definition sum_list (l : list Z) : Z := fold_right Z.add 0 l.

Lemma insert_middle {A} (l1 l2 : list A) (x y : A) (i : nat) :
  i = length l1 -> <[i := y]> (l1 ++ x :: l2) = l1 ++ y :: l2.
Proof.
  intros ->. induction l1 as [|a l1 IH]; simpl; [reflexivity|].
  f_equal. exact IH.
Qed.

Lemma at_middle {A} `{Inhabited A} (l1 l2 : list A) (x : A) (i : Z) :
  i = size l1 -> at_ (l1 ++ x :: l2) i = x.
Proof.
  intros ->. unfold at_, size. rewrite Nat2Z.id.
  apply list_lookup_total_correct. apply list_lookup_middle. reflexivity.
Qed.

Lemma drop_head {A} `{Inhabited A} (l : list A) (j : nat) (x : A) (l' : list A) :
  drop j l = x :: l' -> at_ l (Z.of_nat j) = x /\ drop (S j) l = l'.
Proof.
  intros Hd. split.
  - unfold at_. rewrite Nat2Z.id. apply list_lookup_total_correct.
    pose proof (lookup_drop l j 0) as E. rewrite Hd, Nat.add_0_r in E.
    symmetry. exact E.
  - replace (S j) with (j + 1)%nat by lia. rewrite <- drop_drop, Hd. reflexivity.
Qed.

Lemma size_app {A} (l1 l2 : list A) : size (l1 ++ l2) = size l1 + size l2.
Proof. unfold size. rewrite length_app. lia. Qed.

Lemma size_nonneg {A} (l : list A) : 0 <= size l.
Proof. unfold size. lia. Qed.

Lemma finalise_leaf cts cur nb ncs nplcs ps tree node_idx :
  at_ ncs (node_idx - nb) = 0 ->
  finalise cts cur nb ncs nplcs ps tree node_idx
  = Done (<[Z.to_nat node_idx := set_nn_level (at_ tree node_idx) cur]> tree).
Proof. intros H. unfold finalise. rewrite H. reflexivity. Qed.

Lemma numeric_cast_i32_fits z : 0 <= z <= i32_max -> numeric_cast_i32 z = Done z.
Proof.
  unfold numeric_cast_i32, i32_max. intros H.
  replace (-2147483648 <=? z) with true by (symmetry; apply Z.leb_le; lia).
  replace (z <=? 2147483647) with true by (symmetry; apply Z.leb_le; lia).
  reflexivity.
Qed.

Lemma numeric_cast_i32_big z : i32_max < z -> numeric_cast_i32 z = BadNumericCast.
Proof.
  unfold numeric_cast_i32, i32_max. intros H.
  replace (z <=? 2147483647) with false by (symmetry; apply Z.leb_gt; lia).
  rewrite andb_false_r. reflexivity.
Qed.

Lemma finalise_internal cts cur nb ncs nplcs ps tree node_idx :
  at_ ncs (node_idx - nb) <> 0 ->
  let n := at_ tree node_idx in
  let nplc := at_ nplcs (node_idx - nb) in
  let lc_idx := cts + at_ ps (node_idx - nb) - 2 in
  0 <= node_idx -> node_idx <= lc_idx ->
  finalise cts cur nb ncs nplcs ps tree node_idx
  = if lc_idx + 1 <=? i32_max then
      Done (<[Z.to_nat (lc_idx + 1) := right_child n nplc node_idx]>
              (<[Z.to_nat lc_idx := left_child n nplc node_idx]>
                 (<[Z.to_nat node_idx := set_children (set_nn_level n cur) lc_idx (lc_idx + 1)]> tree)))
    else BadNumericCast.
Proof.
  intros H n nplc lc_idx H0 Hle. unfold finalise.
  destruct (at_ ncs (node_idx - nb) =? 0) eqn:E; [apply Z.eqb_eq in E; contradiction|].
  fold lc_idx.
  destruct (lc_idx + 1 <=? i32_max) eqn:E1.
  - apply Z.leb_le in E1.
    rewrite (numeric_cast_i32_fits lc_idx) by lia. simpl obind.
    rewrite (numeric_cast_i32_fits (lc_idx + 1)) by lia. simpl obind.
    rewrite (numeric_cast_i32_fits node_idx) by lia. reflexivity.
  - apply Z.leb_gt in E1.
    rewrite (numeric_cast_i32_big (lc_idx + 1)) by lia.
    destruct (Z_le_gt_dec lc_idx i32_max).
    + rewrite (numeric_cast_i32_fits lc_idx) by lia. reflexivity.
    + rewrite (numeric_cast_i32_big lc_idx) by lia. reflexivity.
Qed.

Lemma sum_list_nonneg (l : list Z) :
  Forall (fun nc => nc = 0 \/ nc = 2) l -> 0 <= sum_list l.
Proof.
  induction 1 as [|x l Hx _ IHl]; unfold sum_list in *; simpl; lia.
Qed.

(** The casts of step 4 succeed exactly when the last child slot fits in
    an [int32_t]. *)
Definition casts_fit (last_slot : Z) (todo_nc : list Z) : bool :=
  (sum_list todo_nc =? 0) || (last_slot <=? i32_max).

Lemma finalise_level_layout cts cur n_begin ncs nplcs ps :
  forall (todo : list bvh_node) (todo_nc todo_nplc : list Z)
         (P Q : list bvh_node) (r j : nat),
    length todo_nc = length todo -> length todo_nplc = length todo ->
    Forall (fun nc => nc = 0 \/ nc = 2) todo_nc ->
    drop j ncs = todo_nc -> drop j nplcs = todo_nplc ->
    drop j ps = prefix_sum (size Q) todo_nc ->
    n_begin + Z.of_nat j = size P ->
    cts = size P + size todo ->
    size Q + sum_list todo_nc <= u32_max ->
    sum_list todo_nc <= Z.of_nat r ->
    0 <= n_begin ->
    let lay := layout cur (size P) (cts + size Q) todo todo_nc todo_nplc in
    finalise_level cts cur n_begin ncs nplcs ps
      (map (fun k => n_begin + Z.of_nat k) (seq j (length todo)))
      (P ++ todo ++ Q ++ replicate r blank_node)
    = if casts_fit (cts + size Q + sum_list todo_nc - 1) todo_nc
      then Done (P ++ fst lay ++ Q ++ snd lay ++ replicate (r - length (snd lay)) blank_node)
      else BadNumericCast.
Proof.
  induction todo as [|n todo IH];
    intros todo_nc todo_nplc P Q r j Hl1 Hl2 Hnc Hd1 Hd2 Hd3 Hj Hcts Hsum Hr Hnb.
  - destruct todo_nc; [|discriminate]. simpl. rewrite Nat.sub_0_r. reflexivity.
  - destruct todo_nc as [|nc todo_nc]; [discriminate|].
    destruct todo_nplc as [|nplc todo_nplc]; [discriminate|].
    simpl in Hl1, Hl2. injection Hl1 as Hl1. injection Hl2 as Hl2.
    apply Forall_cons in Hnc as [Hnc0 Hnc'].
    destruct (drop_head _ _ _ _ Hd1) as [Hnc_at Hd1'].
    destruct (drop_head _ _ _ _ Hd2) as [Hnplc_at Hd2'].
    simpl prefix_sum in Hd3.
    destruct (drop_head _ _ _ _ Hd3) as [Hps_at Hd3'].
    pose proof (size_nonneg Q) as HQ. pose proof (size_nonneg P) as HP.
    pose proof (size_nonneg todo) as HT.
    pose proof (sum_list_nonneg _ Hnc') as Hsum_nonneg.
    assert (Hsum_cons : sum_list (nc :: todo_nc) = nc + sum_list todo_nc) by reflexivity.
    rewrite Hsum_cons in *.
    change (length (n :: todo)) with (S (length todo)).
    simpl seq. simpl map. simpl finalise_level.
    assert (Hsz : size (n :: todo) = 1 + size todo) by (unfold size; simpl length; lia).
    assert (Hidx : n_begin + Z.of_nat j - n_begin = Z.of_nat j) by lia.
    assert (Hcur : at_ (P ++ n :: todo ++ Q ++ replicate r blank_node) (n_begin + Z.of_nat j) = n)
      by (apply at_middle; lia).
    destruct Hnc0 as [-> | ->].
    + (* leaf *)
      rewrite finalise_leaf by (rewrite Hidx; exact Hnc_at).
      simpl obind. rewrite Hcur.
      rewrite (insert_middle P _ n) by (unfold size in Hj; lia).
      simpl layout. cbv zeta. simpl fst. simpl snd.
      specialize (IH todo_nc todo_nplc (P ++ [set_nn_level n cur]) Q r (S j)).
      rewrite <- app_assoc in IH. simpl app in IH.
      rewrite size_app in IH. change (size [set_nn_level n cur]) with 1 in IH.
      rewrite Z.add_0_r in Hd3'.
      rewrite wrap32_small in Hd3' by (unfold u32_max in *; lia).
      cbv zeta in IH. rewrite IH; try assumption; try lia.
      unfold casts_fit. rewrite Hsum_cons, !Z.add_0_l.
      rewrite <- app_assoc. reflexivity.
    + (* internal node *)
      rewrite finalise_internal; [|rewrite Hidx, Hnc_at; lia|lia|
        rewrite Hidx, Hps_at, wrap32_small by (unfold u32_max in *; lia); lia].
      rewrite Hidx, Hcur, Hnplc_at, Hps_at.
      rewrite wrap32_small by (unfold u32_max in *; lia).
      rewrite wrap32_small in Hd3' by (unfold u32_max in *; lia).
      replace (cts + (size Q + 2) - 2) with (cts + size Q) by lia.
      unfold casts_fit at 1. rewrite Hsum_cons.
      replace (2 + sum_list todo_nc =? 0) with false by (symmetry; apply Z.eqb_neq; lia).
      rewrite orb_false_l.
      destruct (cts + size Q + 1 <=? i32_max) eqn:Ecast.
      2:{ apply Z.leb_gt in Ecast. simpl obind.
          replace (cts + size Q + (2 + sum_list todo_nc) - 1 <=? i32_max) with false
            by (symmetry; apply Z.leb_gt; lia).
          reflexivity. }
      apply Z.leb_le in Ecast. simpl obind.
      rewrite (insert_middle P _ n) by (unfold size in Hj; lia).
      destruct r as [|[|r]]; [lia|lia|].
      simpl replicate.
      set (n2 := set_children (set_nn_level n cur) (cts + size Q) (cts + size Q + 1)) in *.
      set (lc := left_child n nplc (n_begin + Z.of_nat j)) in *.
      set (rc := right_child n nplc (n_begin + Z.of_nat j)) in *.
      assert (Hins1 :
        <[Z.to_nat (cts + size Q) := lc]>
          (P ++ n2 :: todo ++ Q ++ blank_node :: blank_node :: replicate r blank_node)
        = (P ++ n2 :: todo ++ Q) ++ lc :: blank_node :: replicate r blank_node).
      { replace (P ++ n2 :: todo ++ Q ++ blank_node :: blank_node :: replicate r blank_node)
          with ((P ++ n2 :: todo ++ Q) ++ blank_node :: blank_node :: replicate r blank_node).
        2:{ rewrite <- app_assoc. simpl. rewrite <- app_assoc. reflexivity. }
        apply insert_middle.
        rewrite length_app. simpl length. rewrite length_app.
        unfold size in *. simpl length in *. lia. }
      rewrite Hins1.
      assert (Hins2 :
        <[Z.to_nat (cts + size Q + 1) := rc]>
          ((P ++ n2 :: todo ++ Q) ++ lc :: blank_node :: replicate r blank_node)
        = ((P ++ n2 :: todo ++ Q) ++ [lc]) ++ rc :: replicate r blank_node).
      { replace ((P ++ n2 :: todo ++ Q) ++ lc :: blank_node :: replicate r blank_node)
          with (((P ++ n2 :: todo ++ Q) ++ [lc]) ++ blank_node :: replicate r blank_node).
        2:{ rewrite <- app_assoc. reflexivity. }
        apply insert_middle.
        rewrite !length_app. simpl length. rewrite length_app.
        unfold size in *. simpl length in *. lia. }
      rewrite Hins2.
      replace (((P ++ n2 :: todo ++ Q) ++ [lc]) ++ rc :: replicate r blank_node)
        with ((P ++ [n2]) ++ todo ++ (Q ++ [lc; rc]) ++ replicate r blank_node).
      2:{ repeat rewrite <- app_assoc. simpl. repeat rewrite <- app_assoc. reflexivity. }
      specialize (IH todo_nc todo_nplc (P ++ [n2]) (Q ++ [lc; rc]) r (S j)).
      rewrite !size_app in IH. change (size [n2]) with 1 in IH.
      change (size [lc; rc]) with 2 in IH.
      simpl layout. cbv zeta. change (2 =? 0) with false. cbv iota. simpl fst. simpl snd.
      replace (cts + size Q + 2) with (cts + (size Q + 2)) by lia.
      cbv zeta in IH. rewrite IH; try assumption; try lia.
      replace (cts + size Q + (2 + sum_list todo_nc) - 1)
        with (cts + (size Q + 2) + sum_list todo_nc - 1) by lia.
      assert (Hfit : casts_fit (cts + (size Q + 2) + sum_list todo_nc - 1) todo_nc
                     = (cts + (size Q + 2) + sum_list todo_nc - 1 <=? i32_max)).
      { unfold casts_fit. destruct (sum_list todo_nc =? 0) eqn:E0; [|reflexivity].
        apply Z.eqb_eq in E0. rewrite E0. simpl. symmetry. apply Z.leb_le. lia. }
      rewrite Hfit.
      destruct (cts + (size Q + 2) + sum_list todo_nc - 1 <=? i32_max); [|reflexivity].
      repeat rewrite <- app_assoc. simpl.
      subst n2 lc rc. rewrite Hj.
      replace (S (S r) - S (S (length (snd (layout cur (size P + 1) (cts + (size Q + 2)) todo todo_nc todo_nplc)))))%nat
        with (r - length (snd (layout cur (size P + 1) (cts + (size Q + 2)) todo todo_nc todo_nplc)))%nat by lia.
      reflexivity.
Qed.

(** ** The backward pass only rewrites bounding boxes *)

Definition same_struct (n n' : bvh_node) : Prop :=
  begin n' = begin n /\ end_ n' = end_ n /\ parent n' = parent n /\
  left n' = left n /\ right n' = right n /\
  nn_level n' = nn_level n /\ split_idx n' = split_idx n.

Lemma same_struct_refl n : same_struct n n.
Proof. repeat split. Qed.

Lemma same_struct_trans a b c : same_struct a b -> same_struct b c -> same_struct a c.
Proof. unfold same_struct. intuition congruence. Qed.

Lemma Forall2_same_struct_refl t : Forall2 same_struct t t.
Proof. induction t; constructor; auto using same_struct_refl. Qed.

Lemma Forall2_same_struct_trans t1 t2 t3 :
  Forall2 same_struct t1 t2 -> Forall2 same_struct t2 t3 -> Forall2 same_struct t1 t3.
Proof.
  intros H. revert t3. induction H as [|a b l1 l2 Hab _ IH]; intros t3 H23.
  - inversion H23. constructor.
  - inversion H23; subst. constructor; [eapply same_struct_trans; eauto|auto].
Qed.

Lemma insert_same_struct t : forall i n',
  (forall n, t !! i = Some n -> same_struct n n') ->
  Forall2 same_struct t (<[i := n']> t).
Proof.
  induction t as [|a t IH]; intros i n' H; [constructor|].
  destruct i as [|i]; simpl.
  - constructor; [apply H; reflexivity|apply Forall2_same_struct_refl].
  - constructor; [apply same_struct_refl|]. apply IH. intros n Hn. apply H. exact Hn.
Qed.

Lemma pull_up_struct tree node_idx : Forall2 same_struct tree (pull_up tree node_idx).
Proof.
  unfold pull_up. destruct (left (at_ tree node_idx) =? -1); [apply Forall2_same_struct_refl|].
  apply insert_same_struct. intros n Hn.
  unfold at_. rewrite (list_lookup_total_correct _ _ _ Hn). repeat split.
Qed.

Lemma fold_pull_up_struct idxs : forall tree,
  Forall2 same_struct tree (fold_left pull_up idxs tree).
Proof.
  induction idxs as [|i idxs IH]; intros tree; simpl; [apply Forall2_same_struct_refl|].
  eapply Forall2_same_struct_trans; [apply pull_up_struct|apply IH].
Qed.

Lemma backward_loop_struct fuel : forall tree n_begin n_end tree',
  backward_loop fuel tree n_begin n_end = Done tree' ->
  Forall2 same_struct tree tree'.
Proof.
  induction fuel as [|fuel IH]; intros tree n_begin n_end tree' H; simpl in H; [discriminate|].
  destruct (n_begin =? 0).
  - inversion H; subst. apply fold_pull_up_struct.
  - apply IH in H. eapply Forall2_same_struct_trans; [apply fold_pull_up_struct|exact H].
Qed.

Lemma backward_pass_struct tree tree' :
  backward_pass tree = Done tree' -> Forall2 same_struct tree tree'.
Proof.
  unfold backward_pass. destruct (_ =? 0).
  - intros H; inversion H; subst. apply Forall2_same_struct_refl.
  - apply backward_loop_struct.
Qed.

(** ** Step 1: classification of a pending node *)

Section BuilderCorrect.
Variable srt_mcodes : list Z.
Variable srt_lbs srt_ubs : list array4.

(** The codes are sorted 64-bit values. *)
Hypothesis codes_sorted :
  forall i j, 0 <= i -> i <= j -> j < size srt_mcodes ->
              at_ srt_mcodes i <= at_ srt_mcodes j.
Hypothesis codes_nonneg :
  forall i, 0 <= i < size srt_mcodes -> 0 <= at_ srt_mcodes i.
Hypothesis codes_u64 :
  forall i, 0 <= i < size srt_mcodes -> at_ srt_mcodes i < 2 ^ 64.

Local Notation "'code' i" := (at_ srt_mcodes i) (at level 10, i at level 9).
Local Notation "'nparts'" := (size srt_mcodes).

(** All codes of [b, e) share their [s] most significant bits. *)
Definition prefix_agree (b e s : Z) : Prop :=
  forall i j, b <= i < e -> b <= j < e -> same_prefix s (code i) (code j).

(** The range [b, e) splits at [p] on bit [s] (counted from the MSB). *)
Definition split_bits (b p e s : Z) : Prop :=
  prefix_agree b e s /\
  (forall i, b <= i < p -> Z.testbit (code i) (63 - s) = false) /\
  (forall i, p <= i < e -> Z.testbit (code i) (63 - s) = true).

Lemma bit_comp_testbit s i :
  0 <= s <= 63 -> bit_comp srt_mcodes s i = negb (Z.testbit (code i) (63 - s)).
Proof. intros Hs. unfold bit_comp, split_mask. apply land_pow2_testbit. lia. Qed.

Lemma find_flip_range b e s : b <= e -> b <= find_flip srt_mcodes b e s <= e.
Proof. intros H. unfold find_flip. apply lower_bound_range. exact H. Qed.

Lemma find_flip_split b e s :
  0 <= b -> b <= e -> e <= nparts -> 0 <= s <= 63 -> prefix_agree b e s ->
  split_bits b (find_flip srt_mcodes b e s) e s.
Proof.
  intros Hb Hbe He Hs Hp. unfold split_bits, find_flip.
  destruct (lower_bound_partition (bit_comp srt_mcodes s) b e Hbe) as [L1 L2].
  - intros i j Hi Hij Hj. rewrite !bit_comp_testbit by lia.
    destruct (Z.testbit (code i) (63 - s)) eqn:Ei; [|reflexivity].
    rewrite (same_prefix_bit_mono s (code i) (code j)); auto.
    + apply codes_sorted; lia.
    + apply Hp; lia.
  - split; [exact Hp|]. split; intros i Hi.
    + specialize (L1 i Hi). rewrite bit_comp_testbit in L1 by lia.
      destruct (Z.testbit (code i) (63 - s)); [discriminate|reflexivity].
    + specialize (L2 i Hi). rewrite bit_comp_testbit in L2 by lia.
      destruct (Z.testbit (code i) (63 - s)); [reflexivity|discriminate].
Qed.

Lemma prefix_agree_bump b e s p :
  0 <= s <= 63 -> split_bits b p e s -> p = b \/ p = e ->
  prefix_agree b e (s + 1).
Proof.
  intros Hs (Hp & H0 & H1) Hor i j Hi Hj.
  apply same_prefix_step; [lia|apply Hp; lia|].
  destruct Hor as [-> | ->].
  - rewrite !H1 by lia. reflexivity.
  - rewrite !H0 by lia. reflexivity.
Qed.

Lemma prefix_agree_sub b e b' e' s :
  b <= b' -> e' <= e -> prefix_agree b e s -> prefix_agree b' e' s.
Proof. intros H1 H2 Hp i j Hi Hj. apply Hp; lia. Qed.

Lemma bump_loop_spec b e :
  0 <= b -> b <= e -> e <= nparts ->
  forall fuel s leaf s' ptr',
    0 <= s <= 63 -> (Z.to_nat (64 - s) <= fuel)%nat ->
    prefix_agree b e s ->
    bump_loop srt_mcodes fuel b e s (find_flip srt_mcodes b e s) = (leaf, s', ptr') ->
    s <= s' <= 63 /\
    (leaf = false -> b < ptr' < e /\ split_bits b ptr' e s').
Proof.
  intros Hb Hbe He. induction fuel as [|fuel IH]; intros s leaf s' ptr' Hs Hfuel Hp Hrun.
  - lia.
  - simpl in Hrun.
    pose proof (find_flip_range b e s Hbe) as Hr.
    pose proof (find_flip_split b e s Hb Hbe He Hs Hp) as Hsp.
    destruct ((find_flip srt_mcodes b e s =? b) || (find_flip srt_mcodes b e s =? e)) eqn:E.
    + destruct (s =? 63) eqn:E63.
      * inversion Hrun; subst. split; [lia|discriminate].
      * apply Z.eqb_neq in E63.
        rewrite wrap32_small in Hrun by (unfold u32_max; lia).
        apply IH in Hrun; [| lia | lia |].
        -- destruct Hrun as [H1 H2]. split; [lia|exact H2].
        -- apply (prefix_agree_bump b e s _ Hs Hsp).
           apply orb_true_iff in E. destruct E as [E|E]; apply Z.eqb_eq in E; auto.
    + apply orb_false_iff in E. destruct E as [E1 E2].
      apply Z.eqb_neq in E1. apply Z.eqb_neq in E2.
      inversion Hrun; subst. split; [lia|]. intros _. split; [lia|exact Hsp].
Qed.

(** A node waiting to be classified, on a level of depth at least [d]. *)
Record pending_ok (d : Z) (n : bvh_node) : Prop := {
  pk_range : 0 <= begin n /\ begin n < end_ n /\ end_ n <= nparts;
  pk_left : left n = -1;
  pk_right : right n = -1;
  pk_split : d <= split_idx n <= 64;
  pk_prefix : prefix_agree (begin n) (end_ n) (split_idx n)
}.

(** What step 1 does to a pending node. *)
Definition same_links (n n' : bvh_node) : Prop :=
  begin n' = begin n /\ end_ n' = end_ n /\ parent n' = parent n /\
  left n' = left n /\ right n' = right n.

Definition classify_post (n n' : bvh_node) (nc nplc : Z) : Prop :=
  same_links n n' /\ nn_level n' = nn_level n /\
  split_idx n <= split_idx n' /\
  ((nc = 0 /\ split_idx n' <= 64) \/
   (nc = 2 /\ 0 < nplc < end_ n - begin n /\ split_idx n' <= 63 /\
    split_bits (begin n) (begin n + nplc) (end_ n) (split_idx n'))).

Hypothesis nparts_u32 : nparts <= u32_max.

Lemma classify_spec d n n' nc nplc :
  0 <= d -> pending_ok d n ->
  classify srt_mcodes srt_lbs srt_ubs n = Done (n', nc, nplc) ->
  classify_post n n' nc nplc.
Proof.
  intros Hd [Hr Hl Hrr Hs Hp] Hc. unfold classify in Hc.
  rewrite wrap32_small in Hc by lia.
  destruct ((1 <? end_ n - begin n) && (split_idx n <=? 63)) eqn:E.
  - apply andb_true_iff in E as [E1 E2]. apply Z.ltb_lt in E1. apply Z.leb_le in E2.
    destruct (bump_loop srt_mcodes (Z.to_nat (64 - split_idx n)) (begin n) (end_ n)
                        (split_idx n) (find_flip srt_mcodes (begin n) (end_ n) (split_idx n)))
      as [[leaf s'] ptr'] eqn:Eb.
    apply bump_loop_spec in Eb; try lia; [|exact Hp].
    destruct Eb as [Hs' Hleaf].
    destruct leaf.
    + destruct (leaf_aabb _ _ _ _ _ _) as [l u]. inversion Hc; subst.
      unfold classify_post, same_links. simpl. repeat split; try lia; left; lia.
    + destruct (Hleaf eq_refl) as [Hptr Hsp].
      apply obind_Done in Hc as (x & Hx & Hc).
      apply numeric_cast_u32_Done in Hx as [-> _].
      inversion Hc; subst.
      unfold classify_post, same_links. simpl. repeat split; try lia. right.
      repeat split; try lia.
      * replace (begin n + (ptr' - begin n)) with ptr' by lia. apply Hsp.
      * replace (begin n + (ptr' - begin n)) with ptr' by lia. apply Hsp.
      * replace (begin n + (ptr' - begin n)) with ptr' by lia. apply Hsp.
  - destruct (leaf_aabb _ _ _ _ _ _) as [l u]. inversion Hc; subst.
    unfold classify_post, same_links. simpl. repeat split; try lia; left; lia.
Qed.

Lemma classify_total d n :
  0 <= d -> pending_ok d n ->
  exists r, classify srt_mcodes srt_lbs srt_ubs n = Done r.
Proof.
  intros Hd [Hr Hl Hrr Hs Hp]. unfold classify.
  rewrite wrap32_small by lia.
  destruct ((1 <? end_ n - begin n) && (split_idx n <=? 63)) eqn:E.
  - apply andb_true_iff in E as [E1 E2]. apply Z.ltb_lt in E1. apply Z.leb_le in E2.
    destruct (bump_loop srt_mcodes (Z.to_nat (64 - split_idx n)) (begin n) (end_ n)
                        (split_idx n) (find_flip srt_mcodes (begin n) (end_ n) (split_idx n)))
      as [[leaf s'] ptr'] eqn:Eb.
    apply bump_loop_spec in Eb; try lia; [|exact Hp].
    destruct Eb as [Hs' Hleaf].
    destruct leaf.
    + destruct (leaf_aabb _ _ _ _ _ _) as [l u]. eauto.
    + destruct (Hleaf eq_refl) as [Hptr Hsp].
      unfold numeric_cast_u32.
      replace (0 <=? ptr' - begin n) with true by (symmetry; apply Z.leb_le; lia).
      replace (ptr' - begin n <=? u32_max) with true by (symmetry; apply Z.leb_le; lia).
      simpl. eauto.
  - destruct (leaf_aabb _ _ _ _ _ _) as [l u]. eauto.
Qed.

(** A node whose [split_idx] exceeds 63 is classified a leaf. *)
Lemma classify_post_deep n n' nc nplc :
  classify_post n n' nc nplc -> 63 < split_idx n -> nc = 0.
Proof. intros (_ & _ & Hs & [[-> _]|(_ & _ & H63 & _)]) H; [reflexivity|lia]. Qed.

Inductive classified : list bvh_node -> list bvh_node -> list Z -> list Z -> Prop :=
| classified_nil : classified [] [] [] []
| classified_cons n n' nc nplc ns ns' ncs nplcs :
    classify_post n n' nc nplc -> classified ns ns' ncs nplcs ->
    classified (n :: ns) (n' :: ns') (nc :: ncs) (nplc :: nplcs).

Lemma classify_level_run d nodes :
  0 <= d -> Forall (pending_ok d) nodes -> size nodes <= u32_max ->
  exists nodes' ncs nplcs n_leaf,
    classify_level srt_mcodes srt_lbs srt_ubs nodes = Done (nodes', ncs, nplcs, n_leaf) /\
    classified nodes nodes' ncs nplcs /\
    0 <= n_leaf /\ 2 * n_leaf + sum_list ncs = 2 * size nodes.
Proof.
  intros Hd. induction nodes as [|n nodes IH]; intros Hall Hsz.
  - exists [], [], [], 0. simpl. split; [reflexivity|]. split; [constructor|].
    unfold size, sum_list; simpl; lia.
  - apply Forall_cons in Hall as [Hn Hall].
    assert (Hsz' : size (n :: nodes) = 1 + size nodes) by (unfold size; simpl length; lia).
    pose proof (size_nonneg nodes).
    destruct (IH Hall ltac:(lia)) as (ns1 & ncs1 & nplcs1 & nl1 & Hrun & Hcl & Hnl & Hsum).
    destruct (classify_total d n Hd Hn) as ([[n1 nc] nplc] & Hc1).
    pose proof (classify_spec d n n1 nc nplc Hd Hn Hc1) as Hpost.
    exists (n1 :: ns1), (nc :: ncs1), (nplc :: nplcs1),
           (if nc =? 0 then wrap32 (1 + nl1) else nl1).
    split; [simpl; rewrite Hc1; simpl; rewrite Hrun; reflexivity|].
    split; [constructor; assumption|].
    assert (Hs0 : 0 <= sum_list ncs1).
    { clear -Hcl. induction Hcl as [|? ? ? ? ? ? ? ? Hp _ IHc]; [unfold sum_list; simpl; lia|].
      unfold sum_list in *. simpl.
      destruct Hp as (_ & _ & _ & [[-> _]|[-> _]]); lia. }
    unfold sum_list in *. simpl fold_right. rewrite Hsz'.
    destruct Hpost as (_ & _ & _ & [[-> _]|[-> _]]); simpl.
    + rewrite wrap32_small by lia. lia.
    + lia.
Qed.

Lemma classified_length ns ns' ncs nplcs :
  classified ns ns' ncs nplcs ->
  length ns' = length ns /\ length ncs = length ns /\ length nplcs = length ns /\
  Forall (fun nc => nc = 0 \/ nc = 2) ncs.
Proof.
  induction 1 as [|? ? ? ? ? ? ? ? Hp _ (H1 & H2 & H3 & H4)]; simpl.
  - repeat split; constructor.
  - repeat split; try congruence. constructor; [|exact H4].
    destruct Hp as (_ & _ & _ & [[-> _]|[-> _]]); auto.
Qed.

(** ** The structural invariant of the level loop *)

(** What C9 of the verifier checks on an internal node [n] at index [i]:
    lines 589-598 (ranges of the children) and 600-609 (split rule). *)
Definition children_ok (tree : list bvh_node) (i : Z) (n : bvh_node) : Prop :=
  i < left n /\ right n = left n + 1 /\ split_idx n <= 63 /\
  exists lc rc,
    tree !! Z.to_nat (left n) = Some lc /\ tree !! Z.to_nat (right n) = Some rc /\
    begin lc = begin n /\ end_ rc = end_ n /\ end_ lc = begin rc /\
    begin n < end_ lc /\ end_ lc < end_ n /\
    first_diff_bit (code (end_ lc - 1)) (code (end_ lc)) = split_idx n.

Definition final_ok (tree : list bvh_node) (i : Z) (n : bvh_node) : Prop :=
  (0 <= begin n /\ begin n < end_ n /\ end_ n <= nparts) /\
  0 <= split_idx n <= 64 /\
  ((left n = -1 /\ right n = -1) \/ children_ok tree i n).

Lemma child_bits_prefix b p e s :
  0 <= s <= 63 -> b <= p <= e -> split_bits b p e s ->
  prefix_agree b p (s + 1) /\ prefix_agree p e (s + 1).
Proof.
  intros Hs Hbpe (Hp & H0 & H1). split; intros i j Hi Hj.
  - apply same_prefix_step; [lia|apply Hp; lia|].
    rewrite !H0 by lia. reflexivity.
  - apply same_prefix_step; [lia|apply Hp; lia|].
    rewrite !H1 by lia. reflexivity.
Qed.

Lemma split_rule b p e s :
  0 <= s <= 63 -> 0 <= b -> b < p -> p < e -> e <= nparts ->
  split_bits b p e s ->
  first_diff_bit (code (p - 1)) (code p) = s.
Proof.
  intros Hs Hb Hbp Hpe He (Hp & H0 & H1).
  apply first_diff_bit_split; try lia.
  - apply codes_nonneg. lia.
  - apply codes_nonneg. lia.
  - apply Hp; lia.
  - apply H0. lia.
  - apply H1. lia.
Qed.

(** The level and the children after step 4, in terms of the level
    before step 1. *)
Definition level_node_ok (d lc_idx : Z) (C : list bvh_node) (n n1 : bvh_node) : Prop :=
  begin n1 = begin n /\ end_ n1 = end_ n /\ d <= split_idx n1 <= 64 /\
  ((left n1 = -1 /\ right n1 = -1) \/
   (exists k : nat,
      left n1 = lc_idx + Z.of_nat k /\ right n1 = left n1 + 1 /\ split_idx n1 <= 63 /\
      exists lc rc,
        C !! k = Some lc /\ C !! S k = Some rc /\
        begin lc = begin n1 /\ end_ rc = end_ n1 /\ end_ lc = begin rc /\
        begin n1 < end_ lc /\ end_ lc < end_ n1 /\
        first_diff_bit (code (end_ lc - 1)) (code (end_ lc)) = split_idx n1)).

Lemma layout_spec d cur ns ns' ncs nplcs :
  0 <= d -> classified ns ns' ncs nplcs -> Forall (pending_ok d) ns ->
  forall node_idx lc_idx,
    let lay := layout cur node_idx lc_idx ns' ncs nplcs in
    length (fst lay) = length ns /\ size (snd lay) = sum_list ncs /\
    Forall (pending_ok (d + 1)) (snd lay) /\
    (forall j n1, fst lay !! j = Some n1 ->
                  exists n, ns !! j = Some n /\ level_node_ok d lc_idx (snd lay) n n1).
Proof.
  intros Hd Hcl. induction Hcl as [|n n' nc nplc ns ns' ncs nplcs Hpost Hcl IH];
    intros Hall node_idx lc_idx.
  - simpl. repeat split; try constructor. intros j n1 H. destruct j; discriminate.
  - apply Forall_cons in Hall as [Hn Hall].
    destruct Hn as [Hr Hl Hrr Hs Hp].
    destruct Hpost as ((Hb & He & Hpar & Hle & Hri) & Hnn & Hss & Hcase).
    simpl layout. destruct Hcase as [[-> Hs64] | (-> & Hnplc & Hs63 & Hsp)].
    + (* leaf *)
      change (0 =? 0) with true. cbv iota zeta.
      destruct (IH Hall (node_idx + 1) lc_idx) as (I1 & I2 & I3 & I4).
      simpl fst. simpl snd. repeat split.
      * simpl. congruence.
      * rewrite I2. unfold sum_list. simpl. lia.
      * exact I3.
      * intros [|j] n1 Hj.
        -- simpl in Hj. inversion Hj; subst n1. exists n. split; [reflexivity|].
           unfold level_node_ok. simpl. repeat split; try lia; left; lia.
        -- simpl in Hj. destruct (I4 j n1 Hj) as (n0 & Hn0 & Hok). exists n0. split; [exact Hn0|exact Hok].
    + (* internal node *)
      change (2 =? 0) with false. cbv iota zeta.
      destruct (IH Hall (node_idx + 1) (lc_idx + 2)) as (I1 & I2 & I3 & I4).
      simpl fst. simpl snd.
      assert (Hw1 : wrap32 (begin n' + nplc) = begin n + nplc)
        by (rewrite Hb; apply wrap32_small; lia).
      assert (Hw2 : wrap32 (split_idx n' + 1) = split_idx n' + 1)
        by (apply wrap32_small; unfold u32_max; lia).
      destruct (child_bits_prefix (begin n) (begin n + nplc) (end_ n) (split_idx n'))
        as [Hpl Hpr]; [lia|lia|exact Hsp|].
      repeat split.
      * simpl. congruence.
      * unfold size in *. simpl length. unfold sum_list in *. simpl. lia.
      * constructor; [|constructor; [|exact I3]].
        -- constructor; unfold left_child; simpl; rewrite ?Hw1, ?Hw2, ?Hb; try lia; try reflexivity.
           exact Hpl.
        -- constructor; unfold right_child; simpl; rewrite ?Hw1, ?Hw2, ?He; try lia; try reflexivity.
           exact Hpr.
      * intros [|j] n1 Hj.
        -- simpl in Hj. inversion Hj; subst n1. exists n. split; [reflexivity|].
           unfold level_node_ok. simpl. repeat split; try lia. right.
           exists 0%nat. repeat split; try lia.
           exists (left_child n' nplc node_idx), (right_child n' nplc node_idx).
           unfold left_child, right_child. simpl. rewrite Hw1, Hb, He.
           repeat split; try lia.
           apply (split_rule (begin n) (begin n + nplc) (end_ n)); try lia. exact Hsp.
        -- simpl in Hj. destruct (I4 j n1 Hj) as (n0 & Hn0 & Hok). exists n0. split; [exact Hn0|].
           destruct Hok as (O1 & O2 & O3 & Ocase). repeat split; try assumption; try lia.
           destruct Ocase as [Oleaf | (k & K1 & K2 & K3 & lc & rc & K4 & K5 & K6)]; [left; exact Oleaf|].
           right. exists (S (S k)). repeat split; try lia.
           exists lc, rc. simpl. repeat split; try assumption; apply K6.
Qed.

Lemma classified_deep d ns ns' ncs nplcs :
  classified ns ns' ncs nplcs -> Forall (pending_ok d) ns -> 63 < d ->
  sum_list ncs = 0.
Proof.
  induction 1 as [|n n' nc nplc ns ns' ncs nplcs Hpost _ IH]; intros Hall Hd.
  - reflexivity.
  - apply Forall_cons in Hall as [Hn Hall].
    unfold sum_list in *. simpl. rewrite (IH Hall Hd).
    rewrite (classify_post_deep _ _ _ _ Hpost); [reflexivity|].
    destruct Hn as [_ _ _ Hs _]. lia.
Qed.

(** The particles of a list of nodes, counted with multiplicity. *)
Definition sum_len (l : list bvh_node) : Z :=
  sum_list (map (fun n => end_ n - begin n) l).

Lemma sum_len_pending d l : Forall (pending_ok d) l -> size l <= sum_len l.
Proof.
  induction 1 as [|n l Hn _ IH]; unfold size, sum_len, sum_list in *; simpl.
  - lia.
  - destruct Hn as [Hr _ _ _ _]. simpl length. lia.
Qed.

Lemma layout_count d cur ns ns' ncs nplcs :
  classified ns ns' ncs nplcs -> Forall (pending_ok d) ns ->
  forall node_idx lc_idx,
    let lay := layout cur node_idx lc_idx ns' ncs nplcs in
    2 * sum_len (snd lay) + 2 * size ns - size (snd lay) <= 2 * sum_len ns /\
    sum_len (snd lay) <= sum_len ns.
Proof.
  intros Hcl. induction Hcl as [|n n' nc nplc ns ns' ncs nplcs Hpost Hcl IH];
    intros Hall node_idx lc_idx.
  - simpl. unfold sum_len, sum_list, size. simpl. lia.
  - apply Forall_cons in Hall as [Hn Hall].
    destruct Hn as [Hr _ _ _ _].
    destruct Hpost as ((Hb & He & _) & _ & _ & Hcase).
    assert (Hsz : size (n :: ns) = 1 + size ns) by (unfold size; simpl length; lia).
    assert (Hsl : sum_len (n :: ns) = end_ n - begin n + sum_len ns) by reflexivity.
    simpl layout. destruct Hcase as [[-> _] | (-> & Hnplc & _)].
    + change (0 =? 0) with true. cbv iota zeta. simpl snd.
      destruct (IH Hall (node_idx + 1) lc_idx) as [I1 I2]. lia.
    + change (2 =? 0) with false. cbv iota zeta. simpl snd.
      destruct (IH Hall (node_idx + 1) (lc_idx + 2)) as [I1 I2].
      set (C := snd (layout cur (node_idx + 1) (lc_idx + 2) ns' ncs nplcs)) in *.
      assert (Hw1 : wrap32 (begin n' + nplc) = begin n + nplc)
        by (rewrite Hb; apply wrap32_small; lia).
      assert (HsC : sum_len (left_child n' nplc node_idx :: right_child n' nplc node_idx :: C)
                    = end_ n - begin n + sum_len C).
      { unfold sum_len, sum_list. simpl. rewrite Hw1, Hb, He. lia. }
      assert (HzC : size (left_child n' nplc node_idx :: right_child n' nplc node_idx :: C)
                    = 2 + size C) by (unfold size; simpl length; lia).
      rewrite HsC, HzC. lia.
Qed.

(** The finalised part of the tree is a sequence of non-empty levels
    whose nodes carry the size of their level in [nn_level]. *)
Definition level_ok (L : list bvh_node) : Prop :=
  L <> [] /\ Forall (fun n => nn_level n = size L) L.

Definition levels_ok (pre : list bvh_node) : Prop :=
  exists ls : list (list bvh_node), pre = concat ls /\ Forall level_ok ls.

Lemma levels_ok_snoc pre L :
  levels_ok pre -> L <> [] -> Forall (fun n => nn_level n = size L) L ->
  levels_ok (pre ++ L).
Proof.
  intros (ls & -> & Hls) Hne Hnn. exists (ls ++ [L]). split.
  - rewrite concat_app. simpl. rewrite app_nil_r. reflexivity.
  - apply Forall_app. split; [exact Hls|]. constructor; [split; assumption|constructor].
Qed.

Lemma layout_nn_level cur : forall nodes ncs nplcs node_idx lc_idx,
  Forall (fun n => nn_level n = cur) (fst (layout cur node_idx lc_idx nodes ncs nplcs)).
Proof.
  induction nodes as [|n nodes IH]; intros ncs nplcs node_idx lc_idx; simpl; [constructor|].
  destruct ncs as [|nc ncs]; [constructor|]. destruct nplcs as [|nplc nplcs]; [constructor|].
  destruct (nc =? 0); simpl; constructor; try reflexivity; apply IH.
Qed.

(** ** The invariant of the level loop *)

Definition inv (d : Z) (tree : list bvh_node) (cur : Z) : Prop :=
  exists pre lvl,
    tree = pre ++ lvl /\ size lvl = cur /\ Forall (pending_ok d) lvl /\
    (forall i n, pre !! i = Some n -> final_ok tree (Z.of_nat i) n) /\
    sum_len lvl <= nparts /\
    size pre + 2 * sum_len lvl - cur <= 2 * nparts - 1 /\
    levels_ok pre /\ 1 <= size tree.

Lemma inv_bounds d tree cur :
  inv d tree cur -> 0 <= cur <= nparts /\ cur <= size tree <= 2 * nparts - 1.
Proof.
  intros (pre & lvl & -> & Hcur & Hpend & _ & Hs & Hphi & _).
  pose proof (sum_len_pending d lvl Hpend).
  pose proof (size_nonneg lvl). pose proof (size_nonneg pre).
  rewrite size_app. lia.
Qed.

Lemma children_ok_kept tree tree' i n :
  (forall l x, tree !! l = Some x ->
               exists x', tree' !! l = Some x' /\ begin x' = begin x /\ end_ x' = end_ x) ->
  children_ok tree i n -> children_ok tree' i n.
Proof.
  intros Hk (H1 & H2 & H3 & lc & rc & Hlc & Hrc & H4).
  destruct (Hk _ _ Hlc) as (lc' & Hlc' & Eb1 & Ee1).
  destruct (Hk _ _ Hrc) as (rc' & Hrc' & Eb2 & Ee2).
  repeat split; try assumption.
  exists lc', rc'. rewrite Eb1, Ee1, Eb2, Ee2. repeat split; try assumption; apply H4.
Qed.

(** The step finalises the level in place and appends its children. *)
Lemma inv_step d pre lvl L C :
  0 <= d ->
  Forall (pending_ok d) lvl ->
  (forall i n, pre !! i = Some n -> final_ok (pre ++ lvl) (Z.of_nat i) n) ->
  sum_len lvl <= nparts ->
  size pre + 2 * sum_len lvl - size lvl <= 2 * nparts - 1 ->
  length L = length lvl ->
  Forall (pending_ok (d + 1)) C ->
  (forall j n1, L !! j = Some n1 ->
                exists n, lvl !! j = Some n /\ level_node_ok d (size (pre ++ lvl)) C n n1) ->
  2 * sum_len C + 2 * size lvl - size C <= 2 * sum_len lvl ->
  sum_len C <= sum_len lvl ->
  levels_ok pre -> 1 <= size (pre ++ lvl) ->
  Forall (fun n => nn_level n = size lvl) L ->
  inv (d + 1) (pre ++ L ++ C) (size C).
Proof.
  intros Hd Hpend Hfinal Hs Hphi HL HCp Hnodes Hcount HsC Hlev Hsz1 Hnn.
  exists (pre ++ L), C. split; [rewrite <- app_assoc; reflexivity|].
  split; [reflexivity|]. split; [exact HCp|].
  assert (Hkept : forall l x, (pre ++ lvl) !! l = Some x ->
            exists x', (pre ++ L ++ C) !! l = Some x' /\ begin x' = begin x /\ end_ x' = end_ x).
  { intros l x Hx. apply lookup_app_Some in Hx as [Hx | [Hge Hx]].
    - exists x. split; [apply lookup_app_l_Some; exact Hx|auto].
    - pose proof (lookup_lt_Some _ _ _ Hx) as Hlt.
      destruct (lookup_lt_is_Some_2 L (l - length pre)) as [n1 Hn1]; [lia|].
      destruct (Hnodes _ _ Hn1) as (n & Hn & Eb & Ee & _).
      rewrite Hx in Hn. inversion Hn; subst n.
      exists n1. split; [|auto].
      rewrite lookup_app_r by lia. apply lookup_app_l_Some. exact Hn1. }
  split; [|split].
  - intros i n Hi. apply lookup_app_Some in Hi as [Hi | [Hge Hi]].
    + destruct (Hfinal i n Hi) as (Hr & Hsp & Hcase).
      split; [exact Hr|]. split; [exact Hsp|].
      destruct Hcase as [Hleaf|Hch]; [left; exact Hleaf|right].
      apply (children_ok_kept (pre ++ lvl)); assumption.
    + destruct (Hnodes _ _ Hi) as (n0 & Hn0 & Eb & Ee & Hsp & Hcase).
      pose proof (lookup_lt_Some _ _ _ Hi) as Hlt.
      assert (Hp0 : pending_ok d n0).
      { eapply Forall_lookup_1; [exact Hpend|exact Hn0]. }
      destruct Hp0 as [Hr _ _ _ _].
      split; [rewrite Eb, Ee; exact Hr|]. split; [lia|].
      destruct Hcase as [Hleaf | (k & K1 & K2 & K3 & lc & rc & K4 & K5 & K6)]; [left; exact Hleaf|right].
      unfold children_ok.
      assert (Hsz : size (pre ++ lvl) = Z.of_nat (length pre + length L))
        by (rewrite size_app; unfold size; lia).
      split; [lia|]. split; [exact K2|]. split; [exact K3|].
      exists lc, rc. rewrite K2, K1, Hsz.
      replace (Z.to_nat (Z.of_nat (length pre + length L) + Z.of_nat k))
        with (length (pre ++ L) + k)%nat by (rewrite length_app; lia).
      replace (Z.to_nat (Z.of_nat (length pre + length L) + Z.of_nat k + 1))
        with (length (pre ++ L) + S k)%nat by (rewrite length_app; lia).
      replace (pre ++ L ++ C) with ((pre ++ L) ++ C) by (rewrite <- app_assoc; reflexivity).
      rewrite !lookup_app_r by lia.
      replace (length (pre ++ L) + k - length (pre ++ L))%nat with k by lia.
      replace (length (pre ++ L) + S k - length (pre ++ L))%nat with (S k) by lia.
      repeat split; try assumption; apply K6.
  - lia.
  - split; [rewrite size_app; unfold size in *; lia|]. split.
    + destruct L as [|n0 L0]; [rewrite app_nil_r; exact Hlev|].
      apply levels_ok_snoc; [exact Hlev|discriminate|].
      replace (size (n0 :: L0)) with (size lvl) by (unfold size; lia). exact Hnn.
    + rewrite !size_app in *. unfold size in *. lia.
Qed.

(** One iteration either completes and re-establishes the invariant one
    level deeper, or throws; it throws only on very large inputs. *)
Lemma level_step_run d tree cur :
  0 <= d -> inv d tree cur ->
  (exists tree' next,
      level_step srt_mcodes srt_lbs srt_ubs tree cur = Done (tree', next) /\
      inv (d + 1) tree' next /\ (63 < d -> next = 0)) \/
  ((level_step srt_mcodes srt_lbs srt_ubs tree cur = OverflowError \/
    level_step srt_mcodes srt_lbs srt_ubs tree cur = BadNumericCast) /\
   1073741824 < nparts).
Proof.
  intros Hd Hinv. pose proof (inv_bounds d tree cur Hinv) as [Hcb Htb].
  destruct Hinv as (pre & lvl & -> & Hcur & Hpend & Hfinal & Hs & Hphi & Hlev & Hsz1).
  unfold level_step.
  assert (Hnb : size (pre ++ lvl) - cur = size pre) by (rewrite size_app; lia).
  rewrite Hnb.
  change (u32_max / 2) with 2147483647.
  destruct (cur >? 2147483647) eqn:Ecur.
  { right. split; [left; reflexivity|]. lia. }
  assert (Hcur_small : cur <= 2147483647) by lia.
  rewrite (drop_app_length' pre lvl) by (unfold size; lia).
  rewrite (take_app_length' pre lvl) by (unfold size; lia).
  destruct (classify_level_run d lvl Hd Hpend ltac:(unfold u32_max; lia))
    as (lvl' & ncs & nplcs & n_leaf & Hrun & Hcl & Hleaf & Hcount).
  rewrite Hrun. simpl obind.
  destruct (classified_length _ _ _ _ Hcl) as (Hlen1 & Hlen2 & Hlen3 & Hnc02).
  pose proof (sum_list_nonneg _ Hnc02) as Hsum0.
  assert (Hnext : wrap32 (wrap32 (cur * 2) - wrap32 (n_leaf * 2)) = sum_list ncs).
  { rewrite (wrap32_small (cur * 2)) by (unfold u32_max; lia).
    rewrite (wrap32_small (n_leaf * 2)) by (unfold u32_max; lia).
    rewrite wrap32_small by (unfold u32_max; lia). lia. }
  rewrite Hnext.
  replace (sum_list ncs >? size_max - size (pre ++ lvl)) with false
    by (symmetry; rewrite Z.gtb_ltb; apply Z.ltb_ge; unfold size_max, u32_max in *; lia).
  unfold index_range.
  replace (Z.to_nat (size (pre ++ lvl) - size pre)) with (length lvl')
    by (rewrite size_app; unfold size; lia).
  rewrite <- app_assoc.
  replace (replicate (Z.to_nat (sum_list ncs)) blank_node)
    with ([] ++ replicate (Z.to_nat (sum_list ncs)) blank_node) by reflexivity.
  rewrite (finalise_level_layout _ _ _ _ _ _ lvl' ncs nplcs pre [] _ 0%nat);
    try assumption; try reflexivity;
    try (rewrite ?size_app; change (size []) with 0; unfold size, u32_max in *; lia).
  change (size []) with 0. rewrite !Z.add_0_r. simpl app.
  destruct (layout_spec d cur lvl lvl' ncs nplcs Hd Hcl Hpend (size pre) (size (pre ++ lvl)))
    as (HL & HC & HCp & Hnodes).
  destruct (layout_count d cur lvl lvl' ncs nplcs Hcl Hpend (size pre) (size (pre ++ lvl)))
    as (Hcnt & HsC).
  cbv zeta in HL, HC, HCp, Hnodes, Hcnt, HsC.
  set (lay := layout cur (size pre) (size (pre ++ lvl)) lvl' ncs nplcs) in *.
  replace (Z.to_nat (sum_list ncs) - length (snd lay))%nat with 0%nat
    by (unfold size in HC; lia).
  simpl replicate. rewrite app_nil_r.
  assert (Hinv' : inv (d + 1) (pre ++ fst lay ++ snd lay) (sum_list ncs)).
  { rewrite <- HC. apply (inv_step d pre lvl); try assumption; try lia.
    rewrite Hcur. apply layout_nn_level. }
  destruct (casts_fit (size (pre ++ lvl) + sum_list ncs - 1) ncs) eqn:Efit.
  - left. exists (pre ++ fst lay ++ snd lay), (sum_list ncs).
    split; [reflexivity|]. split; [exact Hinv'|].
    intros H63. apply (classified_deep d _ _ _ _ Hcl Hpend H63).
  - right. split; [right; reflexivity|].
    unfold casts_fit in Efit. apply orb_false_iff in Efit as [_ Efit].
    apply Z.leb_gt in Efit. unfold i32_max in Efit.
    pose proof (inv_bounds _ _ _ Hinv') as [_ Hb'].
    rewrite !size_app in Hb'. rewrite size_app in Efit.
    unfold size in *. lia.
Qed.

(** ** The level loop *)

Lemma build_levels_run fuel :
  forall d tree cur n_levels,
    0 <= d -> 0 <= n_levels <= d -> inv d tree cur ->
    (Z.to_nat (65 - d) <= fuel)%nat ->
    (exists tree' k,
        build_levels srt_mcodes srt_lbs srt_ubs fuel tree cur n_levels
        = Done (tree', n_levels + k) /\
        0 <= k <= Z.max 0 (65 - d) /\ exists d', inv d' tree' 0) \/
    ((build_levels srt_mcodes srt_lbs srt_ubs fuel tree cur n_levels = OverflowError \/
      build_levels srt_mcodes srt_lbs srt_ubs fuel tree cur n_levels = BadNumericCast) /\
     1073741824 < nparts).
Proof.
  induction fuel as [|fuel IH]; intros d tree cur n_levels Hd Hn Hinv Hfuel.
  - (* no budget left: the level is at depth 65, hence empty *)
    assert (Hc0 : cur = 0).
    { destruct Hinv as (pre & lvl & _ & Hcur & Hpend & _).
      destruct lvl as [|n lvl]; [exact (eq_sym Hcur)|].
      apply Forall_cons in Hpend as [[_ _ _ Hs _] _]. lia. }
    subst cur. left. exists tree, 0. simpl. rewrite Z.add_0_r.
    split; [reflexivity|]. split; [lia|]. exists d. exact Hinv.
  - simpl. destruct (cur =? 0) eqn:E0.
    + apply Z.eqb_eq in E0. subst cur. left. exists tree, 0. rewrite Z.add_0_r.
      split; [reflexivity|]. split; [lia|]. exists d; exact Hinv.
    + apply Z.eqb_neq in E0.
      destruct (level_step_run d tree cur Hd Hinv)
        as [(tree' & next & Hstep & Hinv' & Hdeep) | [[Hstep|Hstep] Hbig]].
      * rewrite Hstep. simpl obind.
        assert (Hd64 : d <= 64).
        { destruct Hinv as (pre & lvl & _ & Hcur & Hpend & _).
          destruct lvl as [|n lvl]; [unfold size in Hcur; simpl in Hcur; lia|].
          apply Forall_cons in Hpend as [[_ _ _ Hs _] _]. lia. }
        rewrite wrap32_small by (unfold u32_max; lia).
        destruct (IH (d + 1) tree' next (n_levels + 1) ltac:(lia) ltac:(lia) Hinv' ltac:(lia))
          as [(t2 & k & Hrun & Hk & Hfin) | [Hex Hbig]].
        -- left. exists t2, (k + 1).
           replace (n_levels + (k + 1)) with (n_levels + 1 + k) by lia.
           split; [exact Hrun|]. split; [lia|exact Hfin].
        -- right. split; assumption.
      * right. rewrite Hstep. simpl. split; [left; reflexivity|exact Hbig].
      * right. rewrite Hstep. simpl. split; [right; reflexivity|exact Hbig].
Qed.

Lemma build_levels_inv fuel :
  forall d tree cur n_levels t n_levels',
    0 <= d -> inv d tree cur ->
    build_levels srt_mcodes srt_lbs srt_ubs fuel tree cur n_levels = Done (t, n_levels') ->
    exists d', inv d' t 0.
Proof.
  induction fuel as [|fuel IH]; intros d tree cur nl t nl' Hd Hinv Hrun; simpl in Hrun.
  - destruct (cur =? 0) eqn:E0; [|discriminate].
    apply Z.eqb_eq in E0. subst cur. inversion Hrun; subst. exists d. exact Hinv.
  - destruct (cur =? 0) eqn:E0.
    + apply Z.eqb_eq in E0. subst cur. inversion Hrun; subst. exists d. exact Hinv.
    + apply obind_Done in Hrun as ([tree1 next1] & Hstep & Hrun). simpl in Hrun.
      destruct (level_step_run d tree cur Hd Hinv)
        as [(tree' & next & Hstep' & Hinv' & _) | [[Hex|Hex] _]]; try congruence.
      rewrite Hstep in Hstep'. inversion Hstep'; subst tree' next.
      apply (IH (d + 1) tree1 next1 (wrap32 (nl + 1)) t nl'); [lia|exact Hinv'|exact Hrun].
Qed.

Lemma inv_root :
  1 <= nparts ->
  inv 0 [mk_bvh_node 0 nparts (-1) (-1) (-1) default_lb default_ub 0 0] 1.
Proof.
  intros HP. exists [], [mk_bvh_node 0 nparts (-1) (-1) (-1) default_lb default_ub 0 0].
  split; [reflexivity|]. split; [reflexivity|]. split; [|split; [|split]].
  - constructor; [|constructor]. constructor; simpl; try lia; try reflexivity.
    intros i j Hi Hj. unfold same_prefix. rewrite Z.sub_0_r.
    rewrite !Z.shiftr_div_pow2 by lia.
    rewrite !Z.div_small; [reflexivity| |]; split;
      try (apply codes_nonneg; lia); apply codes_u64; lia.
  - intros i n H. destruct i; discriminate.
  - unfold sum_len, sum_list. simpl. lia.
  - split; [unfold sum_len, sum_list, size; simpl; lia|]. split.
    + exists []. split; [reflexivity|constructor].
    + unfold size. simpl. lia.
Qed.

Lemma final_ok_struct t t' i n n' :
  Forall2 same_struct t t' -> t !! i = Some n -> t' !! i = Some n' ->
  final_ok t (Z.of_nat i) n -> final_ok t' (Z.of_nat i) n'.
Proof.
  intros Hst Hn Hn' (Hr & Hs & Hcase).
  assert (Hnn : same_struct n n').
  { eapply Forall2_lookup_lr; eauto. }
  destruct Hnn as (Eb & Ee & _ & El & Er & _ & Es).
  unfold final_ok. rewrite Eb, Ee, Es, El, Er.
  split; [exact Hr|]. split; [exact Hs|].
  destruct Hcase as [Hleaf|Hch]; [left; exact Hleaf|right].
  destruct Hch as (H1 & H2 & H3 & lc & rc & Hlc & Hrc & H4).
  destruct (Forall2_lookup_l _ _ _ _ _ Hst Hlc) as (lc' & Hlc' & (Eb1 & Ee1 & _)).
  destruct (Forall2_lookup_l _ _ _ _ _ Hst Hrc) as (rc' & Hrc' & (Eb2 & Ee2 & _)).
  unfold children_ok. rewrite El, Er, Es.
  repeat split; try assumption.
  exists lc', rc'. rewrite Eb1, Ee1, Eb2, Ee2, ?Eb, ?Ee.
  repeat split; try assumption; apply H4.
Qed.

(** Every node of a completed tree satisfies [final_ok]. *)
Lemma construct_final_ok fuel tree :
  1 <= nparts ->
  construct_bvh_tree srt_mcodes srt_lbs srt_ubs fuel nparts = Done tree ->
  forall i n, tree !! i = Some n -> final_ok tree (Z.of_nat i) n.
Proof.
  intros HP Hrun i n Hn. unfold construct_bvh_tree in Hrun.
  apply obind_Done in Hrun as (e & He & Hrun).
  apply numeric_cast_u32_Done in He as [-> _].
  apply obind_Done in Hrun as ([t1 nl] & Hlv & Hbw). simpl fst in Hbw.
  assert (Hinv : exists d, inv d t1 0).
  { eapply (build_levels_inv fuel 0); [lia|exact (inv_root HP)|exact Hlv]. }
  destruct Hinv as (d & pre & lvl & -> & Hcur & _ & Hfinal & _).
  destruct lvl; [|unfold size in Hcur; simpl in Hcur; lia].
  rewrite app_nil_r in *.
  pose proof (backward_pass_struct _ _ Hbw) as Hst.
  destruct (Forall2_lookup_r _ _ _ _ _ Hst Hn) as (n0 & Hn0 & _).
  eapply final_ok_struct; eauto.
Qed.

(** ** The backward pass returns *)

Lemma levels_count ls : Forall level_ok ls -> (length ls <= length (concat ls))%nat.
Proof.
  induction 1 as [|L ls [Hne _] _ IH]; simpl; [lia|].
  rewrite length_app. destruct L; [contradiction|]. simpl. lia.
Qed.

Lemma size_concat_snoc (ls : list (list bvh_node)) L :
  size (concat (ls ++ [L])) = size (concat ls) + size L.
Proof. rewrite concat_app. simpl. rewrite app_nil_r. apply size_app. Qed.

(** The last node of the level that ends at [n_begin] tells its size. *)
Lemma last_of_level ls L rest t :
  level_ok L -> Forall2 same_struct (concat (ls ++ [L]) ++ rest) t ->
  nn_level (at_ t (size (concat (ls ++ [L])) - 1)) = size L.
Proof.
  intros [Hne Hnn] Hst.
  destruct (exists_last Hne) as (l0 & x & ->).
  assert (Hx : (concat (ls ++ [l0 ++ [x]]) ++ rest)
               !! Z.to_nat (size (concat (ls ++ [l0 ++ [x]])) - 1) = Some x).
  { rewrite concat_app. simpl. rewrite app_nil_r.
    replace ((concat ls ++ l0 ++ [x]) ++ rest) with ((concat ls ++ l0) ++ x :: rest)
      by (repeat rewrite <- app_assoc; reflexivity).
    apply list_lookup_middle. unfold size. rewrite !length_app. simpl. lia. }
  destruct (Forall2_lookup_l _ _ _ _ _ Hst Hx) as (y & Hy & (_ & _ & _ & _ & _ & Hn & _)).
  unfold at_. rewrite (list_lookup_total_correct _ _ _ Hy), Hn.
  rewrite List.Forall_forall in Hnn. apply Hnn. apply in_or_app. right. left. reflexivity.
Qed.

Lemma backward_loop_total : forall ls L rest t fuel,
  Forall level_ok (ls ++ [L]) ->
  Forall2 same_struct (concat (ls ++ [L]) ++ rest) t ->
  (length ls < fuel)%nat ->
  exists t', backward_loop fuel t (size (concat ls)) (size (concat ls) + size L) = Done t'.
Proof.
  induction ls as [|L' ls IH] using rev_ind; intros L rest t fuel Hok Hst Hfuel.
  - destruct fuel as [|fuel]; [lia|]. simpl. eauto.
  - destruct fuel as [|fuel]; [rewrite length_app in Hfuel; simpl in Hfuel; lia|].
    simpl backward_loop.
    apply Forall_app in Hok as [Hok _].
    pose proof Hok as Hok'. apply Forall_app in Hok' as [_ HL'].
    apply Forall_cons in HL' as [HL' _].
    set (t1 := fold_left pull_up _ t).
    assert (Hst1 : Forall2 same_struct (concat ((ls ++ [L']) ++ [L]) ++ rest) t1).
    { eapply Forall2_same_struct_trans; [exact Hst|apply fold_pull_up_struct]. }
    assert (Hpos : 0 < size L').
    { destruct HL' as [Hne _]. destruct L'; [contradiction|]. unfold size. simpl. lia. }
    pose proof (size_nonneg (concat ls)).
    rewrite size_concat_snoc.
    replace (size (concat ls) + size L' =? 0) with false by (symmetry; apply Z.eqb_neq; lia).
    assert (Hnn : nn_level (at_ t1 (size (concat ls) + size L' - 1)) = size L').
    { rewrite <- size_concat_snoc.
      apply (last_of_level ls L' (L ++ rest)); [exact HL'|].
      replace (concat (ls ++ [L']) ++ L ++ rest)
        with (concat ((ls ++ [L']) ++ [L]) ++ rest); [exact Hst1|].
      rewrite (concat_app (ls ++ [L'])). simpl. rewrite app_nil_r, <- app_assoc. reflexivity. }
    rewrite Hnn.
    replace (size (concat ls) + size L' - size L') with (size (concat ls)) by lia.
    apply (IH L' (L ++ rest) t1 fuel); [exact Hok| |rewrite length_app in Hfuel; simpl in Hfuel; lia].
    replace (concat (ls ++ [L']) ++ L ++ rest)
      with (concat ((ls ++ [L']) ++ [L]) ++ rest); [exact Hst1|].
    rewrite (concat_app (ls ++ [L'])). simpl. rewrite app_nil_r, <- app_assoc. reflexivity.
Qed.

Lemma backward_pass_total t :
  levels_ok t -> t <> [] -> exists t', backward_pass t = Done t'.
Proof.
  intros (ls & -> & Hls) Hne. unfold backward_pass.
  assert (Hls_ne : ls <> []) by (intros ->; contradiction).
  destruct (exists_last Hls_ne) as (ls0 & Lk & ->).
  pose proof Hls as Hls'. apply Forall_app in Hls' as [Hls0 HLk].
  apply Forall_cons in HLk as [HLk _].
  pose proof (Forall2_same_struct_refl (concat (ls0 ++ [Lk]))) as Hrefl.
  assert (Hlast : nn_level (at_ (concat (ls0 ++ [Lk])) (size (concat (ls0 ++ [Lk])) - 1)) = size Lk).
  { apply (last_of_level ls0 Lk []); [exact HLk|]. rewrite app_nil_r. exact Hrefl. }
  rewrite Hlast, size_concat_snoc.
  replace (size (concat ls0) + size Lk - size Lk) with (size (concat ls0)) by lia.
  destruct (size (concat ls0) =? 0) eqn:E0; [eauto|].
  apply Z.eqb_neq in E0.
  assert (Hls0_ne : ls0 <> []) by (intros ->; apply E0; reflexivity).
  destruct (exists_last Hls0_ne) as (ls1 & L' & ->).
  pose proof Hls0 as Hls0'. apply Forall_app in Hls0' as [_ HL'].
  apply Forall_cons in HL' as [HL' _].
  assert (Hprev : nn_level (at_ (concat ((ls1 ++ [L']) ++ [Lk])) (size (concat (ls1 ++ [L'])) - 1))
                  = size L').
  { apply (last_of_level ls1 L' Lk); [exact HL'|].
    replace (concat (ls1 ++ [L']) ++ Lk) with (concat ((ls1 ++ [L']) ++ [Lk])); [exact Hrefl|].
    rewrite (concat_app (ls1 ++ [L'])). simpl. rewrite app_nil_r. reflexivity. }
  rewrite Hprev, size_concat_snoc.
  replace (size (concat ls1) + size L' - size L') with (size (concat ls1)) by lia.
  apply (backward_loop_total ls1 L' Lk); [exact Hls0| |].
  - replace (concat (ls1 ++ [L']) ++ Lk) with (concat ((ls1 ++ [L']) ++ [Lk])); [exact Hrefl|].
    rewrite (concat_app (ls1 ++ [L'])). simpl. rewrite app_nil_r. reflexivity.
  - pose proof (levels_count _ Hls) as Hc. rewrite !length_app in Hc. simpl in Hc. lia.
Qed.

(** For at most [2^30] particles the builder returns a tree. *)
Lemma construct_returns fuel :
  1 <= nparts <= 1073741824 -> (65 <= fuel)%nat ->
  exists tree, construct_bvh_tree srt_mcodes srt_lbs srt_ubs fuel nparts = Done tree.
Proof.
  intros HP Hfuel. unfold construct_bvh_tree.
  unfold numeric_cast_u32.
  replace (0 <=? nparts) with true by (symmetry; apply Z.leb_le; lia).
  replace (nparts <=? u32_max) with true by (symmetry; apply Z.leb_le; exact nparts_u32).
  simpl obind.
  destruct (build_levels_run fuel 0 _ 1 0 ltac:(lia) ltac:(lia) (inv_root ltac:(lia)) ltac:(lia))
    as [(t & k & Hrun & _ & d' & Hinv) | [_ Hbig]]; [|lia].
  rewrite Hrun. simpl obind. simpl fst.
  destruct Hinv as (pre & lvl & -> & Hcur & _ & _ & _ & _ & Hlev & Hsz).
  destruct lvl; [|unfold size in Hcur; simpl in Hcur; lia].
  rewrite app_nil_r in *.
  apply backward_pass_total; [exact Hlev|].
  intros ->. unfold size in Hsz. simpl in Hsz. lia.
Qed.

(** ** What step 1 leaves in a leaf, and where step 4 puts the children *)

(** When the bit search runs out of bits, the codes of the range are
    all equal. *)
Lemma bump_loop_leaf b e :
  0 <= b -> b <= e -> e <= nparts ->
  forall fuel s s' ptr',
    0 <= s <= 63 -> (Z.to_nat (64 - s) <= fuel)%nat ->
    prefix_agree b e s ->
    bump_loop srt_mcodes fuel b e s (find_flip srt_mcodes b e s) = (true, s', ptr') ->
    prefix_agree b e 64.
Proof.
  intros Hb Hbe He. induction fuel as [|fuel IH]; intros s s' ptr' Hs Hfuel Hp Hrun.
  - lia.
  - simpl in Hrun.
    pose proof (find_flip_split b e s Hb Hbe He Hs Hp) as Hsp.
    destruct ((find_flip srt_mcodes b e s =? b) || (find_flip srt_mcodes b e s =? e)) eqn:E.
    + assert (Hnext : prefix_agree b e (s + 1)).
      { apply (prefix_agree_bump b e s _ Hs Hsp).
        apply orb_true_iff in E. destruct E as [E|E]; apply Z.eqb_eq in E; auto. }
      destruct (s =? 63) eqn:E63.
      * apply Z.eqb_eq in E63. subst s. exact Hnext.
      * apply Z.eqb_neq in E63.
        rewrite wrap32_small in Hrun by (unfold u32_max; lia).
        apply IH in Hrun; [exact Hrun| lia | lia | exact Hnext].
    + discriminate.
Qed.

(** Step 1 on a pending node: a leaf gets the box of its particles and
    holds equal codes; an internal node keeps its box. *)
Lemma classify_box d n n' nc nplc :
  0 <= d -> pending_ok d n ->
  classify srt_mcodes srt_lbs srt_ubs n = Done (n', nc, nplc) ->
  (nc = 0 /\ prefix_agree (begin n) (end_ n) 64 /\
   (lb n', ub n') = leaf_aabb srt_lbs srt_ubs (begin n) (end_ n) (lb n) (ub n)) \/
  (nc = 2 /\ lb n' = lb n /\ ub n' = ub n).
Proof.
  intros Hd [Hr Hl Hrr Hs Hp] Hc. unfold classify in Hc.
  rewrite wrap32_small in Hc by lia.
  destruct ((1 <? end_ n - begin n) && (split_idx n <=? 63)) eqn:E.
  - apply andb_true_iff in E as [E1 E2]. apply Z.ltb_lt in E1. apply Z.leb_le in E2.
    destruct (bump_loop srt_mcodes (Z.to_nat (64 - split_idx n)) (begin n) (end_ n)
                        (split_idx n) (find_flip srt_mcodes (begin n) (end_ n) (split_idx n)))
      as [[leaf s'] ptr'] eqn:Eb.
    destruct leaf.
    + apply bump_loop_leaf in Eb; try lia; [|exact Hp].
      change (lb (set_split_idx n s')) with (lb n) in Hc.
      change (ub (set_split_idx n s')) with (ub n) in Hc.
      destruct (leaf_aabb srt_lbs srt_ubs (begin n) (end_ n) (lb n) (ub n)) as [l u].
      inversion Hc; subst. left. split; [reflexivity|]. split; [exact Eb|reflexivity].
    + apply obind_Done in Hc as (x & Hx & Hc). inversion Hc; subst.
      right. repeat split.
  - change (lb (set_split_idx n (split_idx n))) with (lb n) in Hc.
    change (ub (set_split_idx n (split_idx n))) with (ub n) in Hc.
    destruct (leaf_aabb srt_lbs srt_ubs (begin n) (end_ n) (lb n) (ub n)) as [l u].
    inversion Hc; subst. left. split; [reflexivity|]. split; [|reflexivity].
    apply andb_false_iff in E as [E|E].
    + apply Z.ltb_ge in E. intros i j Hi Hj.
      replace j with i by lia. apply same_prefix_refl.
    + apply Z.leb_gt in E. replace 64 with (split_idx n) by lia. exact Hp.
Qed.

Lemma classify_level_lookup nodes : forall nodes' ncs nplcs nl,
  classify_level srt_mcodes srt_lbs srt_ubs nodes = Done (nodes', ncs, nplcs, nl) ->
  forall j n', nodes' !! j = Some n' ->
    exists n nc nplc,
      nodes !! j = Some n /\ ncs !! j = Some nc /\ nplcs !! j = Some nplc /\
      classify srt_mcodes srt_lbs srt_ubs n = Done (n', nc, nplc).
Proof.
  induction nodes as [|n nodes IH]; intros nodes' ncs nplcs nl H j n' Hj; simpl in H.
  - inversion H; subst. destruct j; discriminate.
  - apply obind_Done in H as ([[n1 nc] nplc] & Hc & H).
    apply obind_Done in H as ([[[ns1 ncs1] nplcs1] nl1] & Hr & H).
    inversion H; subst. destruct j as [|j]; simpl in Hj.
    + inversion Hj; subst. exists n, nc, nplc. repeat split; try reflexivity. exact Hc.
    + destruct (IH _ _ _ _ Hr j n' Hj) as (n0 & nc0 & nplc0 & H1 & H2 & H3 & H4).
      exists n0, nc0, nplc0. auto.
Qed.

(** The node at position [j] of the level after step 4, and its
    children among the new nodes. *)
Lemma layout_lookup cur : forall nodes ncs nplcs node_idx lc_idx j n1,
  fst (layout cur node_idx lc_idx nodes ncs nplcs) !! j = Some n1 ->
  exists n' nc nplc,
    nodes !! j = Some n' /\ ncs !! j = Some nc /\ nplcs !! j = Some nplc /\
    ((nc = 0 /\ n1 = set_nn_level n' cur) \/
     (nc <> 0 /\ exists k : nat,
        n1 = set_children (set_nn_level n' cur) (lc_idx + Z.of_nat k) (lc_idx + Z.of_nat k + 1) /\
        snd (layout cur node_idx lc_idx nodes ncs nplcs) !! k
        = Some (left_child n' nplc (node_idx + Z.of_nat j)) /\
        snd (layout cur node_idx lc_idx nodes ncs nplcs) !! S k
        = Some (right_child n' nplc (node_idx + Z.of_nat j)))).
Proof.
  induction nodes as [|n nodes IH]; intros ncs nplcs node_idx lc_idx j n1 Hj.
  - destruct j; discriminate.
  - destruct ncs as [|nc ncs]; [destruct j; discriminate|].
    destruct nplcs as [|nplc nplcs]; [destruct j; discriminate|].
    simpl layout in *. destruct (nc =? 0) eqn:E; cbv zeta in *; simpl fst in *; simpl snd in *.
    + apply Z.eqb_eq in E. destruct j as [|j]; simpl in Hj.
      * inversion Hj; subst n1. exists n, nc, nplc. repeat split. left. auto.
      * destruct (IH _ _ _ _ _ _ Hj) as (n' & nc' & nplc' & H1 & H2 & H3 & H4).
        exists n', nc', nplc'. repeat split; try assumption.
        destruct H4 as [H4|(Hnc & k & K1 & K2 & K3)]; [left; exact H4|right].
        split; [exact Hnc|]. exists k.
        replace (node_idx + Z.of_nat (S j)) with (node_idx + 1 + Z.of_nat j) by lia. auto.
    + apply Z.eqb_neq in E. destruct j as [|j]; simpl in Hj.
      * inversion Hj; subst n1. exists n, nc, nplc. repeat split. right.
        split; [exact E|]. exists 0%nat. simpl. rewrite !Z.add_0_r. auto.
      * destruct (IH _ _ _ _ _ _ Hj) as (n' & nc' & nplc' & H1 & H2 & H3 & H4).
        exists n', nc', nplc'. repeat split; try assumption.
        destruct H4 as [H4|(Hnc & k & K1 & K2 & K3)]; [left; exact H4|right].
        split; [exact Hnc|]. exists (S (S k)).
        replace (node_idx + Z.of_nat (S j)) with (node_idx + 1 + Z.of_nat j) by lia.
        replace (lc_idx + Z.of_nat (S (S k))) with (lc_idx + 2 + Z.of_nat k) by lia.
        simpl. auto.
Qed.

(** Every new node is the left or the right child of a node of the
    level. *)
Lemma layout_child_lookup cur : forall nodes ncs nplcs node_idx lc_idx m c,
  snd (layout cur node_idx lc_idx nodes ncs nplcs) !! m = Some c ->
  exists (j : nat) n' nplc l,
    nodes !! j = Some n' /\ nplcs !! j = Some nplc /\
    (exists nc, ncs !! j = Some nc /\ nc <> 0) /\
    fst (layout cur node_idx lc_idx nodes ncs nplcs) !! j
    = Some (set_children (set_nn_level n' cur) l (l + 1)) /\
    ((c = left_child n' nplc (node_idx + Z.of_nat j) /\ l = lc_idx + Z.of_nat m) \/
     (c = right_child n' nplc (node_idx + Z.of_nat j) /\ l + 1 = lc_idx + Z.of_nat m)).
Proof.
  induction nodes as [|n nodes IH]; intros ncs nplcs node_idx lc_idx m c Hm.
  - destruct m; discriminate.
  - destruct ncs as [|nc ncs]; [destruct m; discriminate|].
    destruct nplcs as [|nplc nplcs]; [destruct m; discriminate|].
    simpl layout in *. destruct (nc =? 0) eqn:E; cbv zeta in *; simpl fst in *; simpl snd in *.
    + destruct (IH _ _ _ _ _ _ Hm) as (j & n' & nplc' & l & H1 & H2 & H0 & H3 & H4).
      exists (S j), n', nplc', l.
      replace (node_idx + Z.of_nat (S j)) with (node_idx + 1 + Z.of_nat j) by lia.
      repeat split; assumption.
    + apply Z.eqb_neq in E. destruct m as [|[|m]]; simpl in Hm.
      * inversion Hm; subst c. exists 0%nat, n, nplc, lc_idx.
        rewrite !Z.add_0_r. split; [reflexivity|]. split; [reflexivity|].
        split; [exists nc; split; [reflexivity|exact E]|]. split; [reflexivity|]. left. auto.
      * inversion Hm; subst c. exists 0%nat, n, nplc, lc_idx.
        rewrite !Z.add_0_r. split; [reflexivity|]. split; [reflexivity|].
        split; [exists nc; split; [reflexivity|exact E]|]. split; [reflexivity|].
        right. split; [reflexivity|lia].
      * destruct (IH _ _ _ _ _ _ Hm) as (j & n' & nplc' & l & H1 & H2 & H0 & H3 & H4).
        exists (S j), n', nplc', l.
        replace (node_idx + Z.of_nat (S j)) with (node_idx + 1 + Z.of_nat j) by lia.
        repeat split; try assumption.
        destruct H4 as [[H4 H5]|[H4 H5]]; [left|right]; split; try assumption; lia.
Qed.

(** One iteration that completes, written out: the classified level,
    then the level and its children as [layout] places them. The casts
    of step 4 succeeded, so the last new slot fits in an [int32_t]. *)
Lemma level_step_shape d pre lvl tree' next :
  0 <= d -> Forall (pending_ok d) lvl ->
  level_step srt_mcodes srt_lbs srt_ubs (pre ++ lvl) (size lvl) = Done (tree', next) ->
  exists lvl' ncs nplcs n_leaf,
    classify_level srt_mcodes srt_lbs srt_ubs lvl = Done (lvl', ncs, nplcs, n_leaf) /\
    let lay := layout (size lvl) (size pre) (size (pre ++ lvl)) lvl' ncs nplcs in
    tree' = pre ++ fst lay ++ snd lay /\ next = size (snd lay) /\
    length (fst lay) = length lvl /\
    (snd lay <> [] -> size (pre ++ lvl) + size (snd lay) - 1 <= i32_max).
Proof.
  intros Hd Hpend Hstep. unfold level_step in Hstep.
  assert (Hnb : size (pre ++ lvl) - size lvl = size pre) by (rewrite size_app; lia).
  rewrite Hnb in Hstep.
  change (u32_max / 2) with 2147483647 in Hstep.
  destruct (size lvl >? 2147483647) eqn:Ecur; [discriminate|].
  assert (Hcur_small : size lvl <= 2147483647) by lia.
  rewrite (drop_app_length' pre lvl) in Hstep by (unfold size; lia).
  rewrite (take_app_length' pre lvl) in Hstep by (unfold size; lia).
  destruct (classify_level_run d lvl Hd Hpend ltac:(unfold u32_max; lia))
    as (lvl' & ncs & nplcs & n_leaf & Hrun & Hcl & Hleaf & Hcount).
  rewrite Hrun in Hstep. simpl obind in Hstep.
  destruct (classified_length _ _ _ _ Hcl) as (Hlen1 & Hlen2 & Hlen3 & Hnc02).
  pose proof (sum_list_nonneg _ Hnc02) as Hsum0.
  pose proof (size_nonneg lvl) as Hl0. pose proof (size_nonneg pre) as Hp0.
  assert (Hnext : wrap32 (wrap32 (size lvl * 2) - wrap32 (n_leaf * 2)) = sum_list ncs).
  { rewrite (wrap32_small (size lvl * 2)) by (unfold u32_max; lia).
    rewrite (wrap32_small (n_leaf * 2)) by (unfold u32_max; lia).
    rewrite wrap32_small by (unfold u32_max; lia). lia. }
  rewrite Hnext in Hstep.
  destruct (sum_list ncs >? size_max - size (pre ++ lvl)) eqn:Eov; [discriminate|].
  unfold index_range in Hstep.
  replace (Z.to_nat (size (pre ++ lvl) - size pre)) with (length lvl') in Hstep
    by (rewrite size_app; unfold size; lia).
  rewrite <- app_assoc in Hstep.
  replace (replicate (Z.to_nat (sum_list ncs)) blank_node)
    with ([] ++ replicate (Z.to_nat (sum_list ncs)) blank_node) in Hstep by reflexivity.
  rewrite (finalise_level_layout _ _ _ _ _ _ lvl' ncs nplcs pre [] _ 0%nat) in Hstep;
    try assumption; try reflexivity;
    try (rewrite ?size_app; change (size (@nil bvh_node)) with 0; unfold size, u32_max in *; lia).
  change (size (@nil bvh_node)) with 0 in Hstep. rewrite !Z.add_0_r in Hstep. simpl app in Hstep.
  destruct (layout_spec d (size lvl) lvl lvl' ncs nplcs Hd Hcl Hpend (size pre) (size (pre ++ lvl)))
    as (HL & HC & _ & _).
  cbv zeta in HL, HC.
  exists lvl', ncs, nplcs, n_leaf. split; [exact Hrun|]. cbv zeta.
  set (lay := layout (size lvl) (size pre) (size (pre ++ lvl)) lvl' ncs nplcs) in *.
  replace (Z.to_nat (sum_list ncs) - length (snd lay))%nat with 0%nat in Hstep
    by (unfold size in HC; lia).
  simpl replicate in Hstep. rewrite app_nil_r in Hstep.
  destruct (casts_fit (size (pre ++ lvl) + sum_list ncs - 1) ncs) eqn:Efit; [|discriminate].
  simpl obind in Hstep. inversion Hstep; subst tree' next.
  split; [reflexivity|]. split; [symmetry; exact HC|]. split; [exact HL|].
  intros Hne. unfold casts_fit in Efit. apply orb_true_iff in Efit as [E0|E1].
  - apply Z.eqb_eq in E0. rewrite E0 in HC.
    destruct (snd lay); [contradiction|unfold size in HC; simpl in HC; lia].
  - apply Z.leb_le in E1. rewrite HC. exact E1.
Qed.

(** ** Links, leaves and levels: a second invariant of the level loop *)

(** A leaf holds equal codes and the box of its particles. *)
Definition leaf_ok (n : bvh_node) : Prop :=
  prefix_agree (begin n) (end_ n) 64 /\
  (lb n, ub n) = leaf_aabb srt_lbs srt_ubs (begin n) (end_ n) default_lb default_ub.

(** The root spans all particles and has no parent; every other node is
    a child of the node its [parent] names, which lies before it and
    split on an earlier bit. *)
Definition link_ok (tree : list bvh_node) (i : nat) (n : bvh_node) : Prop :=
  match i with
  | O => parent n = -1 /\ begin n = 0 /\ end_ n = nparts
  | S _ =>
      0 <= parent n < Z.of_nat i /\
      exists p, tree !! Z.to_nat (parent n) = Some p /\
                (left p = Z.of_nat i \/ right p = Z.of_nat i) /\
                split_idx p < split_idx n
  end.

(** The children of a level lie behind the level, and their indices fit
    in an [int32_t]. [o] is the index of the first node of the first
    level of [ls]. *)
Fixpoint levels_ch (o : Z) (ls : list (list bvh_node)) : Prop :=
  match ls with
  | [] => True
  | L :: ls' =>
      Forall (fun n => left n = -1 \/ (o + size L <= left n /\ right n <= i32_max)) L /\
      levels_ch (o + size L) ls'
  end.

Lemma levels_ch_snoc ls : forall o L,
  levels_ch o ls ->
  Forall (fun n => left n = -1 \/
                   (o + size (concat ls) + size L <= left n /\ right n <= i32_max)) L ->
  levels_ch o (ls ++ [L]).
Proof.
  induction ls as [|L0 ls IH]; intros o L H HL.
  - simpl. split; [|exact I]. simpl concat in HL.
    change (size (@nil bvh_node)) with 0 in HL. rewrite Z.add_0_r in HL. exact HL.
  - simpl in H. destruct H as [H0 H]. simpl. split; [exact H0|]. apply IH; [exact H|].
    simpl concat in HL. rewrite size_app in HL.
    replace (o + size L0 + size (concat ls) + size L)
      with (o + (size L0 + size (concat ls)) + size L) by lia. exact HL.
Qed.

Lemma levels_ch_last ls : forall o L,
  levels_ch o (ls ++ [L]) ->
  levels_ch o ls /\
  Forall (fun n => left n = -1 \/
                   (o + size (concat ls) + size L <= left n /\ right n <= i32_max)) L.
Proof.
  induction ls as [|L0 ls IH]; intros o L H.
  - simpl in H. destruct H as [H _]. split; [exact I|]. simpl concat.
    change (size (@nil bvh_node)) with 0. rewrite Z.add_0_r. exact H.
  - simpl in H. destruct H as [H0 H]. destruct (IH _ _ H) as [H1 H2].
    split; [split; assumption|]. simpl concat. rewrite size_app.
    replace (o + (size L0 + size (concat ls)) + size L)
      with (o + size L0 + size (concat ls) + size L) by lia. exact H2.
Qed.

Lemma levels_ch_cast ls : forall o,
  levels_ch o ls -> Forall (fun n => left n = -1 \/ right n <= i32_max) (concat ls).
Proof.
  induction ls as [|L ls IH]; intros o H; simpl; [constructor|].
  destruct H as [H0 H]. apply Forall_app. split; [|apply (IH _ H)].
  eapply Forall_impl; [exact H0|]. intros n [Hn|[_ Hn]]; auto.
Qed.

Record ext (pre lvl : list bvh_node) : Prop := {
  ex_link : forall i n, (pre ++ lvl) !! i = Some n -> link_ok (pre ++ lvl) i n;
  ex_leaf : Forall (fun n => left n = -1 -> leaf_ok n) pre;
  ex_pend : Forall (fun n => lb n = default_lb /\ ub n = default_ub) lvl;
  ex_lev : exists ls, pre = concat ls /\ Forall level_ok ls /\ levels_ch 0 ls
}.

Lemma ext_root :
  ext [] [mk_bvh_node 0 nparts (-1) (-1) (-1) default_lb default_ub 0 0].
Proof.
  constructor.
  - intros [|i] n H; simpl in H; [|destruct i; discriminate].
    inversion H; subst. simpl. auto.
  - constructor.
  - constructor; [|constructor]. simpl. auto.
  - exists []. repeat split; constructor.
Qed.

(** The step keeps the second invariant. *)
Lemma ext_step d pre lvl lvl' ncs nplcs n_leaf :
  0 <= d -> lvl <> [] -> Forall (pending_ok d) lvl -> ext pre lvl ->
  classify_level srt_mcodes srt_lbs srt_ubs lvl = Done (lvl', ncs, nplcs, n_leaf) ->
  let lay := layout (size lvl) (size pre) (size (pre ++ lvl)) lvl' ncs nplcs in
  length (fst lay) = length lvl ->
  (snd lay <> [] -> size (pre ++ lvl) + size (snd lay) - 1 <= i32_max) ->
  ext (pre ++ fst lay) (snd lay).
Proof.
  intros Hd Hne Hpend [Hlink Hleaf Hpd Hlev] Hrun lay HlenL Hcast.
  set (L := fst lay) in *. set (C := snd lay) in *.
  assert (HL : forall j n1, L !! j = Some n1 ->
            exists n n' nc nplc,
              lvl !! j = Some n /\ pending_ok d n /\
              classify_post n n' nc nplc /\
              ((nc = 0 /\ prefix_agree (begin n) (end_ n) 64 /\
                (lb n', ub n') = leaf_aabb srt_lbs srt_ubs (begin n) (end_ n) (lb n) (ub n)) \/
               (nc = 2 /\ lb n' = lb n /\ ub n' = ub n)) /\
              ((nc = 0 /\ n1 = set_nn_level n' (size lvl)) \/
               (nc <> 0 /\ exists k : nat,
                  n1 = set_children (set_nn_level n' (size lvl))
                                    (size (pre ++ lvl) + Z.of_nat k)
                                    (size (pre ++ lvl) + Z.of_nat k + 1) /\
                  C !! k = Some (left_child n' nplc (size pre + Z.of_nat j)) /\
                  C !! S k = Some (right_child n' nplc (size pre + Z.of_nat j))))).
  { intros j n1 Hj.
    destruct (layout_lookup _ _ _ _ _ _ _ _ Hj) as (n' & nc & nplc & H1 & H2 & H3 & H4).
    destruct (classify_level_lookup _ _ _ _ _ Hrun j n' H1)
      as (n & nc0 & nplc0 & G1 & G2 & G3 & G4).
    rewrite H2 in G2. inversion G2; subst nc0. rewrite H3 in G3. inversion G3; subst nplc0.
    assert (Hp : pending_ok d n) by (eapply Forall_lookup_1; eauto).
    exists n, n', nc, nplc. split; [exact G1|]. split; [exact Hp|].
    split; [apply (classify_spec d); assumption|].
    split; [apply (classify_box d n n' nc nplc); assumption|exact H4]. }
  assert (HC : forall m c, C !! m = Some c ->
            exists (j : nat) n n' nplc l,
              lvl !! j = Some n /\ pending_ok d n /\ classify_post n n' 2 nplc /\
              L !! j = Some (set_children (set_nn_level n' (size lvl)) l (l + 1)) /\
              ((c = left_child n' nplc (size pre + Z.of_nat j) /\
                l = size (pre ++ lvl) + Z.of_nat m) \/
               (c = right_child n' nplc (size pre + Z.of_nat j) /\
                l + 1 = size (pre ++ lvl) + Z.of_nat m))).
  { intros m c Hm.
    destruct (layout_child_lookup _ _ _ _ _ _ _ _ Hm)
      as (j & n' & nplc & l & H1 & H2 & (nc & H0 & Hnc) & H3 & H4).
    destruct (classify_level_lookup _ _ _ _ _ Hrun j n' H1)
      as (n & nc0 & nplc0 & G1 & G2 & G3 & G4).
    rewrite H0 in G2. inversion G2; subst nc0. rewrite H2 in G3. inversion G3; subst nplc0.
    assert (Hp : pending_ok d n) by (eapply Forall_lookup_1; eauto).
    pose proof (classify_spec d n n' nc nplc Hd Hp G4) as Hpost.
    assert (Hnc2 : nc = 2).
    { destruct Hpost as (_ & _ & _ & [[E _]|[E _]]); [contradiction|exact E]. }
    subst nc. exists j, n, n', nplc, l. auto 10. }
  assert (Hsz : size (pre ++ lvl) = Z.of_nat (length pre + length L)).
  { rewrite size_app. unfold size. lia. }
  constructor.
  - intros i n Hi.
    apply lookup_app_Some in Hi as [Hi | [Hge Hi]].
    + apply lookup_app_Some in Hi as [Hi | [Hge Hi]].
      * pose proof (lookup_lt_Some _ _ _ Hi) as Hlt.
        pose proof (Hlink i n (lookup_app_l_Some _ _ _ _ Hi)) as Hold.
        destruct i as [|i]; [exact Hold|].
        destruct Hold as (Hp & p & Hpl & Hch & Hsp). split; [exact Hp|].
        exists p. split; [|split; assumption].
        rewrite lookup_app_l in Hpl by lia.
        apply lookup_app_l_Some. apply lookup_app_l_Some. exact Hpl.
      * destruct (HL _ _ Hi) as (n0 & n' & nc & nplc & G1 & Gp & Gpost & _ & Glay).
        assert (Hold : link_ok (pre ++ lvl) i n0).
        { apply Hlink. rewrite lookup_app_r by lia. exact G1. }
        assert (Hsame : parent n = parent n0 /\ begin n = begin n0 /\ end_ n = end_ n0 /\
                        split_idx n0 <= split_idx n).
        { destruct Gpost as ((Eb & Ee & Ep & _) & _ & Es & _).
          destruct Glay as [[_ ->]|(_ & k & -> & _)]; simpl; rewrite Eb, Ee, Ep;
            repeat split; lia. }
        destruct Hsame as (E1 & E2 & E3 & E4).
        destruct i as [|i].
        -- simpl in Hold |- *. rewrite E1, E2, E3. exact Hold.
        -- destruct Hold as (Hp & p & Hpl & Hch & Hsp). simpl.
           rewrite E1. split; [exact Hp|].
           exists p. split; [|split; [exact Hch|lia]].
           apply lookup_app_Some in Hpl as [Hpl | [Hge' Hpl]].
           ++ apply lookup_app_l_Some. apply lookup_app_l_Some. exact Hpl.
           ++ exfalso. assert (Hpp : pending_ok d p) by (eapply Forall_lookup_1; eauto).
              destruct Hpp as [_ Hl Hr _ _]. lia.
    + rewrite length_app in Hge, Hi.
      destruct (HC _ _ Hi) as (j & n0 & n' & nplc & l & G1 & Gp & Gpost & GL & Gc).
      pose proof (lookup_lt_Some _ _ _ GL) as HjL.
      destruct i as [|i]; [lia|]. simpl.
      destruct Gpost as (_ & _ & Es & [[E _]|(_ & _ & Hs63 & _)]); [discriminate|].
      destruct Gp as [_ _ _ Hsplit _].
      assert (Hw : wrap32 (split_idx n' + 1) = split_idx n' + 1)
        by (apply wrap32_small; unfold u32_max; lia).
      assert (Hpar : parent n = size pre + Z.of_nat j /\ split_idx n = split_idx n' + 1).
      { destruct Gc as [[-> _]|[-> _]]; simpl; rewrite Hw; auto. }
      destruct Hpar as [Hpar Hsi]. rewrite Hpar.
      split; [unfold size; lia|].
      exists (set_children (set_nn_level n' (size lvl)) l (l + 1)).
      split.
      * replace (Z.to_nat (size pre + Z.of_nat j)) with (length pre + j)%nat
          by (unfold size; lia).
        apply lookup_app_l_Some. rewrite lookup_app_r by lia.
        replace (length pre + j - length pre)%nat with j by lia. exact GL.
      * split; [|simpl; lia].
        simpl. destruct Gc as [[_ Hl]|[_ Hl]]; [left|right]; lia.
  - apply Forall_app. split; [exact Hleaf|].
    apply Forall_lookup_2. intros j n1 Hj Hl1.
    destruct (HL _ _ Hj) as (n0 & n' & nc & nplc & G1 & Gp & Gpost & Gbox & Glay).
    destruct Glay as [[Hnc ->]|(_ & k & -> & _)].
    + destruct Gbox as [(_ & Hpre & Hb)|[Hnc2 _]]; [|lia].
      destruct Gpost as ((Eb & Ee & _) & _).
      pose proof (Forall_lookup_1 _ _ _ _ Hpd G1) as [D1 D2].
      rewrite D1, D2 in Hb.
      unfold leaf_ok. simpl. rewrite Eb, Ee. split; assumption.
    + simpl in Hl1. pose proof (size_nonneg (pre ++ lvl)). lia.
  - apply Forall_lookup_2. intros m c Hm.
    destruct (HC _ _ Hm) as (j & n0 & n' & nplc & l & _ & _ & _ & _ & Gc).
    destruct Gc as [[-> _]|[-> _]]; simpl; auto.
  - destruct Hlev as (ls & -> & Hls & Hch).
    assert (HLne : L <> []).
    { intros E. rewrite E in HlenL. destruct lvl; [contradiction|discriminate]. }
    exists (ls ++ [L]). split; [rewrite concat_app; simpl; rewrite app_nil_r; reflexivity|].
    split.
    + apply Forall_app. split; [exact Hls|]. constructor; [|constructor].
      split; [exact HLne|].
      replace (size L) with (size lvl) by (unfold size; lia).
      apply layout_nn_level.
    + apply levels_ch_snoc; [exact Hch|].
      apply Forall_lookup_2. intros j n1 Hj.
      destruct (HL _ _ Hj) as (n0 & n' & nc & nplc & G1 & Gp & Gpost & _ & Glay).
      destruct Glay as [[_ ->]|(_ & k & -> & _ & Hk)].
      * left. simpl. destruct Gpost as ((_ & _ & _ & El & _) & _).
        destruct Gp as [_ Hl0 _ _ _]. congruence.
      * right. simpl.
        pose proof (lookup_lt_Some _ _ _ Hk) as HkC.
        assert (HCne : C <> []) by (intros E; rewrite E in HkC; simpl in HkC; lia).
        specialize (Hcast HCne). rewrite size_app in *. unfold size in *. lia.
Qed.

Lemma inv_parts d pre lvl :
  inv d (pre ++ lvl) (size lvl) -> Forall (pending_ok d) lvl.
Proof.
  intros (pre0 & lvl0 & Heq & Hcur & Hpend & _).
  apply app_inj_2 in Heq as [_ ->]; [exact Hpend|]. unfold size in Hcur. lia.
Qed.

Lemma build_levels_ext fuel : forall d pre lvl nl t nl',
  0 <= d -> inv d (pre ++ lvl) (size lvl) -> ext pre lvl ->
  build_levels srt_mcodes srt_lbs srt_ubs fuel (pre ++ lvl) (size lvl) nl = Done (t, nl') ->
  ext t [].
Proof.
  induction fuel as [|fuel IH]; intros d pre lvl nl t nl' Hd Hinv Hext Hrun; simpl in Hrun.
  - destruct (size lvl =? 0) eqn:E0; [|discriminate].
    apply Z.eqb_eq in E0. inversion Hrun; subst.
    destruct lvl; [|unfold size in E0; simpl in E0; lia].
    rewrite app_nil_r. exact Hext.
  - destruct (size lvl =? 0) eqn:E0.
    + apply Z.eqb_eq in E0. inversion Hrun; subst.
      destruct lvl; [|unfold size in E0; simpl in E0; lia].
      rewrite app_nil_r. exact Hext.
    + apply Z.eqb_neq in E0.
      apply obind_Done in Hrun as ([tree1 next1] & Hstep & Hrun). simpl in Hrun.
      pose proof (inv_parts d pre lvl Hinv) as Hpend.
      destruct (level_step_run d _ _ Hd Hinv)
        as [(tree' & next & Hstep' & Hinv' & _) | [[Hex|Hex] _]]; try congruence.
      rewrite Hstep in Hstep'. inversion Hstep'; subst tree' next.
      destruct (level_step_shape d pre lvl tree1 next1 Hd Hpend Hstep)
        as (lvl' & ncs & nplcs & n_leaf & Hcl & Hshape).
      cbv zeta in Hshape. destruct Hshape as (-> & -> & HlenL & Hcast).
      rewrite app_assoc in Hrun, Hinv'.
      apply (IH (d + 1) _ _ _ _ _ ltac:(lia) Hinv') in Hrun; [exact Hrun|].
      apply (ext_step d pre lvl lvl' ncs nplcs n_leaf); try assumption.
      intros E. rewrite E in E0. apply E0. reflexivity.
Qed.

(** ** The backward pass computes the boxes of the internal nodes *)

(** The node [n] after the pass has visited it, in the tree [t]. *)
Definition pulled (t : list bvh_node) (n : bvh_node) : bvh_node :=
  if left n =? -1 then n
  else set_aabb n (array4_map2 std_min (lb (at_ t (left n))) (lb (at_ t (right n))))
                  (array4_map2 std_max (ub (at_ t (left n))) (ub (at_ t (right n)))).

Lemma pull_up_lookup t i k :
  0 <= i < size t ->
  pull_up t i !! k = if decide (k = Z.to_nat i) then Some (pulled t (at_ t i)) else t !! k.
Proof.
  intros Hi. unfold pull_up, pulled.
  assert (Hn : t !! Z.to_nat i = Some (at_ t i)).
  { unfold at_. apply list_lookup_lookup_total_lt. unfold size in Hi. lia. }
  destruct (left (at_ t i) =? -1).
  - destruct (decide (k = Z.to_nat i)) as [->|]; [exact Hn|reflexivity].
  - destruct (decide (k = Z.to_nat i)) as [->|Hne].
    + apply list_lookup_insert_eq. unfold size in Hi. lia.
    + apply list_lookup_insert_ne. congruence.
Qed.

Lemma pull_up_length t i : length (pull_up t i) = length t.
Proof. unfold pull_up. destruct (_ =? _); [reflexivity|apply length_insert]. Qed.

Lemma pull_up_at_ne t i x :
  0 <= i < size t -> Z.to_nat x <> Z.to_nat i -> at_ (pull_up t i) x = at_ t x.
Proof.
  intros Hi Hx. unfold at_. rewrite !list_lookup_total_alt, pull_up_lookup by exact Hi.
  destruct (decide (Z.to_nat x = Z.to_nat i)); [contradiction|reflexivity].
Qed.

Lemma index_range_cons a b : a < b -> index_range a b = a :: index_range (a + 1) b.
Proof.
  intros H. unfold index_range.
  replace (Z.to_nat (b - a)) with (S (Z.to_nat (b - (a + 1)))) by lia.
  simpl. rewrite Z.add_0_r. f_equal.
  rewrite <- seq_shift, map_map. apply map_ext. intros k. lia.
Qed.

(** One sweep over a level whose children lie behind it: the nodes of
    the level are pulled up from the tree as it was, the others stay. *)
Lemma fold_pull_up_range ne : forall (k : nat) nb t,
  0 <= nb -> ne = nb + Z.of_nat k -> ne <= size t ->
  (forall i n, t !! i = Some n -> nb <= Z.of_nat i < ne ->
               left n = -1 \/ (ne <= left n /\ ne <= right n)) ->
  forall i,
    fold_left pull_up (index_range nb ne) t !! i
    = if (nb <=? Z.of_nat i) && (Z.of_nat i <? ne) then pulled t <$> (t !! i) else t !! i.
Proof.
  induction k as [|k IH]; intros nb t Hnb Hne Hsz Hch i.
  - replace ne with nb by lia. unfold index_range. rewrite Z.sub_diag. simpl.
    destruct ((nb <=? Z.of_nat i) && (Z.of_nat i <? nb)) eqn:E; [|reflexivity].
    apply andb_true_iff in E as [E1 E2]. apply Z.leb_le in E1. apply Z.ltb_lt in E2. lia.
  - rewrite index_range_cons by lia. simpl fold_left.
    assert (Hnbt : 0 <= nb < size t) by lia.
    assert (Hsz' : ne <= size (pull_up t nb)).
    { unfold size. rewrite pull_up_length. exact Hsz. }
    assert (Hch' : forall j n, pull_up t nb !! j = Some n -> nb + 1 <= Z.of_nat j < ne ->
                               left n = -1 \/ (ne <= left n /\ ne <= right n)).
    { intros j n Hj Hr. rewrite pull_up_lookup in Hj by exact Hnbt.
      destruct (decide (j = Z.to_nat nb)); [lia|]. apply (Hch j n Hj). lia. }
    rewrite (IH (nb + 1) (pull_up t nb) ltac:(lia) ltac:(lia) Hsz' Hch' i).
    rewrite !pull_up_lookup by exact Hnbt.
    destruct (decide (i = Z.to_nat nb)) as [->|Hi].
    + replace (nb + 1 <=? Z.of_nat (Z.to_nat nb)) with false by (symmetry; apply Z.leb_gt; lia).
      replace (nb <=? Z.of_nat (Z.to_nat nb)) with true by (symmetry; apply Z.leb_le; lia).
      replace (Z.of_nat (Z.to_nat nb) <? ne) with true by (symmetry; apply Z.ltb_lt; lia).
      simpl. unfold at_.
      rewrite (list_lookup_lookup_total_lt t (Z.to_nat nb)) by (unfold size in *; lia).
      reflexivity.
    + replace (nb + 1 <=? Z.of_nat i) with (nb <=? Z.of_nat i).
      2:{ destruct (nb <=? Z.of_nat i) eqn:E1; symmetry;
            [apply Z.leb_le; apply Z.leb_le in E1|apply Z.leb_gt; apply Z.leb_gt in E1]; lia. }
      destruct ((nb <=? Z.of_nat i) && (Z.of_nat i <? ne)) eqn:E; [|reflexivity].
      apply andb_true_iff in E as [E1 E2]. apply Z.leb_le in E1. apply Z.ltb_lt in E2.
      destruct (t !! i) as [n|] eqn:Hn; [|reflexivity]. simpl. f_equal.
      unfold pulled. destruct (left n =? -1) eqn:El; [reflexivity|].
      apply Z.eqb_neq in El.
      destruct (Hch i n Hn ltac:(lia)) as [?|[H1 H2]]; [contradiction|].
      rewrite !(pull_up_at_ne t nb) by lia. reflexivity.
Qed.

(** The box of a leaf is the box of its particles; the box of an
    internal node is the union of the boxes of its children. *)
Definition box_rel (t : list bvh_node) (n : bvh_node) : Prop :=
  (left n = -1 ->
   (lb n, ub n) = leaf_aabb srt_lbs srt_ubs (begin n) (end_ n) default_lb default_ub) /\
  (left n <> -1 ->
   lb n = array4_map2 std_min (lb (at_ t (left n))) (lb (at_ t (right n))) /\
   ub n = array4_map2 std_max (ub (at_ t (left n))) (ub (at_ t (right n)))).

Definition kids_ok (t : list bvh_node) : Prop :=
  forall i n, t !! i = Some n -> left n <> -1 ->
              Z.of_nat i < left n /\ left n < right n /\ right n < size t.

Definition leaves_boxed (t : list bvh_node) : Prop :=
  forall i n, t !! i = Some n -> left n = -1 ->
    (lb n, ub n) = leaf_aabb srt_lbs srt_ubs (begin n) (end_ n) default_lb default_ub.

Lemma pull_level t nb ne :
  0 <= nb -> nb <= ne -> ne <= size t ->
  kids_ok t -> leaves_boxed t ->
  (forall i n, t !! i = Some n -> nb <= Z.of_nat i < ne -> left n = -1 \/ ne <= left n) ->
  (forall i n, t !! i = Some n -> ne <= Z.of_nat i -> box_rel t n) ->
  let t1 := fold_left pull_up (index_range nb ne) t in
  kids_ok t1 /\ leaves_boxed t1 /\
  (forall i n, t1 !! i = Some n -> nb <= Z.of_nat i -> box_rel t1 n).
Proof.
  intros Hnb Hle Hsz Hk Hlb Hch Hdone t1.
  pose proof (fold_pull_up_struct (index_range nb ne) t) as Hst. fold t1 in Hst.
  assert (Hch2 : forall i n, t !! i = Some n -> nb <= Z.of_nat i < ne ->
                             left n = -1 \/ (ne <= left n /\ ne <= right n)).
  { intros i n Hn Hr. destruct (Hch i n Hn Hr) as [H|H]; [left; exact H|right].
    destruct (Z.eq_dec (left n) (-1)) as [E|E]; [lia|].
    destruct (Hk i n Hn E) as (_ & H1 & _). lia. }
  pose proof (fold_pull_up_range ne (Z.to_nat (ne - nb)) nb t Hnb ltac:(lia) Hsz Hch2) as Hlook.
  fold t1 in Hlook.
  assert (Hat : forall x, ne <= x -> at_ t1 x = at_ t x).
  { intros x Hx. unfold at_. rewrite !list_lookup_total_alt, Hlook.
    replace (Z.of_nat (Z.to_nat x) <? ne) with false by (symmetry; apply Z.ltb_ge; lia).
    rewrite andb_false_r. reflexivity. }
  assert (Hcases : forall i n1, t1 !! i = Some n1 ->
            exists n, t !! i = Some n /\
                      ((nb <= Z.of_nat i < ne /\ n1 = pulled t n) \/
                       (~ nb <= Z.of_nat i < ne /\ n1 = n))).
  { intros i n1 H1. rewrite Hlook in H1.
    destruct ((nb <=? Z.of_nat i) && (Z.of_nat i <? ne)) eqn:E.
    - apply andb_true_iff in E as [E1 E2]. apply Z.leb_le in E1. apply Z.ltb_lt in E2.
      destruct (t !! i) as [n|]; [|discriminate]. simpl in H1. inversion H1; subst.
      exists n. split; [reflexivity|]. left. split; [lia|reflexivity].
    - exists n1. split; [exact H1|]. right. split; [|reflexivity].
      apply andb_false_iff in E as [E|E]; [apply Z.leb_gt in E|apply Z.ltb_ge in E]; lia. }
  assert (Hlb1 : leaves_boxed t1).
  { intros i n1 H1 Hl1. destruct (Hcases i n1 H1) as (n & Hn & [[Hr ->]|[Hr ->]]).
    - unfold pulled in *. destruct (left n =? -1) eqn:El.
      + apply Z.eqb_eq in El. apply (Hlb i n Hn El).
      + apply Z.eqb_neq in El. simpl in Hl1. contradiction.
    - apply (Hlb i n Hn Hl1). }
  split; [|split; [exact Hlb1|]].
  - intros i n1 H1 Hl1.
    destruct (Forall2_lookup_r _ _ _ _ _ Hst H1) as (n & Hn & (_ & _ & _ & El & Er & _)).
    rewrite El in Hl1. destruct (Hk i n Hn Hl1) as (K1 & K2 & K3).
    rewrite El, Er. unfold size in *. rewrite <- (Forall2_length _ _ _ Hst). lia.
  - intros i n1 H1 Hi. split; [apply (Hlb1 i n1 H1)|]. intros Hl1.
    destruct (Hcases i n1 H1) as (n & Hn & [[Hr ->]|[Hr ->]]).
    + unfold pulled in *. destruct (left n =? -1) eqn:El.
      * apply Z.eqb_eq in El. contradiction.
      * apply Z.eqb_neq in El. simpl.
        destruct (Hch2 i n Hn Hr) as [?|[H2 H3]]; [contradiction|].
        rewrite !Hat by lia. split; reflexivity.
    + destruct (Hdone i n Hn ltac:(lia)) as [_ Hb]. specialize (Hb Hl1).
      destruct (Hk i n Hn Hl1) as (K1 & K2 & K3).
      rewrite !Hat by lia. exact Hb.
Qed.

Lemma level_children ls L rest t i n :
  levels_ch 0 (ls ++ [L]) ->
  Forall2 same_struct (concat (ls ++ [L]) ++ rest) t ->
  t !! i = Some n ->
  size (concat ls) <= Z.of_nat i < size (concat ls) + size L ->
  left n = -1 \/ size (concat ls) + size L <= left n.
Proof.
  intros Hch Hst Hn Hi.
  destruct (levels_ch_last _ _ _ Hch) as [_ HL].
  destruct (Forall2_lookup_r _ _ _ _ _ Hst Hn) as (n0 & Hn0 & (_ & _ & _ & El & _)).
  rewrite concat_app in Hn0. simpl in Hn0. rewrite app_nil_r in Hn0.
  rewrite <- app_assoc in Hn0.
  rewrite lookup_app_r in Hn0 by (unfold size in Hi; lia).
  rewrite lookup_app_l in Hn0 by (unfold size in Hi; lia).
  pose proof (Forall_lookup_1 _ _ _ _ HL Hn0) as [Hc|[Hc _]];
    rewrite El; [left; exact Hc|right; lia].
Qed.

Lemma backward_loop_boxes : forall ls L rest t fuel t',
  Forall level_ok (ls ++ [L]) ->
  levels_ch 0 (ls ++ [L]) ->
  Forall2 same_struct (concat (ls ++ [L]) ++ rest) t ->
  kids_ok t -> leaves_boxed t ->
  (forall i n, t !! i = Some n -> size (concat ls) + size L <= Z.of_nat i -> box_rel t n) ->
  backward_loop fuel t (size (concat ls)) (size (concat ls) + size L) = Done t' ->
  forall i n, t' !! i = Some n -> box_rel t' n.
Proof.
  induction ls as [|L' ls IH] using rev_ind;
    intros L rest t fuel t' Hok Hch Hst Hk Hlb Hdone Hrun.
  - destruct fuel as [|fuel]; [discriminate|]. simpl in Hrun. inversion Hrun; subst t'.
    pose proof (size_nonneg L) as HsL.
    destruct (pull_level t 0 (0 + size L)) as (_ & _ & H); try assumption; try lia.
    + pose proof (Forall2_length _ _ _ Hst) as Hlen. simpl in Hlen.
      rewrite !length_app in Hlen. unfold size. simpl in Hlen. lia.
    + intros i n Hn Hi.
      apply (level_children [] L rest t i n Hch Hst Hn). simpl. exact Hi.
    + intros i n Hn. apply (H i n Hn). lia.
  - destruct fuel as [|fuel]; [discriminate|]. simpl backward_loop in Hrun.
    pose proof (size_nonneg (concat (ls ++ [L']))) as Hs0. pose proof (size_nonneg L) as HsL.
    destruct (pull_level t (size (concat (ls ++ [L']))) (size (concat (ls ++ [L'])) + size L))
      as (Hk1 & Hlb1 & Hdone1); try assumption; try lia.
    { pose proof (Forall2_length _ _ _ Hst) as Hlen.
      rewrite length_app, (concat_app (ls ++ [L'])), length_app in Hlen. simpl in Hlen.
      rewrite app_nil_r in Hlen. unfold size. lia. }
    { intros i n Hn Hi. apply (level_children (ls ++ [L']) L rest t i n Hch Hst Hn Hi). }
    set (t1 := fold_left pull_up _ t) in *.
    apply Forall_app in Hok as [Hok _].
    pose proof Hok as Hok'. apply Forall_app in Hok' as [_ HL'].
    apply Forall_cons in HL' as [HL' _].
    assert (Hst1 : Forall2 same_struct (concat ((ls ++ [L']) ++ [L]) ++ rest) t1).
    { eapply Forall2_same_struct_trans; [exact Hst|apply fold_pull_up_struct]. }
    assert (Hst1' : Forall2 same_struct (concat (ls ++ [L']) ++ L ++ rest) t1).
    { replace (concat (ls ++ [L']) ++ L ++ rest)
        with (concat ((ls ++ [L']) ++ [L]) ++ rest); [exact Hst1|].
      rewrite (concat_app (ls ++ [L'])). simpl. rewrite app_nil_r, <- app_assoc. reflexivity. }
    assert (Hpos : 0 < size L').
    { destruct HL' as [Hne _]. destruct L'; [contradiction|]. unfold size. simpl. lia. }
    pose proof (size_nonneg (concat ls)).
    rewrite size_concat_snoc in Hrun.
    replace (size (concat ls) + size L' =? 0) with false in Hrun
      by (symmetry; apply Z.eqb_neq; lia).
    assert (Hnn : nn_level (at_ t1 (size (concat ls) + size L' - 1)) = size L').
    { rewrite <- size_concat_snoc. apply (last_of_level ls L' (L ++ rest)); assumption. }
    rewrite Hnn in Hrun.
    replace (size (concat ls) + size L' - size L') with (size (concat ls)) in Hrun by lia.
    apply (IH L' (L ++ rest) t1 fuel t'); try assumption.
    + apply (levels_ch_last _ _ _ Hch).
    + intros i n Hn Hi. apply (Hdone1 i n Hn). rewrite size_concat_snoc. exact Hi.
Qed.

Lemma backward_pass_boxes t t' :
  (exists ls, t = concat ls /\ Forall level_ok ls /\ levels_ch 0 ls) -> t <> [] ->
  kids_ok t -> leaves_boxed t ->
  backward_pass t = Done t' ->
  forall i n, t' !! i = Some n -> box_rel t' n.
Proof.
  intros (ls & -> & Hls & Hch) Hne Hk Hlb Hrun. unfold backward_pass in Hrun.
  assert (Hls_ne : ls <> []) by (intros ->; contradiction).
  destruct (exists_last Hls_ne) as (ls0 & Lk & ->).
  pose proof Hls as Hls'. apply Forall_app in Hls' as [Hls0 HLk].
  apply Forall_cons in HLk as [HLk _].
  pose proof (Forall2_same_struct_refl (concat (ls0 ++ [Lk]))) as Hrefl.
  assert (Hlast : nn_level (at_ (concat (ls0 ++ [Lk])) (size (concat (ls0 ++ [Lk])) - 1))
                  = size Lk).
  { apply (last_of_level ls0 Lk []); [exact HLk|]. rewrite app_nil_r. exact Hrefl. }
  rewrite Hlast, size_concat_snoc in Hrun.
  replace (size (concat ls0) + size Lk - size Lk) with (size (concat ls0)) in Hrun by lia.
  (* the last level holds leaves only *)
  assert (Hdone : forall i n, concat (ls0 ++ [Lk]) !! i = Some n ->
                              size (concat ls0) <= Z.of_nat i ->
                              box_rel (concat (ls0 ++ [Lk])) n).
  { intros i n Hn Hi.
    assert (Hl : left n = -1).
    { destruct (Z.eq_dec (left n) (-1)) as [E|E]; [exact E|exfalso].
      destruct (Hk i n Hn E) as (_ & K2 & K3). rewrite size_concat_snoc in K3.
      destruct (level_children ls0 Lk [] (concat (ls0 ++ [Lk])) i n Hch) as [H|H];
        try assumption; try lia.
      - rewrite app_nil_r. exact Hrefl.
      - pose proof (lookup_lt_Some _ _ _ Hn) as Hlt.
        rewrite concat_app, length_app in Hlt. simpl in Hlt. rewrite app_nil_r in Hlt.
        unfold size in *. lia. }
    split; [intros _; apply (Hlb i n Hn Hl)|intros E; contradiction]. }
  destruct (size (concat ls0) =? 0) eqn:E0.
  - apply Z.eqb_eq in E0. inversion Hrun; subst t'.
    intros i n Hn. apply (Hdone i n Hn). lia.
  - apply Z.eqb_neq in E0.
    assert (Hls0_ne : ls0 <> []) by (intros ->; apply E0; reflexivity).
    destruct (exists_last Hls0_ne) as (ls1 & L' & ->).
    pose proof Hls0 as Hls0'. apply Forall_app in Hls0' as [_ HL'].
    apply Forall_cons in HL' as [HL' _].
    assert (Hrefl' : Forall2 same_struct (concat (ls1 ++ [L']) ++ Lk)
                                         (concat ((ls1 ++ [L']) ++ [Lk]))).
    { replace (concat (ls1 ++ [L']) ++ Lk) with (concat ((ls1 ++ [L']) ++ [Lk]));
        [exact Hrefl|].
      rewrite (concat_app (ls1 ++ [L'])). simpl. rewrite app_nil_r. reflexivity. }
    assert (Hprev : nn_level (at_ (concat ((ls1 ++ [L']) ++ [Lk]))
                                  (size (concat (ls1 ++ [L'])) - 1)) = size L').
    { apply (last_of_level ls1 L' Lk); assumption. }
    rewrite Hprev, size_concat_snoc in Hrun.
    replace (size (concat ls1) + size L' - size L') with (size (concat ls1)) in Hrun by lia.
    eapply (backward_loop_boxes ls1 L' Lk);
      [exact Hls0|exact (proj1 (levels_ch_last _ _ _ Hch))|exact Hrefl'|exact Hk|exact Hlb
      | |exact Hrun].
    intros i n Hn Hi. apply (Hdone i n Hn). rewrite size_concat_snoc. exact Hi.
Qed.

(** ** The completed tree, node by node *)

Lemma link_ok_struct t t' i n n' :
  Forall2 same_struct t t' -> t !! i = Some n -> t' !! i = Some n' ->
  link_ok t i n -> link_ok t' i n'.
Proof.
  intros Hst Hn Hn' H.
  assert (Hnn : same_struct n n') by (eapply Forall2_lookup_lr; eauto).
  destruct Hnn as (Eb & Ee & Ep & _ & _ & _ & Es).
  destruct i as [|i]; simpl in *.
  - rewrite Eb, Ee, Ep. exact H.
  - destruct H as (Hp & p & Hpl & Hch & Hsp). rewrite Ep. split; [exact Hp|].
    destruct (Forall2_lookup_l _ _ _ _ _ Hst Hpl)
      as (p' & Hp' & (_ & _ & _ & El & Er & _ & Es')).
    exists p'. rewrite El, Er, Es', Es. auto.
Qed.

Lemma levels_nn ls :
  Forall level_ok ls -> Forall (fun n => 0 < nn_level n) (concat ls).
Proof.
  induction 1 as [|L ls [Hne Hnn] _ IH]; simpl; [constructor|].
  apply Forall_app. split; [|exact IH].
  eapply Forall_impl; [exact Hnn|]. intros n ->.
  destruct L; [contradiction|]. unfold size. simpl. lia.
Qed.

Lemma levels_ok_struct t t' :
  Forall2 same_struct t t' -> levels_ok t -> levels_ok t'.
Proof.
  intros Hst (ls & -> & Hls). revert t' Hst.
  induction Hls as [|L ls [Hne Hnn] _ IH]; intros t' Hst.
  - simpl in Hst. inversion Hst; subst. exists []. split; [reflexivity|constructor].
  - simpl in Hst. apply Forall2_app_inv_l in Hst as (k1 & k2 & H1 & H2 & ->).
    destruct (IH _ H2) as (ls' & -> & Hls').
    exists (k1 :: ls'). split; [reflexivity|]. constructor; [|exact Hls'].
    pose proof (Forall2_length _ _ _ H1) as Hlen.
    split; [intros ->; destruct L; [contradiction|discriminate]|].
    apply Forall_lookup_2. intros j n' Hj.
    destruct (Forall2_lookup_r _ _ _ _ _ H1 Hj) as (n & Hn & (_ & _ & _ & _ & _ & En & _)).
    rewrite En, (Forall_lookup_1 _ _ _ _ Hnn Hn). unfold size. lia.
Qed.

(** What holds of the node [n] at index [i] of a completed tree. *)
Record node_ok (tree : list bvh_node) (i : nat) (n : bvh_node) : Prop := {
  nk_final : final_ok tree (Z.of_nat i) n;
  nk_link : link_ok tree i n;
  nk_leaf : left n = -1 -> prefix_agree (begin n) (end_ n) 64;
  nk_box : box_rel tree n;
  nk_nn : 0 < nn_level n;
  nk_cast : left n <> -1 -> right n <= i32_max
}.

Lemma construct_node_ok fuel tree :
  1 <= nparts ->
  construct_bvh_tree srt_mcodes srt_lbs srt_ubs fuel nparts = Done tree ->
  (forall i n, tree !! i = Some n -> node_ok tree i n) /\
  levels_ok tree /\ 1 <= size tree <= 2 * nparts - 1.
Proof.
  intros HP Hrun. pose proof Hrun as Hrun0. unfold construct_bvh_tree in Hrun.
  apply obind_Done in Hrun as (e & He & Hrun).
  apply numeric_cast_u32_Done in He as [-> _].
  apply obind_Done in Hrun as ([t1 nl] & Hlv & Hbw). simpl fst in Hbw.
  set (root := mk_bvh_node 0 nparts (-1) (-1) (-1) default_lb default_ub 0 0) in *.
  assert (Hinv : exists d, inv d t1 0).
  { eapply (build_levels_inv fuel 0); [lia|exact (inv_root HP)|exact Hlv]. }
  assert (Hext : ext t1 []).
  { apply (build_levels_ext fuel 0 [] [root] 0 t1 nl);
      [lia|exact (inv_root HP)|exact ext_root|exact Hlv]. }
  destruct Hinv as (d & Hinv). pose proof (inv_bounds _ _ _ Hinv) as [_ Hsize].
  destruct Hinv as (pre & lvl & Et & Hcur & _ & Hfinal & _ & _ & _ & Hsz1).
  destruct lvl; [|unfold size in Hcur; simpl in Hcur; lia].
  rewrite app_nil_r in Et. subst pre.
  destruct Hext as [Hlink Hleaf _ Hlev]. rewrite app_nil_r in Hlink.
  pose proof (backward_pass_struct _ _ Hbw) as Hst.
  assert (Hk : kids_ok t1).
  { intros i n Hn Hl. destruct (Hfinal i n Hn) as (_ & _ & [[E _]|Hc]); [contradiction|].
    destruct Hc as (H1 & H2 & _ & lc & rc & _ & Hrc & _).
    apply lookup_lt_Some in Hrc. unfold size. lia. }
  assert (Hlb : leaves_boxed t1).
  { intros i n Hn Hl. apply (proj2 (Forall_lookup_1 _ _ _ _ Hleaf Hn Hl)). }
  assert (Hne : t1 <> []) by (intros ->; unfold size in Hsz1; simpl in Hsz1; lia).
  pose proof (backward_pass_boxes t1 tree Hlev Hne Hk Hlb Hbw) as Hbox.
  destruct Hlev as (ls & Els & Hls & Hch).
  split; [|split].
  - intros i n Hn.
    destruct (Forall2_lookup_r _ _ _ _ _ Hst Hn) as (n0 & Hn0 & Hs).
    pose proof Hs as (Eb & Ee & _ & El & Er & En & _).
    constructor.
    + apply (construct_final_ok fuel tree HP Hrun0 i n Hn).
    + apply (link_ok_struct t1 tree i n0 n Hst Hn0 Hn). apply Hlink. exact Hn0.
    + intros Hl. rewrite Eb, Ee. rewrite El in Hl.
      apply (proj1 (Forall_lookup_1 _ _ _ _ Hleaf Hn0 Hl)).
    + apply (Hbox i n Hn).
    + rewrite En. rewrite Els in Hn0.
      apply (Forall_lookup_1 _ _ _ _ (levels_nn ls Hls) Hn0).
    + intros Hl. rewrite El in Hl. rewrite Er. rewrite Els in Hn0.
      destruct (Forall_lookup_1 _ _ _ _ (levels_ch_cast ls 0 Hch) Hn0) as [H|H];
        [contradiction|exact H].
  - apply (levels_ok_struct t1 tree Hst). exists ls. split; assumption.
  - unfold size in *. rewrite <- (Forall2_length _ _ _ Hst). lia.
Qed.

(** ** The levels are the depth classes of the tree *)

(** Every node of a level has its parent in the level before it. [P] is
    the level before the first level of [ls]; it starts at index [o]. *)
Fixpoint levels_par (o : Z) (P : list bvh_node) (ls : list (list bvh_node)) : Prop :=
  match ls with
  | [] => True
  | L :: ls' =>
      Forall (fun n => o <= parent n < o + size P) L /\ levels_par (o + size P) L ls'
  end.

(** The levels from the root on: the first one is the root alone, each
    later one holds children of the one before it. *)
Definition levels_from (all : list (list bvh_node)) : Prop :=
  match all with
  | [] => False
  | R :: rest => (exists r, R = [r] /\ parent r = -1) /\ levels_par 0 R rest
  end.

Lemma levels_par_step ls : forall o P lvl L C,
  levels_par o P (ls ++ [lvl]) ->
  Forall2 (fun n n1 => parent n1 = parent n) lvl L ->
  Forall (fun c => o + size P + size (concat ls) <= parent c
                   < o + size P + size (concat ls) + size L) C ->
  levels_par o P (ls ++ [L; C]).
Proof.
  induction ls as [|L0 ls IH]; intros o P lvl L C H HL HC.
  - simpl in *. destruct H as [H _].
    change (size (@nil bvh_node)) with 0 in HC. rewrite Z.add_0_r in HC.
    split; [|split; [exact HC|exact I]].
    apply Forall_lookup_2. intros j n1 Hj.
    destruct (Forall2_lookup_r _ _ _ _ _ HL Hj) as (n & Hn & E). rewrite E.
    apply (Forall_lookup_1 _ _ _ _ H Hn).
  - simpl in H. destruct H as [H0 H]. simpl. split; [exact H0|].
    apply (IH _ _ lvl); [exact H|exact HL|].
    simpl concat in HC. rewrite size_app in HC.
    eapply Forall_impl; [exact HC|]. intros c Hc. simpl in Hc. lia.
Qed.

Lemma levels_par_drop ls : forall o P,
  levels_par o P (ls ++ [[]]) -> levels_par o P ls.
Proof.
  induction ls as [|L ls IH]; intros o P H; simpl in *; [exact I|].
  destruct H as [H0 H]. split; [exact H0|]. apply IH. exact H.
Qed.

(** The loop invariant: the finished levels [ls], then the pending one. *)
Definition lev (pre lvl : list bvh_node) : Prop :=
  exists ls, pre = concat ls /\ Forall level_ok ls /\ levels_from (ls ++ [lvl]).

Lemma lev_root :
  lev [] [mk_bvh_node 0 nparts (-1) (-1) (-1) default_lb default_ub 0 0].
Proof.
  exists []. split; [reflexivity|]. split; [constructor|].
  simpl. split; [eexists; split; reflexivity|exact I].
Qed.

Lemma lev_step d pre lvl lvl' ncs nplcs n_leaf :
  0 <= d -> lvl <> [] -> Forall (pending_ok d) lvl -> lev pre lvl ->
  classify_level srt_mcodes srt_lbs srt_ubs lvl = Done (lvl', ncs, nplcs, n_leaf) ->
  let lay := layout (size lvl) (size pre) (size (pre ++ lvl)) lvl' ncs nplcs in
  length (fst lay) = length lvl ->
  lev (pre ++ fst lay) (snd lay).
Proof.
  intros Hd Hne Hpend (ls & Hpre & Hls & Hfrom) Hrun lay HlenL.
  set (L := fst lay) in *. set (C := snd lay) in *.
  assert (HLpar : Forall2 (fun n n1 => parent n1 = parent n) lvl L).
  { apply Forall2_same_length_lookup_2; [symmetry; exact HlenL|].
    intros j n n1 Hn Hn1.
    destruct (layout_lookup _ _ _ _ _ _ _ _ Hn1) as (n' & nc & nplc & G1 & G2 & G3 & G4).
    destruct (classify_level_lookup _ _ _ _ _ Hrun _ _ G1)
      as (n0 & nc0 & nplc0 & K1 & _ & _ & K4).
    rewrite Hn in K1. inversion K1; subst n0.
    pose proof (Forall_lookup_1 _ _ _ _ Hpend Hn) as Hp.
    destruct (classify_spec d n n' nc0 nplc0 Hd Hp K4) as ((_ & _ & Epar & _) & _).
    rewrite <- Epar. destruct G4 as [[_ ->]|(_ & k & -> & _)]; reflexivity. }
  assert (HCpar : Forall (fun c => size pre <= parent c < size pre + size L) C).
  { apply Forall_lookup_2. intros m c Hm.
    destruct (layout_child_lookup _ _ _ _ _ _ _ _ Hm)
      as (j & n' & nplc & l & _ & _ & _ & GL & Gc).
    apply lookup_lt_Some in GL. fold lay in GL. fold L in GL.
    destruct Gc as [[-> _]|[-> _]]; simpl; unfold size; lia. }
  assert (HLok : level_ok L).
  { split.
    - intros E. rewrite E in HlenL. destruct lvl; [contradiction|discriminate].
    - replace (size L) with (size lvl) by (unfold size; lia). apply layout_nn_level. }
  exists (ls ++ [L]). split; [rewrite concat_app, Hpre; simpl; rewrite app_nil_r; reflexivity|].
  split; [apply Forall_app; split; [exact Hls|constructor; [exact HLok|constructor]]|].
  rewrite <- app_assoc. simpl app.
  destruct ls as [|R ls0].
  - simpl in Hfrom. destruct Hfrom as [(r & -> & Hr) _].
    simpl in Hpre. subst pre. change (size (@nil bvh_node)) with 0 in HCpar.
    inversion HLpar as [|? r1 ? L1 Er HL1]; subst. inversion HL1; subst.
    simpl. split; [exists r1; split; [reflexivity|congruence]|].
    split; [|exact I]. rewrite <- H1 in HCpar. exact HCpar.
  - simpl in Hfrom. destruct Hfrom as [HR Hpar]. simpl. split; [exact HR|].
    apply (levels_par_step ls0 0 R lvl L C Hpar HLpar).
    rewrite Hpre in HCpar. simpl concat in HCpar. rewrite size_app in HCpar.
    eapply Forall_impl; [exact HCpar|]. intros c Hc. simpl in Hc. lia.
Qed.

Lemma build_levels_lev fuel : forall d pre lvl nl t nl',
  0 <= d -> inv d (pre ++ lvl) (size lvl) -> lev pre lvl ->
  build_levels srt_mcodes srt_lbs srt_ubs fuel (pre ++ lvl) (size lvl) nl = Done (t, nl') ->
  lev t [].
Proof.
  induction fuel as [|fuel IH]; intros d pre lvl nl t nl' Hd Hinv Hlev Hrun; simpl in Hrun.
  - destruct (size lvl =? 0) eqn:E0; [|discriminate].
    apply Z.eqb_eq in E0. inversion Hrun; subst.
    destruct lvl; [|unfold size in E0; simpl in E0; lia].
    rewrite app_nil_r. exact Hlev.
  - destruct (size lvl =? 0) eqn:E0.
    + apply Z.eqb_eq in E0. inversion Hrun; subst.
      destruct lvl; [|unfold size in E0; simpl in E0; lia].
      rewrite app_nil_r. exact Hlev.
    + apply Z.eqb_neq in E0.
      apply obind_Done in Hrun as ([tree1 next1] & Hstep & Hrun). simpl in Hrun.
      pose proof (inv_parts d pre lvl Hinv) as Hpend.
      destruct (level_step_run d _ _ Hd Hinv)
        as [(tree' & next & Hstep' & Hinv' & _) | [[Hex|Hex] _]]; try congruence.
      rewrite Hstep in Hstep'. inversion Hstep'; subst tree' next.
      destruct (level_step_shape d pre lvl tree1 next1 Hd Hpend Hstep)
        as (lvl' & ncs & nplcs & n_leaf & Hcl & Hshape).
      cbv zeta in Hshape. destruct Hshape as (-> & -> & HlenL & _).
      rewrite app_assoc in Hrun, Hinv'.
      apply (IH (d + 1) _ _ _ _ _ ltac:(lia) Hinv') in Hrun; [exact Hrun|].
      apply (lev_step d pre lvl lvl' ncs nplcs n_leaf); try assumption.
      intros E. rewrite E in E0. apply E0. reflexivity.
Qed.

Lemma concat_struct ls : forall t',
  Forall2 same_struct (concat ls) t' ->
  exists ls', t' = concat ls' /\ Forall2 (Forall2 same_struct) ls ls'.
Proof.
  induction ls as [|L ls IH]; intros t' H; simpl in H.
  - inversion H; subst. exists []. split; [reflexivity|constructor].
  - apply Forall2_app_inv_l in H as (k1 & k2 & H1 & H2 & ->).
    destruct (IH _ H2) as (ls' & -> & Hls').
    exists (k1 :: ls'). split; [reflexivity|]. constructor; assumption.
Qed.

Lemma level_ok_struct L L' : Forall2 same_struct L L' -> level_ok L -> level_ok L'.
Proof.
  intros H [Hne Hnn]. pose proof (Forall2_length _ _ _ H) as Hlen. split.
  - intros ->. destruct L; [contradiction|discriminate].
  - apply Forall_lookup_2. intros j n' Hj.
    destruct (Forall2_lookup_r _ _ _ _ _ H Hj) as (n & Hn & (_ & _ & _ & _ & _ & En & _)).
    rewrite En, (Forall_lookup_1 _ _ _ _ Hnn Hn). unfold size. lia.
Qed.

Lemma levels_par_struct ls : forall ls' o P P',
  Forall2 (Forall2 same_struct) ls ls' -> Forall2 same_struct P P' ->
  levels_par o P ls -> levels_par o P' ls'.
Proof.
  induction ls as [|L ls IH]; intros ls' o P P' Hls HP H.
  - inversion Hls; subst. exact I.
  - inversion Hls as [|? L' ? ls1 HL Hrest]; subst. simpl in H. destruct H as [H0 H].
    pose proof (Forall2_length _ _ _ HP) as Hlen.
    simpl. split.
    + apply Forall_lookup_2. intros j n' Hj.
      destruct (Forall2_lookup_r _ _ _ _ _ HL Hj) as (n & Hn & (_ & _ & Ep & _)).
      rewrite Ep. pose proof (Forall_lookup_1 _ _ _ _ H0 Hn) as Hr.
      simpl in Hr. unfold size in *. lia.
    + replace (size P') with (size P) by (unfold size; lia).
      apply (IH _ _ L); assumption.
Qed.

(** The completed tree, level by level. *)
Lemma construct_levels fuel tree :
  1 <= nparts ->
  construct_bvh_tree srt_mcodes srt_lbs srt_ubs fuel nparts = Done tree ->
  exists ls, tree = concat ls /\ Forall level_ok ls /\ levels_from ls.
Proof.
  intros HP Hrun. unfold construct_bvh_tree in Hrun.
  apply obind_Done in Hrun as (e & He & Hrun).
  apply numeric_cast_u32_Done in He as [-> _].
  apply obind_Done in Hrun as ([t1 nl] & Hlv & Hbw). simpl fst in Hbw.
  set (root := mk_bvh_node 0 nparts (-1) (-1) (-1) default_lb default_ub 0 0) in *.
  assert (Hlev : lev t1 []).
  { apply (build_levels_lev fuel 0 [] [root] 0 t1 nl);
      [lia|exact (inv_root HP)|exact lev_root|exact Hlv]. }
  pose proof (backward_pass_struct _ _ Hbw) as Hst.
  destruct Hlev as (ls & -> & Hls & Hfrom).
  destruct (concat_struct ls tree Hst) as (ls' & -> & Hls').
  exists ls'. split; [reflexivity|]. split.
  - clear -Hls Hls'. induction Hls' as [|L L' ls ls' HL _ IH]; [constructor|].
    inversion Hls; subst. constructor; [apply (level_ok_struct L L'); assumption|].
    apply IH. assumption.
  - destruct ls as [|R ls0]; [simpl in Hfrom; destruct Hfrom as [(r & E & _) _]; discriminate|].
    simpl in Hfrom. destruct Hfrom as [(r & -> & Hr) Hpar].
    apply levels_par_drop in Hpar.
    inversion Hls' as [|? R' ? ls1 HR Hrest]; subst.
    inversion HR as [|? r' ? R1 Er HR1]; subst. inversion HR1; subst.
    simpl. split.
    + exists r'. split; [reflexivity|]. destruct Er as (_ & _ & Ep & _). congruence.
    + apply (levels_par_struct ls0 ls1 0 [r] [r']); assumption.
Qed.

End BuilderCorrect.


(** ** Completed trees *)


Lemma Sorted_at (l : list Z) :
  Sorted Z.le l ->
  forall i j, 0 <= i -> i <= j -> j < size l -> at_ l i <= at_ l j.
Proof.
  intros Hs. apply Sorted_StronglySorted in Hs; [|intros x y z; apply Z.le_trans].
  assert (Hnat : forall (i j : nat) x y, (i <= j)%nat -> l !! i = Some x -> l !! j = Some y -> x <= y).
  { induction Hs as [|a l Hs IH Hall]; intros i j x y Hij Hx Hy; [destruct i; discriminate|].
    destruct i as [|i], j as [|j]; simpl in *.
    - inversion Hx; inversion Hy; subst. lia.
    - inversion Hx; subst. rewrite List.Forall_forall in Hall. apply Hall.
      apply list_elem_of_In. eapply list_elem_of_lookup_2. exact Hy.
    - lia.
    - apply (IH i j); [lia|assumption|assumption]. }
  intros i j Hi Hij Hj. unfold at_, size in *.
  destruct (lookup_lt_is_Some_2 l (Z.to_nat i)) as [x Hx]; [lia|].
  destruct (lookup_lt_is_Some_2 l (Z.to_nat j)) as [y Hy]; [lia|].
  rewrite (list_lookup_total_correct _ _ _ Hx), (list_lookup_total_correct _ _ _ Hy).
  apply (Hnat (Z.to_nat i) (Z.to_nat j)); [lia|assumption|assumption].
Qed.

Lemma Forall_at (P : Z -> Prop) (l : list Z) :
  List.Forall P l -> forall i, 0 <= i < size l -> P (at_ l i).
Proof.
  intros H i Hi. unfold at_, size in *.
  destruct (lookup_lt_is_Some_2 l (Z.to_nat i)) as [x Hx]; [lia|].
  rewrite (list_lookup_total_correct _ _ _ Hx).
  rewrite List.Forall_forall in H. apply H.
  apply list_elem_of_In. eapply list_elem_of_lookup_2. exact Hx.
Qed.

(** Morton codes as the sort phase leaves them: nondecreasing 64-bit
    values. *)
Definition u64 (c : Z) : Prop := 0 <= c < 2 ^ 64.

Lemma completed_tree_final_ok codes lbs ubs fuel tree i n :
  Sorted Z.le codes -> List.Forall u64 codes -> 1 <= size codes ->
  construct_bvh_tree codes lbs ubs fuel (size codes) = Done tree ->
  tree !! i = Some n ->
  final_ok codes tree (Z.of_nat i) n.
Proof.
  intros Hs Hu HP Hrun Hn.
  assert (Hu32 : size codes <= u32_max).
  { unfold construct_bvh_tree in Hrun. apply obind_Done in Hrun as (e & He & _).
    apply numeric_cast_u32_Done in He. lia. }
  apply (construct_final_ok codes lbs ubs (Sorted_at codes Hs)) with (fuel := fuel);
    try assumption.
  - intros k Hk. apply (Forall_at u64 codes Hu k Hk).
  - intros k Hk. apply (Forall_at u64 codes Hu k Hk).
Qed.

(** Completed trees exist: with at most [2^30] particles no overflow
    check fires, and 65 rounds of the level loop are enough. *)
Lemma completed_tree_exists codes lbs ubs fuel :
  Sorted Z.le codes -> List.Forall u64 codes ->
  1 <= size codes <= 2 ^ 30 -> (65 <= fuel)%nat ->
  exists tree, construct_bvh_tree codes lbs ubs fuel (size codes) = Done tree.
Proof.
  intros Hs Hu HP Hfuel. change (2 ^ 30) with 1073741824 in HP.
  apply (construct_returns codes lbs ubs (Sorted_at codes Hs)); try assumption.
  - intros k Hk. apply (Forall_at u64 codes Hu k Hk).
  - intros k Hk. apply (Forall_at u64 codes Hu k Hk).
  - unfold u32_max. lia.
Qed.

(** C4. In every completed tree over [P >= 1] particles each node has
    [end > begin], and each internal node [N] has
    [tree[N.left].begin = N.begin], [tree[N.right].end = N.end],
    [tree[N.left].end = tree[N.right].begin] and [tree[N.left].end < N.end];
    both children are non-empty. *)
Theorem bvh_range_invariant codes lbs ubs fuel tree i n :
  Sorted Z.le codes -> List.Forall u64 codes -> 1 <= size codes ->
  construct_bvh_tree codes lbs ubs fuel (size codes) = Done tree ->
  tree !! i = Some n ->
  begin n < end_ n /\
  (left n <> -1 ->
   begin (at_ tree (left n)) = begin n /\
   end_ (at_ tree (right n)) = end_ n /\
   end_ (at_ tree (left n)) = begin (at_ tree (right n)) /\
   end_ (at_ tree (left n)) < end_ n /\
   begin (at_ tree (left n)) < end_ (at_ tree (left n)) /\
   begin (at_ tree (right n)) < end_ (at_ tree (right n))).
Proof.
  intros Hs Hu HP Hrun Hn.
  destruct (completed_tree_final_ok codes lbs ubs fuel tree i n Hs Hu HP Hrun Hn)
    as (Hr & _ & Hcase).
  split; [lia|]. intros Hleft.
  destruct Hcase as [[Hl _]|(_ & _ & _ & lc & rc & Hlc & Hrc & H1 & H2 & H3 & H4 & H5 & _)];
    [contradiction|].
  unfold at_. rewrite (list_lookup_total_correct _ _ _ Hlc), (list_lookup_total_correct _ _ _ Hrc).
  repeat split; lia.
Qed.

(** C5. In every completed tree, the [split_idx] of an internal node [N]
    is the index, counted from the most significant bit, of the first bit
    in which the sorted codes at positions [tree[N.left].end - 1] and
    [tree[N.left].end] differ. *)
Theorem bvh_split_rule codes lbs ubs fuel tree i n :
  Sorted Z.le codes -> List.Forall u64 codes -> 1 <= size codes ->
  construct_bvh_tree codes lbs ubs fuel (size codes) = Done tree ->
  tree !! i = Some n ->
  left n <> -1 ->
  split_idx n
  = first_diff_bit (at_ codes (end_ (at_ tree (left n)) - 1))
                   (at_ codes (end_ (at_ tree (left n)))).
Proof.
  intros Hs Hu HP Hrun Hn Hleft.
  destruct (completed_tree_final_ok codes lbs ubs fuel tree i n Hs Hu HP Hrun Hn)
    as (_ & _ & Hcase).
  destruct Hcase as [[Hl _]|(_ & _ & _ & lc & rc & Hlc & _ & _ & _ & _ & _ & _ & Hfd)];
    [contradiction|].
  unfold at_ at 2 4. rewrite (list_lookup_total_correct _ _ _ Hlc).
  symmetry. exact Hfd.
Qed.

(** Scenario S3: three particles, the first two share a code. *)
Definition s3_codes : list Z := [5; 5; 6].
Definition s3_boxes : list array4 := [pt (fl 1 0); pt (fl 1 1); pt (fl 3 0)].
Definition s3_tree : list bvh_node :=
  Eval vm_compute in
    match construct_bvh_tree s3_codes s3_boxes s3_boxes 3 3 with
    | Done t => t
    | _ => []
    end.
Definition s3_root : bvh_node := Eval vm_compute in at_ s3_tree 0.

Lemma s3_codes_sorted : Sorted Z.le s3_codes.
Proof. repeat constructor; lia. Qed.

Lemma s3_codes_u64 : List.Forall u64 s3_codes.
Proof. repeat constructor; unfold u64; lia. Qed.

Lemma bvh_range_invariant_witness :
  begin s3_root < end_ s3_root /\
  (left s3_root <> -1 ->
   begin (at_ s3_tree (left s3_root)) = begin s3_root /\
   end_ (at_ s3_tree (right s3_root)) = end_ s3_root /\
   end_ (at_ s3_tree (left s3_root)) = begin (at_ s3_tree (right s3_root)) /\
   end_ (at_ s3_tree (left s3_root)) < end_ s3_root /\
   begin (at_ s3_tree (left s3_root)) < end_ (at_ s3_tree (left s3_root)) /\
   begin (at_ s3_tree (right s3_root)) < end_ (at_ s3_tree (right s3_root))).
Proof.
  apply (bvh_range_invariant s3_codes s3_boxes s3_boxes 3 s3_tree 0 s3_root).
  - exact s3_codes_sorted.
  - exact s3_codes_u64.
  - vm_compute. discriminate.
  - vm_compute. reflexivity.
  - reflexivity.
Defined.

Lemma bvh_split_rule_witness :
  split_idx s3_root
  = first_diff_bit (at_ s3_codes (end_ (at_ s3_tree (left s3_root)) - 1))
                   (at_ s3_codes (end_ (at_ s3_tree (left s3_root)))).
Proof.
  apply (bvh_split_rule s3_codes s3_boxes s3_boxes 3 s3_tree 0 s3_root).
  - exact s3_codes_sorted.
  - exact s3_codes_u64.
  - vm_compute. discriminate.
  - vm_compute. reflexivity.
  - reflexivity.
  - vm_compute. discriminate.
Defined.

(** ** Termination of the level loop *)

Lemma classify_deep codes lbs ubs n :
  63 < split_idx n ->
  exists n', classify codes lbs ubs n = Done (n', 0, 0) /\ split_idx n' = split_idx n.
Proof.
  intros H. unfold classify.
  replace (split_idx n <=? 63) with false by (symmetry; apply Z.leb_gt; lia).
  rewrite andb_false_r.
  destruct (leaf_aabb _ _ _ _ _ _) as [l u]. eexists. split; reflexivity.
Qed.

Lemma finalise_children cts cur nb ncs nplcs ps tree node_idx t1 :
  finalise cts cur nb ncs nplcs ps tree node_idx = Done t1 ->
  at_ ncs (node_idx - nb) <> 0 ->
  0 <= node_idx < cts + at_ ps (node_idx - nb) - 2 ->
  cts + at_ ps (node_idx - nb) - 2 + 1 < size tree ->
  let lc := at_ t1 (cts + at_ ps (node_idx - nb) - 2) in
  let rc := at_ t1 (cts + at_ ps (node_idx - nb) - 2 + 1) in
  left (at_ t1 node_idx) = cts + at_ ps (node_idx - nb) - 2 /\
  right (at_ t1 node_idx) = cts + at_ ps (node_idx - nb) - 2 + 1 /\
  parent lc = node_idx /\ parent rc = node_idx /\
  split_idx lc = wrap32 (split_idx (at_ tree node_idx) + 1) /\
  split_idx rc = wrap32 (split_idx (at_ tree node_idx) + 1).
Proof.
  intros Hf Hnc Hidx Hsz.
  rewrite finalise_internal in Hf by (try assumption; lia).
  destruct (_ <=? i32_max); [|discriminate].
  inversion Hf; subst t1; clear Hf. cbv zeta.
  set (lc_idx := cts + at_ ps (node_idx - nb) - 2) in *.
  set (n2 := set_children _ _ _). set (lc := left_child _ _ _). set (rc := right_child _ _ _).
  unfold size in Hsz.
  assert (Ha : at_ (<[Z.to_nat (lc_idx + 1) := rc]>
                      (<[Z.to_nat lc_idx := lc]> (<[Z.to_nat node_idx := n2]> tree))) node_idx = n2).
  { unfold at_. rewrite !list_lookup_total_insert_ne by lia.
    apply list_lookup_total_insert_eq. lia. }
  assert (Hb : at_ (<[Z.to_nat (lc_idx + 1) := rc]>
                      (<[Z.to_nat lc_idx := lc]> (<[Z.to_nat node_idx := n2]> tree))) lc_idx = lc).
  { unfold at_. rewrite list_lookup_total_insert_ne by lia.
    apply list_lookup_total_insert_eq. rewrite length_insert. lia. }
  assert (Hc : at_ (<[Z.to_nat (lc_idx + 1) := rc]>
                      (<[Z.to_nat lc_idx := lc]> (<[Z.to_nat node_idx := n2]> tree))) (lc_idx + 1) = rc).
  { unfold at_. apply list_lookup_total_insert_eq. rewrite !length_insert. lia. }
  rewrite Ha, Hb, Hc. subst n2 lc rc. simpl. repeat split; reflexivity.
Qed.

(** C9. The level loop stops within 65 iterations for every [P >= 1]
    and every sorted code array: it leaves with [cur_n_nodes = 0] and at
    most 65 levels, unless an overflow check or a [numeric_cast] throws,
    which needs more than [2^30] particles. The two facts behind it: a
    node whose [split_idx] exceeds 63 is classified a leaf, and step 4
    gives both children the [split_idx] of their parent plus one. *)
Theorem build_levels_terminates codes lbs ubs fuel :
  Sorted Z.le codes -> List.Forall u64 codes ->
  1 <= size codes <= u32_max -> (65 <= fuel)%nat ->
  let root := mk_bvh_node 0 (size codes) (-1) (-1) (-1) default_lb default_ub 0 0 in
  let run := build_levels codes lbs ubs fuel [root] 1 0 in
  ((exists tree n_levels, run = Done (tree, n_levels) /\ 0 <= n_levels <= 65) \/
   ((run = OverflowError \/ run = BadNumericCast) /\ 2 ^ 30 < size codes)) /\
  (forall n, 63 < split_idx n ->
             exists n', classify codes lbs ubs n = Done (n', 0, 0)) /\
  (forall cts cur nb ncs nplcs ps tree node_idx t1,
      finalise cts cur nb ncs nplcs ps tree node_idx = Done t1 ->
      at_ ncs (node_idx - nb) <> 0 ->
      0 <= node_idx < cts + at_ ps (node_idx - nb) - 2 ->
      cts + at_ ps (node_idx - nb) - 2 + 1 < size tree ->
      split_idx (at_ t1 (left (at_ t1 node_idx)))
      = wrap32 (split_idx (at_ tree node_idx) + 1) /\
      split_idx (at_ t1 (right (at_ t1 node_idx)))
      = wrap32 (split_idx (at_ tree node_idx) + 1)).
Proof.
  intros Hs Hu HP Hfuel root run. split; [|split].
  - destruct (build_levels_run codes lbs ubs (Sorted_at codes Hs)
                (fun k Hk => proj1 (Forall_at u64 codes Hu k Hk))
                (proj2 HP) fuel 0 [root] 1 0)
      as [(t & k & Hrun & Hk & _) | [Hex Hbig]]; try lia.
    + apply inv_root; try lia.
      * intros k Hk. apply (Forall_at u64 codes Hu k Hk).
      * intros k Hk. apply (Forall_at u64 codes Hu k Hk).
    + left. exists t, (0 + k). split; [exact Hrun|lia].
    + right. split; [exact Hex|]. change (2 ^ 30) with 1073741824. exact Hbig.
  - intros n Hn. destruct (classify_deep codes lbs ubs n Hn) as (n' & Hc & _). eauto.
  - intros cts cur nb ncs nplcs ps tree node_idx t1 Hf Hnc Hidx Hsz.
    destruct (finalise_children _ _ _ _ _ _ _ _ _ Hf Hnc Hidx Hsz)
      as (Hl & Hr & _ & _ & H1 & H2).
    rewrite Hl, Hr. split; assumption.
Qed.

Lemma build_levels_terminates_witness :
  (exists tree n_levels,
      build_levels s3_codes s3_boxes s3_boxes 65
                   [mk_bvh_node 0 (size s3_codes) (-1) (-1) (-1) default_lb default_ub 0 0] 1 0
      = Done (tree, n_levels) /\ 0 <= n_levels <= 65) \/
  ((build_levels s3_codes s3_boxes s3_boxes 65
                 [mk_bvh_node 0 (size s3_codes) (-1) (-1) (-1) default_lb default_ub 0 0] 1 0
    = OverflowError \/
    build_levels s3_codes s3_boxes s3_boxes 65
                 [mk_bvh_node 0 (size s3_codes) (-1) (-1) (-1) default_lb default_ub 0 0] 1 0
    = BadNumericCast) /\ 2 ^ 30 < size s3_codes).
Proof.
  apply (build_levels_terminates s3_codes s3_boxes s3_boxes 65).
  - exact s3_codes_sorted.
  - exact s3_codes_u64.
  - vm_compute. split; discriminate.
  - lia.
Defined.


(** ** The builder on an empty chunk *)

(** C10. With no particle ([nparts = 0]) the builder still returns a
    tree of exactly one node: a root leaf with [begin = end = 0],
    [parent = left = right = -1], [split_idx = 0], [nn_level = 1] and the
    bounds left at [(+inf, -inf)]. The range of that node is empty and its
    box is not finite, so both invariants need [nparts >= 1]. *)
Theorem construct_bvh_tree_empty (fuel : nat) :
  construct_bvh_tree [] [] [] (S fuel) 0
  = Done [mk_bvh_node 0 0 (-1) (-1) (-1) default_lb default_ub 1 0].
Proof. destruct fuel; reflexivity. Qed.

(** ** The order of IEEE-754 values and the folds of [std::min]/[std::max] *)

Definition not_nan (f : spec_float) : Prop := f <> S754_nan.

Definition no_nan4 (a : array4) : Prop :=
  not_nan (a_x a) /\ not_nan (a_y a) /\ not_nan (a_z a) /\ not_nan (a_r a).

(** [m] is a least (greatest) element of [l]: it occurs in [l] and no
    element of [l] compares below (above) it. *)
Definition is_min_of (m : spec_float) (l : list spec_float) : Prop :=
  In m l /\ forall x, In x l -> SFltb x m = false.

Definition is_max_of (m : spec_float) (l : list spec_float) : Prop :=
  In m l /\ forall x, In x l -> SFltb m x = false.

(** The box [b] is the coordinate-wise minimum (maximum) of [boxes]. *)
Definition box_min_of (b : array4) (boxes : list array4) : Prop :=
  is_min_of (a_x b) (map a_x boxes) /\ is_min_of (a_y b) (map a_y boxes) /\
  is_min_of (a_z b) (map a_z boxes) /\ is_min_of (a_r b) (map a_r boxes).

Definition box_max_of (b : array4) (boxes : list array4) : Prop :=
  is_max_of (a_x b) (map a_x boxes) /\ is_max_of (a_y b) (map a_y boxes) /\
  is_max_of (a_z b) (map a_z boxes) /\ is_max_of (a_r b) (map a_r boxes).

Lemma SFltb_irrefl a : SFltb a a = false.
Proof.
  unfold SFltb, SFcompare. destruct a as [s|s| |s m e]; try destruct s; try reflexivity.
  - rewrite Z.compare_refl. change (Pos.compare_cont Eq m m) with (Pos.compare m m).
    rewrite Pos.compare_refl. reflexivity.
  - rewrite Z.compare_refl. change (Pos.compare_cont Eq m m) with (Pos.compare m m).
    rewrite Pos.compare_refl. reflexivity.
Qed.

Lemma SFltb_trans a b c : SFltb a b = true -> SFltb b c = true -> SFltb a c = true.
Proof.
  unfold SFltb, SFcompare.
  destruct a as [sa|sa| |sa ma ea], b as [sb|sb| |sb mb eb], c as [sc|sc| |sc mc ec];
    try destruct sa; try destruct sb; try destruct sc;
    try discriminate; try reflexivity;
    change (Pos.compare_cont Eq) with Pos.compare;
    repeat match goal with
           | |- context [Z.compare ?x ?y] => destruct (Z.compare_spec x y)
           | |- context [Pos.compare ?x ?y] => destruct (Pos.compare_spec x y)
           end; simpl; subst; try discriminate; try reflexivity; try lia.
Qed.

Lemma SFltb_finf a : not_nan a -> SFltb a finf = false -> a = finf.
Proof.
  unfold not_nan, finf, SFltb, SFcompare.
  destruct a as [s|s| |s m e]; try destruct s; intros H1 H2;
    try discriminate; try reflexivity; contradiction.
Qed.

Lemma SFltb_neg_finf a : not_nan a -> SFltb neg_finf a = false -> a = neg_finf.
Proof.
  unfold not_nan, neg_finf, SFltb, SFcompare.
  destruct a as [s|s| |s m e]; try destruct s; intros H1 H2;
    try discriminate; try reflexivity; contradiction.
Qed.

Lemma fold_min_acc l : forall acc seen,
  In acc seen -> (forall x, In x seen -> SFltb x acc = false) ->
  let m := fold_left std_min l acc in
  In m (seen ++ l) /\ forall x, In x (seen ++ l) -> SFltb x m = false.
Proof.
  induction l as [|y l IH]; intros acc seen Hin Hlow; simpl.
  - rewrite app_nil_r. split; assumption.
  - replace (seen ++ y :: l) with ((seen ++ [y]) ++ l) by (rewrite <- app_assoc; reflexivity).
    apply IH.
    + unfold std_min. destruct (SFltb y acc); apply in_or_app; [right; left; reflexivity|left; exact Hin].
    + intros x Hx. unfold std_min. destruct (SFltb y acc) eqn:E.
      * apply in_app_or in Hx as [Hx|[<-|[]]]; [|apply SFltb_irrefl].
        destruct (SFltb x y) eqn:Exy; [|reflexivity].
        rewrite <- (Hlow x Hx). symmetry. apply (SFltb_trans x y acc); assumption.
      * apply in_app_or in Hx as [Hx|[<-|[]]]; [apply Hlow; exact Hx|exact E].
Qed.

Lemma fold_max_acc l : forall acc seen,
  In acc seen -> (forall x, In x seen -> SFltb acc x = false) ->
  let m := fold_left std_max l acc in
  In m (seen ++ l) /\ forall x, In x (seen ++ l) -> SFltb m x = false.
Proof.
  induction l as [|y l IH]; intros acc seen Hin Hlow; simpl.
  - rewrite app_nil_r. split; assumption.
  - replace (seen ++ y :: l) with ((seen ++ [y]) ++ l) by (rewrite <- app_assoc; reflexivity).
    apply IH.
    + unfold std_max. destruct (SFltb acc y); apply in_or_app; [right; left; reflexivity|left; exact Hin].
    + intros x Hx. unfold std_max. destruct (SFltb acc y) eqn:E.
      * apply in_app_or in Hx as [Hx|[<-|[]]]; [|apply SFltb_irrefl].
        destruct (SFltb y x) eqn:Exy; [|reflexivity].
        rewrite <- (Hlow x Hx). symmetry. apply (SFltb_trans acc y x); assumption.
      * apply in_app_or in Hx as [Hx|[<-|[]]]; [apply Hlow; exact Hx|exact E].
Qed.

(** Started from [+inf] ([-inf]), the fold of [std::min] ([std::max])
    over a non-empty list without NaN returns a least (greatest) element. *)
Lemma fold_min_is_min l :
  l <> [] -> List.Forall not_nan l -> is_min_of (fold_left std_min l finf) l.
Proof.
  intros Hne Hnan.
  destruct (fold_min_acc l finf [finf]) as [Hin Hlow].
  - left; reflexivity.
  - intros x [<-|[]]. apply SFltb_irrefl.
  - simpl in Hin, Hlow. split.
    + destruct Hin as [Hin|Hin]; [|exact Hin].
      destruct l as [|y l]; [contradiction|].
      rewrite <- Hin. left.
      apply SFltb_finf; [inversion Hnan; assumption|].
      rewrite Hin. apply Hlow. right; left; reflexivity.
    + intros x Hx. apply Hlow. right. exact Hx.
Qed.

Lemma fold_max_is_max l :
  l <> [] -> List.Forall not_nan l -> is_max_of (fold_left std_max l neg_finf) l.
Proof.
  intros Hne Hnan.
  destruct (fold_max_acc l neg_finf [neg_finf]) as [Hin Hlow].
  - left; reflexivity.
  - intros x [<-|[]]. apply SFltb_irrefl.
  - simpl in Hin, Hlow. split.
    + destruct Hin as [Hin|Hin]; [|exact Hin].
      destruct l as [|y l]; [contradiction|].
      rewrite <- Hin. left.
      apply SFltb_neg_finf; [inversion Hnan; assumption|].
      rewrite Hin. apply Hlow. right; left; reflexivity.
    + intros x Hx. apply Hlow. right. exact Hx.
Qed.

(** ** Scenario S2: four particles with one Morton code *)

Lemma at_equal4 (c i : Z) : 0 <= i < 4 -> at_ [c; c; c; c] i = c.
Proof.
  intros H. assert (Hi : i = 0 \/ i = 1 \/ i = 2 \/ i = 3) by lia.
  destruct Hi as [-> | [-> | [-> | ->]]]; reflexivity.
Qed.

Lemma find_flip_equal4 c s :
  find_flip [c; c; c; c] 0 4 s = if Z.land c (split_mask s) <? 1 then 4 else 0.
Proof.
  unfold find_flip.
  assert (Hc : forall i, 0 <= i < 4 ->
                         bit_comp [c; c; c; c] s i = (Z.land c (split_mask s) <? 1)).
  { intros i Hi. unfold bit_comp. rewrite at_equal4 by lia. reflexivity. }
  pose proof (lower_bound_range (bit_comp [c; c; c; c] s) 0 4 ltac:(lia)) as Hr.
  destruct (lower_bound_partition (bit_comp [c; c; c; c] s) 0 4 ltac:(lia)) as [L1 L2].
  { intros i j Hi Hij Hj. rewrite !Hc by lia. auto. }
  set (r := lower_bound (bit_comp [c; c; c; c] s) 0 4) in *.
  destruct (Z.land c (split_mask s) <? 1) eqn:E.
  - destruct (Z_lt_le_dec r 4) as [Hlt|]; [|lia].
    specialize (L2 r ltac:(lia)). rewrite Hc in L2 by lia. discriminate.
  - destruct (Z_lt_le_dec 0 r) as [Hlt|]; [|lia].
    specialize (L1 0 ltac:(lia)). rewrite Hc in L1 by lia. discriminate.
Qed.

Lemma bump_loop_equal4 c fuel :
  forall s p, 0 <= s <= 63 -> (Z.to_nat (64 - s) <= fuel)%nat -> p = 0 \/ p = 4 ->
              exists p', bump_loop [c; c; c; c] fuel 0 4 s p = (true, 63, p').
Proof.
  induction fuel as [|fuel IH]; intros s p Hs Hfuel Hp; [lia|].
  simpl. replace ((p =? 0) || (p =? 4)) with true
    by (destruct Hp as [-> | ->]; reflexivity).
  destruct (s =? 63) eqn:E.
  - apply Z.eqb_eq in E. subst s. eauto.
  - apply Z.eqb_neq in E. rewrite wrap32_small by (unfold u32_max; lia).
    apply IH; [lia|lia|]. rewrite find_flip_equal4.
    destruct (Z.land c (split_mask (s + 1)) <? 1); auto.
Qed.

Definition min4 (a b c d : array4) : array4 :=
  array4_map2 std_min (array4_map2 std_min (array4_map2 std_min
    (array4_map2 std_min default_lb a) b) c) d.

Definition max4 (a b c d : array4) : array4 :=
  array4_map2 std_max (array4_map2 std_max (array4_map2 std_max
    (array4_map2 std_max default_ub a) b) c) d.

Lemma construct_equal4 c l0 l1 l2 l3 u0 u1 u2 u3 fuel :
  construct_bvh_tree [c; c; c; c] [l0; l1; l2; l3] [u0; u1; u2; u3] (S fuel) 4
  = Done [mk_bvh_node 0 4 (-1) (-1) (-1) (min4 l0 l1 l2 l3) (max4 u0 u1 u2 u3) 1 63].
Proof.
  unfold construct_bvh_tree. simpl numeric_cast_u32. simpl obind.
  assert (Hc : classify [c; c; c; c] [l0; l1; l2; l3] [u0; u1; u2; u3]
                 (mk_bvh_node 0 4 (-1) (-1) (-1) default_lb default_ub 0 0)
               = Done (mk_bvh_node 0 4 (-1) (-1) (-1) (min4 l0 l1 l2 l3) (max4 u0 u1 u2 u3) 0 63, 0, 0)).
  { unfold classify. simpl begin. simpl end_. simpl split_idx.
    change ((1 <? wrap32 (4 - 0)) && (0 <=? 63)) with true. cbv iota.
    destruct (bump_loop_equal4 c (Z.to_nat (64 - 0)) 0 (find_flip [c; c; c; c] 0 4 0))
      as [p' Hp']; [lia|lia| |].
    { rewrite find_flip_equal4. destruct (Z.land c (split_mask 0) <? 1); auto. }
    rewrite Hp'. reflexivity. }
  assert (Hl : level_step [c; c; c; c] [l0; l1; l2; l3] [u0; u1; u2; u3]
                 [mk_bvh_node 0 4 (-1) (-1) (-1) default_lb default_ub 0 0] 1
               = Done ([mk_bvh_node 0 4 (-1) (-1) (-1) (min4 l0 l1 l2 l3) (max4 u0 u1 u2 u3) 1 63], 0)).
  { unfold level_step. simpl size. change (1 >? u32_max / 2) with false. cbv iota.
    change (Z.to_nat (1 - 1)) with 0%nat. simpl drop. simpl take.
    unfold classify_level. rewrite Hc. reflexivity. }
  simpl build_levels. rewrite Hl. simpl obind.
  destruct fuel; reflexivity.
Qed.

(** The claim of scenario S2 fails on the [split_idx]: the root of four
    equal codes ends with [split_idx = 63]. *)
Lemma identical_codes_split_idx_not_64 :
  exists root,
    construct_bvh_tree [0; 0; 0; 0] [zero4; zero4; zero4; zero4]
                       [zero4; zero4; zero4; zero4] 2 4 = Done [root] /\
    split_idx root <> 64.
Proof. eexists. split; [vm_compute; reflexivity|]. simpl. discriminate. Qed.

(** C7, amended. For four particles with one Morton code the tree is
    the root alone, a leaf with [begin = 0], [end = 4], no children,
    [nn_level = 1] and [split_idx = 63]; when no input bound is a NaN its
    [lb] and [ub] are the coordinate-wise minimum and maximum of the four
    input boxes. *)
Theorem identical_codes_single_leaf c l0 l1 l2 l3 u0 u1 u2 u3 fuel :
  exists lb ub,
    construct_bvh_tree [c; c; c; c] [l0; l1; l2; l3] [u0; u1; u2; u3] (S fuel) 4
    = Done [mk_bvh_node 0 4 (-1) (-1) (-1) lb ub 1 63] /\
    (List.Forall no_nan4 [l0; l1; l2; l3] -> box_min_of lb [l0; l1; l2; l3]) /\
    (List.Forall no_nan4 [u0; u1; u2; u3] -> box_max_of ub [u0; u1; u2; u3]).
Proof.
  exists (min4 l0 l1 l2 l3), (max4 u0 u1 u2 u3).
  split; [apply construct_equal4|]. split; intros Hn.
  - assert (Hx : forall sel : array4 -> spec_float,
               (forall a, no_nan4 a -> not_nan (sel a)) ->
               is_min_of (fold_left std_min (map sel [l0; l1; l2; l3]) finf)
                         (map sel [l0; l1; l2; l3])).
    { intros sel Hsel. apply fold_min_is_min; [discriminate|].
      apply List.Forall_map. eapply List.Forall_impl; [|exact Hn]. exact Hsel. }
    repeat split.
    + apply (Hx a_x). intros a H; apply H.
    + apply (Hx a_x). intros a H; apply H.
    + apply (Hx a_y). intros a H; apply H.
    + apply (Hx a_y). intros a H; apply H.
    + apply (Hx a_z). intros a H; apply H.
    + apply (Hx a_z). intros a H; apply H.
    + apply (Hx a_r). intros a H; apply H.
    + apply (Hx a_r). intros a H; apply H.
  - assert (Hx : forall sel : array4 -> spec_float,
               (forall a, no_nan4 a -> not_nan (sel a)) ->
               is_max_of (fold_left std_max (map sel [u0; u1; u2; u3]) neg_finf)
                         (map sel [u0; u1; u2; u3])).
    { intros sel Hsel. apply fold_max_is_max; [discriminate|].
      apply List.Forall_map. eapply List.Forall_impl; [|exact Hn]. exact Hsel. }
    repeat split.
    + apply (Hx a_x). intros a H; apply H.
    + apply (Hx a_x). intros a H; apply H.
    + apply (Hx a_y). intros a H; apply H.
    + apply (Hx a_y). intros a H; apply H.
    + apply (Hx a_z). intros a H; apply H.
    + apply (Hx a_z). intros a H; apply H.
    + apply (Hx a_r). intros a H; apply H.
    + apply (Hx a_r). intros a H; apply H.
Qed.

Definition s2_boxes : list array4 :=
  [pt (fl 1 0); pt (fl 1 1); pt (fl 3 0); pt (fl 1 0)].

Lemma identical_codes_single_leaf_witness :
  exists lb ub,
    construct_bvh_tree [5; 5; 5; 5] s2_boxes s2_boxes 2 4
    = Done [mk_bvh_node 0 4 (-1) (-1) (-1) lb ub 1 63] /\
    box_min_of lb s2_boxes /\ box_max_of ub s2_boxes.
Proof.
  destruct (identical_codes_single_leaf 5
              (pt (fl 1 0)) (pt (fl 1 1)) (pt (fl 3 0)) (pt (fl 1 0))
              (pt (fl 1 0)) (pt (fl 1 1)) (pt (fl 3 0)) (pt (fl 1 0)) 1)
    as (lb & ub & H1 & H2 & H3).
  exists lb, ub. split; [exact H1|split].
  - apply H2. repeat constructor; discriminate.
  - apply H3. repeat constructor; discriminate.
Defined.

(** ** The Horner evaluation *)

(** The nested form [c0 + (c1 + (... + (c_{n-1} + c_n * h) * h ...) * h) * h]
    of a coefficient list [c0, ..., c_n]. *)
Fixpoint horner_nested (c : list spec_float) (h : ival) : ival :=
  match c with
  | [] => ival_of (S754_zero false)
  | [cn] => ival_of cn
  | c0 :: rest => ival_add (ival_of c0) (ival_mul (horner_nested rest h) h)
  end.

(** The formula as the specification words it: the innermost term is
    [c[0]] and the outermost addition uses [c[O]]. *)
Definition horner_as_specified (c : list spec_float) (h : ival) : ival :=
  horner_nested (rev c) h.

(** Scenario S5: [[-1, 2] * [-3, 4] = [-6, 8]]. *)
Example ival_mul_s5 :
  ival_mul (mk_ival (double_of_Z (-1)) (double_of_Z 2))
           (mk_ival (double_of_Z (-3)) (double_of_Z 4))
  = mk_ival (double_of_Z (-6)) (double_of_Z 8).
Proof. vm_compute. reflexivity. Qed.

Lemma horner_nested_cons c0 rest h :
  rest <> [] ->
  horner_nested (c0 :: rest) h
  = ival_add (ival_of c0) (ival_mul (horner_nested rest h) h).
Proof. destruct rest; [contradiction|reflexivity]. Qed.

Lemma horner_eval_steps (c : list spec_float) (h : ival) (order : nat) :
  length c = S order ->
  forall k, (k <= order)%nat ->
    fold_left
      (fun acc o => ival_add (ival_of (at_ c (Z.of_nat order - o))) (ival_mul acc h))
      (map Z.of_nat (seq 1 k))
      (ival_of (at_ c (Z.of_nat order)))
    = horner_nested (drop (order - k) c) h.
Proof.
  intros Hlen. induction k as [|k IH]; intros Hk.
  - simpl. rewrite Nat.sub_0_r.
    destruct (lookup_lt_is_Some_2 c order) as [x Hx]; [lia|].
    unfold at_. rewrite Nat2Z.id, (list_lookup_total_correct _ _ _ Hx).
    rewrite (drop_S _ _ _ Hx). rewrite drop_ge by lia. reflexivity.
  - rewrite seq_S, map_app, fold_left_app, IH by lia. simpl.
    destruct (lookup_lt_is_Some_2 c (order - S k)) as [x Hx]; [lia|].
    rewrite (drop_S _ _ _ Hx).
    replace (S (order - S k)) with (order - k)%nat by lia.
    rewrite horner_nested_cons.
    + unfold at_.
      replace (Z.to_nat (Z.of_nat order - Z.of_nat (S k))) with (order - S k)%nat by lia.
      rewrite (list_lookup_total_correct _ _ _ Hx). reflexivity.
    + intros E. apply (f_equal length) in E. rewrite length_drop in E. simpl in E. lia.
Qed.

(** The evaluator disagrees with the formula as specified: for
    [x(t) = t] (coefficients [0, 1]) on [h = [2, 3]] the code returns
    [[2, 3]] and the specified formula [[1, 1]]. *)
Lemma horner_not_as_specified :
  horner_eval 1 (mk_ival (double_of_Z 2) (double_of_Z 3)) [double_of_Z 0; double_of_Z 1]
  <> horner_as_specified [double_of_Z 0; double_of_Z 1]
                         (mk_ival (double_of_Z 2) (double_of_Z 3)).
Proof. vm_compute. discriminate. Qed.

(** C8, amended. For coefficients [c[0..O]] and an interval [h] the
    evaluator returns [c[0] + (c[1] + (... + (c[O-1] + c[O]*h)*h ...)*h)*h]:
    the innermost term is [c[O]] and the outermost addition uses [c[0]],
    with the interval addition and multiplication of C1. *)
Theorem horner_eval_nested (order : Z) (h : ival) (c : list spec_float) :
  0 <= order -> size c = order + 1 ->
  horner_eval order h c = horner_nested c h.
Proof.
  intros Ho Hsz. unfold horner_eval, size in *.
  pose proof (horner_eval_steps c h (Z.to_nat order) ltac:(lia) (Z.to_nat order) ltac:(lia)) as H.
  rewrite Z2Nat.id in H by lia. rewrite Nat.sub_diag in H. simpl drop in H. exact H.
Qed.

Lemma horner_eval_nested_witness :
  horner_eval 1 (mk_ival (double_of_Z 2) (double_of_Z 3)) [double_of_Z 0; double_of_Z 1]
  = horner_nested [double_of_Z 0; double_of_Z 1] (mk_ival (double_of_Z 2) (double_of_Z 3)).
Proof.
  apply (horner_eval_nested 1); [lia|reflexivity].
Defined.

Example horner_code_value :
  horner_eval 1 (mk_ival (double_of_Z 2) (double_of_Z 3)) [double_of_Z 0; double_of_Z 1]
  = mk_ival (double_of_Z 2) (double_of_Z 3).
Proof. vm_compute. reflexivity. Qed.


(** ** The particles behind the last full batch *)

Lemma read2_write2_other {A} `{Inhabited A} (v : list (list A)) c p c' p' (x : A) :
  Z.to_nat c <> Z.to_nat c' \/ Z.to_nat p <> Z.to_nat p' ->
  read2 (write2 v c' p' x) c p = read2 v c p.
Proof.
  intros Hne. unfold read2, write2, at_.
  destruct (Nat.eq_dec (Z.to_nat c) (Z.to_nat c')) as [Ec|Ec].
  - destruct Hne as [Hne|Hne]; [contradiction|]. rewrite Ec.
    destruct (Nat.lt_ge_cases (Z.to_nat c') (length v)) as [Hlt|Hge].
    + rewrite list_lookup_total_insert_eq by exact Hlt.
      apply list_lookup_total_insert_ne. congruence.
    + rewrite list_insert_ge by exact Hge. reflexivity.
  - rewrite list_lookup_total_insert_ne by congruence. reflexivity.
Qed.

Section PropagateFacts.
Variable dfloat : Type.
Variable df_of_double : spec_float -> dfloat.
Variable df_lt : dfloat -> dfloat -> bool.
Variable df_sub : dfloat -> dfloat -> dfloat.
Variable df_to_double : dfloat -> spec_float.
Variable order : Z.
Variable batch_size : Z.
Variable integrate : Z -> list (s_data_t dfloat) * bool.
Hypothesis batch_size_pos : 0 < batch_size.

Local Notation "'lane_store''" :=
  (lane_store dfloat df_of_double df_lt df_sub df_to_double order batch_size).
Local Notation "'batch_store''" :=
  (batch_store dfloat df_of_double df_lt df_sub df_to_double order batch_size).
Local Notation "'integrate_range''" :=
  (integrate_range dfloat df_of_double df_lt df_sub df_to_double order batch_size integrate).
Local Notation "'batch_int_aabb''" :=
  (batch_int_aabb dfloat df_of_double df_lt df_sub df_to_double order batch_size integrate).

(** A slot keeps its boxes through any step that leaves it alone. *)
Definition keeps (c p : Z) (b b' : list (list array4) * list (list array4)) : Prop :=
  read2 (fst b') c p = read2 (fst b) c p /\ read2 (snd b') c p = read2 (snd b) c p.

Lemma keeps_refl c p b : keeps c p b b.
Proof. split; reflexivity. Qed.

Lemma keeps_trans c p b1 b2 b3 : keeps c p b1 b2 -> keeps c p b2 b3 -> keeps c p b1 b3.
Proof. unfold keeps. intros [H1 H2] [H3 H4]. split; congruence. Qed.

Lemma fold_keeps {I} (f : list (list array4) * list (list array4) -> I ->
                          list (list array4) * list (list array4)) c p (l : list I) :
  (forall b i, In i l -> keeps c p b (f b i)) ->
  forall b, keeps c p b (fold_left f l b).
Proof.
  induction l as [|i l IH]; intros Hf b; simpl; [apply keeps_refl|].
  eapply keeps_trans; [apply Hf; left; reflexivity|].
  apply IH. intros b' i' Hi'. apply Hf. right. exact Hi'.
Qed.

Lemma in_index_range i a b : In i (index_range a b) -> a <= i < b.
Proof.
  unfold index_range. rewrite in_map_iff. intros (k & <- & Hk).
  apply in_seq in Hk. lia.
Qed.

Lemma batch_store_keeps idx recs c p boxes :
  0 <= idx -> 0 <= p -> (idx + 1) * batch_size <= p ->
  keeps c p boxes (batch_store' idx recs boxes).
Proof.
  intros Hidx Hp Hlt. unfold batch_store. apply fold_keeps. intros b chunk_idx _.
  apply fold_keeps. intros b' i Hi. apply in_index_range in Hi.
  unfold lane_store, keeps. simpl fst. simpl snd.
  split; apply read2_write2_other; right; nia.
Qed.

Lemma integrate_range_keeps nb c p range :
  List.Forall (fun idx => 0 <= idx < nb) range -> 0 <= p -> nb * batch_size <= p ->
  forall boxes, keeps c p boxes (fst (integrate_range' range boxes)).
Proof.
  intros Hr Hp Hlt. induction Hr as [|idx range Hidx _ IH]; intros boxes; simpl.
  - apply keeps_refl.
  - destruct (integrate idx) as [recs ok]. destruct ok; simpl; [|apply keeps_refl].
    eapply keeps_trans; [|apply IH].
    apply batch_store_keeps; nia.
Qed.

Lemma reduce_chunk_boxes range st chunk_idx :
  st_lb (reduce_chunk batch_size range st chunk_idx) = st_lb st /\
  st_ub (reduce_chunk batch_size range st chunk_idx) = st_ub st.
Proof. split; reflexivity. Qed.

Lemma fold_reduce_chunk_boxes range chunks : forall st,
  st_lb (fold_left (reduce_chunk batch_size range) chunks st) = st_lb st /\
  st_ub (fold_left (reduce_chunk batch_size range) chunks st) = st_ub st.
Proof.
  induction chunks as [|c chunks IH]; intros st; simpl; [split; reflexivity|].
  destruct (IH (reduce_chunk batch_size range st c)) as [H1 H2].
  rewrite H1, H2. split; reflexivity.
Qed.

Lemma batch_int_aabb_keeps nb c p range st :
  List.Forall (fun idx => 0 <= idx < nb) range -> 0 <= p -> nb * batch_size <= p ->
  keeps c p (st_lb st, st_ub st)
        (st_lb (batch_int_aabb' range st), st_ub (batch_int_aabb' range st)).
Proof.
  intros Hr Hp Hlt. unfold batch_int_aabb.
  pose proof (integrate_range_keeps nb c p range Hr Hp Hlt (st_lb st, st_ub st)) as Hk.
  destruct (integrate_range' range (st_lb st, st_ub st)) as [boxes err].
  destruct (fold_reduce_chunk_boxes range (index_range 0 nchunks)
              (mk_aabb_state (fst boxes) (snd boxes) (global_lb_atomic st)
                             (global_ub_atomic st) (int_error st || err))) as [H1 H2].
  rewrite H1, H2. exact Hk.
Qed.

(** No particle from index [(nparts / batch_size) * batch_size] on gets
    a box: whatever the integrator does, its slot of every chunk holds
    after the phase what it held before. *)
Lemma propagate_for_aabb_tail nparts st c p :
  0 <= nparts -> (nparts / batch_size) * batch_size <= p ->
  read2 (st_lb (propagate_for_aabb dfloat df_of_double df_lt df_sub df_to_double
                                   order batch_size integrate nparts st)) c p
  = read2 (st_lb st) c p /\
  read2 (st_ub (propagate_for_aabb dfloat df_of_double df_lt df_sub df_to_double
                                   order batch_size integrate nparts st)) c p
  = read2 (st_ub st) c p.
Proof.
  intros HP Hp. unfold propagate_for_aabb, parallel_for_batches, n_batches. simpl fold_left.
  assert (H0 : 0 <= nparts / batch_size) by (apply Z.div_pos; lia).
  change (st_lb st) with (st_lb (reset_globals st)).
  change (st_ub st) with (st_ub (reset_globals st)).
  apply (batch_int_aabb_keeps (nparts / batch_size) c p); [|nia|exact Hp].
  apply List.Forall_forall. intros idx Hidx. apply in_index_range in Hidx. exact Hidx.
Qed.

End PropagateFacts.

(** ** The phase on concrete inputs *)

(** The state at the first superstep: the vectors freshly resized
    (value-initialised), the atomics default-constructed. *)
Definition fresh_state (nparts : Z) : aabb_state :=
  mk_aabb_state (replicate (Z.to_nat nchunks) (replicate (Z.to_nat nparts) zero4))
                (replicate (Z.to_nat nchunks) (replicate (Z.to_nat nparts) zero4))
                (replicate (Z.to_nat nchunks) default_global_lb)
                (replicate (Z.to_nat nchunks) default_global_ub)
                false.

(** Scenario S7: one particle with [x(t) = y(t) = z(t) = r(t) = t], taken
    by the integrator in a single substep of length [delta_t]; batches of
    one lane; a time type without low part. *)
Definition s7_record : s_data_t spec_float :=
  mk_s_data spec_float
            [double_of_Z 0; double_of_Z 1] [double_of_Z 0; double_of_Z 1]
            [double_of_Z 0; double_of_Z 1] [double_of_Z 0; double_of_Z 1]
            [delta_t].

Definition s7_state : aabb_state :=
  propagate_for_aabb spec_float (fun d => d) SFltb (SFsub 53 1024) (fun d => d)
                     1 1 (fun _ => ([s7_record], true)) 1 (fresh_state 1).


(** The reduction of a chunk never reads the upper bounds. *)
Lemma reduce_chunk_ignores_upper_bounds batch_size range st ubs chunk_idx :
  global_ub_atomic
    (reduce_chunk batch_size range
       (mk_aabb_state (st_lb st) ubs (global_lb_atomic st) (global_ub_atomic st) (int_error st))
       chunk_idx)
  = global_ub_atomic (reduce_chunk batch_size range st chunk_idx).
Proof. reflexivity. Qed.

(** C2 on scenario S7 (one particle, one batch). In chunk 0 the global
    lower bound is the particle's lower bound, as claimed; the global
    upper bound is the particle's lower bound too, and lies strictly
    below its upper bound: line 589 takes the maximum over [x_lb_ptr]. *)
Theorem global_ub_takes_lower_bounds :
  at_ (global_lb_atomic s7_state) 0 = read2 (st_lb s7_state) 0 0 /\
  at_ (global_ub_atomic s7_state) 0 = read2 (st_lb s7_state) 0 0 /\
  at_ (global_ub_atomic s7_state) 0 <> read2 (st_ub s7_state) 0 0 /\
  SFltb (a_x (at_ (global_ub_atomic s7_state) 0)) (a_x (read2 (st_ub s7_state) 0 0)) = true.
Proof. vm_compute. repeat split. discriminate. Qed.

(** C3 on three particles in batches of two: [s_rem = 1], and the box
    of particle 2 is, in every chunk and for every integrator, still the
    value-initialised one; it is never computed. *)
Theorem scalar_tail_left_out
        (dfloat : Type) (df_of_double : spec_float -> dfloat)
        (df_lt : dfloat -> dfloat -> bool) (df_sub : dfloat -> dfloat -> dfloat)
        (df_to_double : dfloat -> spec_float) (order : Z)
        (integrate : Z -> list (s_data_t dfloat) * bool) (chunk_idx : Z) :
  let st := propagate_for_aabb dfloat df_of_double df_lt df_sub df_to_double
                               order 2 integrate 3 (fresh_state 3) in
  s_rem 2 3 = 1 /\
  read2 (st_lb st) chunk_idx 2 = zero4 /\ read2 (st_ub st) chunk_idx 2 = zero4.
Proof.
  cbv zeta. split; [reflexivity|].
  destruct (propagate_for_aabb_tail dfloat df_of_double df_lt df_sub df_to_double
              order 2 integrate ltac:(lia) 3 (fresh_state 3) chunk_idx 2) as [H1 H2];
    [lia|vm_compute; discriminate|].
  rewrite H1, H2.
  assert (Hf : read2 (replicate (Z.to_nat nchunks) (replicate (Z.to_nat 3) zero4)) chunk_idx 2 = zero4).
  { unfold read2, at_. 
    destruct (Nat.lt_ge_cases (Z.to_nat chunk_idx) (Z.to_nat nchunks)) as [Hlt|Hge].
    - rewrite lookup_total_replicate_2 by exact Hlt. reflexivity.
    - assert (Hout : replicate (Z.to_nat nchunks) (replicate (Z.to_nat 3) zero4)
                       !!! Z.to_nat chunk_idx = []).
      { rewrite list_lookup_total_alt, lookup_ge_None_2; [reflexivity|].
        rewrite length_replicate. exact Hge. }
      rewrite Hout. reflexivity. }
  split; exact Hf.
Qed.


(** ** The Morton sort *)

(** Scenario S4: a coordinate at the upper end lands in the last bin. *)
Example disc_single_coord_clamps :
  disc_single_coord (float_of_Z 5) (float_of_Z 1) (float_of_Z 5) = 65535.
Proof. vm_compute. reflexivity. Qed.

(** The contract of a comparison sort: for a strict weak ordering the
    result is a permutation of the input in which no element compares
    below its predecessor. *)
Definition strict_weak_order (comp : Z -> Z -> bool) : Prop :=
  (forall a, comp a a = false) /\
  (forall a b c, comp a b = true -> comp b c = true -> comp a c = true) /\
  (forall a b c, comp a b = false -> comp b a = false ->
                 comp b c = false -> comp c b = false ->
                 comp a c = false /\ comp c a = false).

Definition sort_contract (sort : (Z -> Z -> bool) -> list Z -> list Z) : Prop :=
  forall comp l,
    strict_weak_order comp ->
    Permutation (sort comp l) l /\
    Sorted (fun a b => comp b a = false) (sort comp l).

Lemma key_order_strict_weak (key : Z -> Z) :
  strict_weak_order (fun a b => key a <? key b).
Proof.
  repeat split; intros; rewrite ?Z.ltb_lt, ?Z.ltb_ge in *; lia.
Qed.

Lemma at_index_range_map {A} `{Inhabited A} (f : Z -> A) (n i : Z) :
  0 <= i < n -> at_ (map f (index_range 0 n)) i = f i.
Proof.
  intros Hi. unfold at_, index_range. apply list_lookup_total_correct.
  change (map f (map (fun k => 0 + Z.of_nat k) (seq 0 (Z.to_nat (n - 0)))))
    with (f <$> ((fun k => 0 + Z.of_nat k) <$> seq 0 (Z.to_nat (n - 0)))).
  rewrite !list_lookup_fmap. rewrite Z.sub_0_r.
  rewrite lookup_seq_lt by lia. simpl. do 2 f_equal. lia.
Qed.

Lemma Sorted_adjacent {A} `{Inhabited A} (R : A -> A -> Prop) (l : list A) :
  Sorted R l ->
  forall i, (S i < length l)%nat -> R (l !!! i) (l !!! S i).
Proof.
  induction 1 as [|a l Hs IH Hhd]; intros i Hi; simpl in Hi; [lia|].
  destruct i as [|i].
  - destruct l as [|b l]; [simpl in Hi; lia|]. inversion Hhd; subst. assumption.
  - simpl. apply IH. lia.
Qed.

Lemma length_index_range a b : length (index_range a b) = Z.to_nat (b - a).
Proof. unfold index_range. rewrite length_map, length_seq. reflexivity. Qed.

(** C6. After the encode/sort phase of a chunk whose index vector was
    initialised to the identity: the code arrays, the index vector and
    the sorted bound arrays all hold [P] entries; the sorted codes are
    nondecreasing ([srt_mcodes[i] <= srt_mcodes[i+1]]);
    [srt_mcodes[i] = mcodes[vidx[i]]], and likewise for the sorted lower
    and upper bounds; [vidx] is a permutation of [0 .. P-1]. *)
Theorem morton_sort_correct
        (morton_enc : Z -> Z -> Z -> Z -> Z)
        (parallel_sort : (Z -> Z -> bool) -> list Z -> list Z)
        (glb gub : array4) (lb_ptr ub_ptr : list array4) (nparts i : Z) :
  sort_contract parallel_sort ->
  let r := morton_encode_sort_chunk morton_enc parallel_sort glb gub lb_ptr ub_ptr
                                    (vidx_init nparts) nparts in
  (size (mcodes r) = Z.max 0 nparts /\ size (vidx r) = Z.max 0 nparts /\
   size (srt_mcodes_of r) = Z.max 0 nparts /\
   size (srt_lb r) = Z.max 0 nparts /\ size (srt_ub r) = Z.max 0 nparts) /\
  (0 <= i -> i + 1 < nparts ->
   at_ (srt_mcodes_of r) i <= at_ (srt_mcodes_of r) (i + 1)) /\
  (0 <= i < nparts ->
   at_ (srt_mcodes_of r) i = at_ (mcodes r) (at_ (vidx r) i) /\
   at_ (srt_lb r) i = at_ lb_ptr (at_ (vidx r) i) /\
   at_ (srt_ub r) i = at_ ub_ptr (at_ (vidx r) i)) /\
  Permutation (vidx r) (index_range 0 nparts).
Proof.
  intros Hsort r.
  set (mc := map (fun pidx => mcode_of morton_enc glb gub (at_ lb_ptr pidx) (at_ ub_ptr pidx))
                 (index_range 0 nparts)).
  destruct (Hsort (fun idx1 idx2 => at_ mc idx1 <? at_ mc idx2) (vidx_init nparts)
                  (key_order_strict_weak (at_ mc))) as [Hperm Hsorted].
  assert (Hlen : length (parallel_sort (fun idx1 idx2 => at_ mc idx1 <? at_ mc idx2)
                                       (vidx_init nparts)) = Z.to_nat nparts).
  { rewrite (Permutation_length Hperm).
    unfold vidx_init. rewrite length_index_range. f_equal. lia. }
  assert (Hr : r = mk_sorted_chunk mc
                 (parallel_sort (fun idx1 idx2 => at_ mc idx1 <? at_ mc idx2) (vidx_init nparts))
                 (isort_apply (parallel_sort (fun idx1 idx2 => at_ mc idx1 <? at_ mc idx2)
                                             (vidx_init nparts)) nparts lb_ptr)
                 (isort_apply (parallel_sort (fun idx1 idx2 => at_ mc idx1 <? at_ mc idx2)
                                             (vidx_init nparts)) nparts ub_ptr)
                 (isort_apply (parallel_sort (fun idx1 idx2 => at_ mc idx1 <? at_ mc idx2)
                                             (vidx_init nparts)) nparts mc)) by reflexivity.
  rewrite Hr. clear Hr r. cbn [srt_mcodes_of mcodes vidx srt_lb srt_ub].
  set (v := parallel_sort (fun idx1 idx2 => at_ mc idx1 <? at_ mc idx2) (vidx_init nparts)) in *.
  split; [|split; [|split]].
  - unfold isort_apply, mc, size.
    rewrite !length_map, !length_index_range, Hlen. repeat split; lia.
  - intros Hi0 Hi1. unfold isort_apply.
    rewrite !at_index_range_map by lia.
    pose proof (Sorted_adjacent _ _ Hsorted (Z.to_nat i) ltac:(lia)) as Hadj.
    cbv beta in Hadj. apply Z.ltb_ge in Hadj.
    unfold at_ at 2 4. replace (Z.to_nat (i + 1)) with (S (Z.to_nat i)) by lia.
    exact Hadj.
  - intros Hi. unfold isort_apply.
    rewrite !at_index_range_map by lia. auto.
  - exact Hperm.
Qed.

(** A sort that meets the contract: insertion sort. *)
Fixpoint insert_by (comp : Z -> Z -> bool) (x : Z) (l : list Z) : list Z :=
  match l with
  | [] => [x]
  | y :: l' => if comp x y then x :: y :: l' else y :: insert_by comp x l'
  end.

Definition insertion_sort (comp : Z -> Z -> bool) (l : list Z) : list Z :=
  fold_right (insert_by comp) [] l.

Lemma insert_by_perm comp x l : Permutation (insert_by comp x l) (x :: l).
Proof.
  induction l as [|y l IH]; simpl; [reflexivity|].
  destruct (comp x y); [reflexivity|].
  rewrite IH. apply perm_swap.
Qed.

Lemma insert_by_sorted comp x l :
  (forall a b, comp a b = true -> comp b a = false) ->
  Sorted (fun a b => comp b a = false) l ->
  Sorted (fun a b => comp b a = false) (insert_by comp x l).
Proof.
  intros Hasym Hs. induction Hs as [|y l Hs IH Hhd]; simpl.
  - repeat constructor.
  - destruct (comp x y) eqn:E.
    + constructor; [constructor; assumption|]. constructor. apply Hasym. exact E.
    + constructor; [exact IH|].
      destruct l as [|z l]; simpl.
      * constructor. exact E.
      * destruct (comp x z); constructor; [exact E|].
        inversion Hhd; subst. assumption.
Qed.

Lemma insertion_sort_contract : sort_contract insertion_sort.
Proof.
  intros comp l (Hirr & Htr & _).
  assert (Hasym : forall a b, comp a b = true -> comp b a = false).
  { intros a b Hab. destruct (comp b a) eqn:E; [|reflexivity].
    rewrite <- (Hirr a). symmetry. apply (Htr a b a); assumption. }
  induction l as [|x l [IH1 IH2]]; simpl.
  - split; constructor.
  - split.
    + rewrite insert_by_perm. constructor. exact IH1.
    + apply insert_by_sorted; assumption.
Qed.

(** Modelled from the spec: the 4D Morton encoder of section 4.4, whose
    header is not part of the sources. Bit [4 i + j] of the result is bit
    [i] of input [j], for [i] in 0..15 and [j] in 0..3. *)
Definition morton_interleave (n0 n1 n2 n3 : Z) : Z :=
  fold_left
    (fun acc i =>
       Z.lor acc
         (Z.lor (Z.lor (Z.shiftl (Z.b2z (Z.testbit n0 i)) (4 * i))
                       (Z.shiftl (Z.b2z (Z.testbit n1 i)) (4 * i + 1)))
                (Z.lor (Z.shiftl (Z.b2z (Z.testbit n2 i)) (4 * i + 2))
                       (Z.shiftl (Z.b2z (Z.testbit n3 i)) (4 * i + 3)))))
    (index_range 0 16) 0.

Example morton_interleave_all_ones :
  morton_interleave 65535 65535 65535 65535 = 2 ^ 64 - 1.
Proof. vm_compute. reflexivity. Qed.

(** Three boxes of a chunk with global box [[0, 8]^4], in decreasing
    order of their centres. *)
Definition box_at (v : Z) : array4 := pt (float_of_Z v).
Definition sort_lb : list array4 := [box_at 6; box_at 3; box_at 1].
Definition sort_ub : list array4 := [box_at 7; box_at 4; box_at 2].
Definition sort_run : sorted_chunk :=
  morton_encode_sort_chunk morton_interleave insertion_sort (box_at 0) (box_at 8)
                           sort_lb sort_ub (vidx_init 3) 3.

Example sort_run_vidx : vidx sort_run = [2; 1; 0].
Proof. vm_compute. reflexivity. Qed.

Lemma morton_sort_correct_witness :
  (size (mcodes sort_run) = Z.max 0 3 /\ size (vidx sort_run) = Z.max 0 3 /\
   size (srt_mcodes_of sort_run) = Z.max 0 3 /\
   size (srt_lb sort_run) = Z.max 0 3 /\ size (srt_ub sort_run) = Z.max 0 3) /\
  at_ (srt_mcodes_of sort_run) 0 <= at_ (srt_mcodes_of sort_run) (0 + 1) /\
  (at_ (srt_mcodes_of sort_run) 0 = at_ (mcodes sort_run) (at_ (vidx sort_run) 0) /\
   at_ (srt_lb sort_run) 0 = at_ sort_lb (at_ (vidx sort_run) 0) /\
   at_ (srt_ub sort_run) 0 = at_ sort_ub (at_ (vidx sort_run) 0)) /\
  Permutation (vidx sort_run) (index_range 0 3).
Proof.
  destruct (morton_sort_correct morton_interleave insertion_sort (box_at 0) (box_at 8)
              sort_lb sort_ub 3 0 insertion_sort_contract) as (H0 & H1 & H2 & H3).
  split; [exact H0|]. split; [apply H1; lia|]. split; [apply H2; lia|exact H3].
Defined.

(** * Part III: further properties of the two files *)

(** ** Completed trees, node by node *)

Lemma completed_tree_node_ok codes lbs ubs fuel tree :
  Sorted Z.le codes -> List.Forall u64 codes -> 1 <= size codes ->
  construct_bvh_tree codes lbs ubs fuel (size codes) = Done tree ->
  (forall i n, tree !! i = Some n -> node_ok codes lbs ubs tree i n) /\
  levels_ok tree /\ 1 <= size tree <= 2 * size codes - 1.
Proof.
  intros Hs Hu HP Hrun.
  assert (Hu32 : size codes <= u32_max).
  { unfold construct_bvh_tree in Hrun. apply obind_Done in Hrun as (e & He & _).
    apply numeric_cast_u32_Done in He. lia. }
  apply (construct_node_ok codes lbs ubs (Sorted_at codes Hs)) with (fuel := fuel);
    try assumption.
  - intros k Hk. apply (Forall_at u64 codes Hu k Hk).
  - intros k Hk. apply (Forall_at u64 codes Hu k Hk).
Qed.

(** ** [std::min] and [std::max] on values without NaN *)

Lemma SFltb_negtrans a b c :
  not_nan a -> not_nan b -> not_nan c ->
  SFltb a b = false -> SFltb b c = false -> SFltb a c = false.
Proof.
  unfold not_nan, SFltb, SFcompare.
  destruct a as [sa|sa| |sa ma ea], b as [sb|sb| |sb mb eb], c as [sc|sc| |sc mc ec];
    try destruct sa; try destruct sb; try destruct sc; intros Ha Hb Hc;
    try congruence; try reflexivity;
    change (Pos.compare_cont Eq) with Pos.compare;
    repeat match goal with
           | |- context [Z.compare ?x ?y] => destruct (Z.compare_spec x y)
           | |- context [Pos.compare ?x ?y] => destruct (Pos.compare_spec x y)
           end; simpl; subst; try discriminate; try reflexivity; try lia.
Qed.

Lemma SFltb_finf_l a : SFltb finf a = false.
Proof. destruct a as [s|s| |s m e]; try destruct s; reflexivity. Qed.

Lemma SFltb_neg_finf_r a : SFltb a neg_finf = false.
Proof. destruct a as [s|s| |s m e]; try destruct s; reflexivity. Qed.

Lemma SFeqb_refl a : not_nan a -> SFeqb a a = true.
Proof.
  unfold not_nan, SFeqb, SFcompare.
  destruct a as [s|s| |s m e]; try destruct s; intros H; try congruence; try reflexivity;
    rewrite Z.compare_refl; change (Pos.compare_cont Eq m m) with (Pos.compare m m);
    rewrite Pos.compare_refl; reflexivity.
Qed.

Lemma std_min_not_nan a b : not_nan a -> not_nan b -> not_nan (std_min a b).
Proof. unfold std_min. destruct (SFltb b a); auto. Qed.

Lemma std_max_not_nan a b : not_nan a -> not_nan b -> not_nan (std_max a b).
Proof. unfold std_max. destruct (SFltb a b); auto. Qed.

Lemma std_min_finf_r a : std_min a finf = a.
Proof. unfold std_min. rewrite SFltb_finf_l. reflexivity. Qed.

Lemma std_max_neg_finf_r a : std_max a neg_finf = a.
Proof. unfold std_max. rewrite SFltb_neg_finf_r. reflexivity. Qed.

Lemma std_min_finf_l a : not_nan a -> std_min finf a = a.
Proof.
  intros Ha. unfold std_min. destruct (SFltb a finf) eqn:E; [reflexivity|].
  symmetry. apply SFltb_finf; assumption.
Qed.

Lemma std_max_neg_finf_l a : not_nan a -> std_max neg_finf a = a.
Proof.
  intros Ha. unfold std_max. destruct (SFltb neg_finf a) eqn:E; [reflexivity|].
  symmetry. apply SFltb_neg_finf; assumption.
Qed.

(** Without NaN, [std::min] and [std::max] are associative: each keeps
    the first of the least (greatest) values. *)
Lemma std_min_assoc a b c :
  not_nan a -> not_nan b -> not_nan c ->
  std_min (std_min a b) c = std_min a (std_min b c).
Proof.
  intros Ha Hb Hc. unfold std_min.
  destruct (SFltb b a) eqn:E1, (SFltb c b) eqn:E2; rewrite ?E1, ?E2; try reflexivity.
  - rewrite (SFltb_trans c b a E2 E1). reflexivity.
  - rewrite (SFltb_negtrans c b a Hc Hb Ha E2 E1). reflexivity.
Qed.

Lemma std_max_assoc a b c :
  not_nan a -> not_nan b -> not_nan c ->
  std_max (std_max a b) c = std_max a (std_max b c).
Proof.
  intros Ha Hb Hc. unfold std_max.
  destruct (SFltb a b) eqn:E1, (SFltb b c) eqn:E2; rewrite ?E1, ?E2; try reflexivity.
  - rewrite (SFltb_trans a b c E1 E2). reflexivity.
  - rewrite (SFltb_negtrans a b c Ha Hb Hc E1 E2). reflexivity.
Qed.

(** ** The box of a range of particles *)

(** One step of the loops of lines 270-277 and 642-649. *)
Definition box_step (lbs ubs : list array4) (acc : array4 * array4) (pidx : Z)
  : array4 * array4 :=
  (array4_map2 std_min (fst acc) (at_ lbs pidx),
   array4_map2 std_max (snd acc) (at_ ubs pidx)).

Lemma leaf_aabb_fold lbs ubs b e l u :
  leaf_aabb lbs ubs b e l u = fold_left (box_step lbs ubs) (index_range b e) (l, u).
Proof. reflexivity. Qed.

Lemma no_nan4_default_lb : no_nan4 default_lb.
Proof. repeat split; discriminate. Qed.

Lemma no_nan4_default_ub : no_nan4 default_ub.
Proof. repeat split; discriminate. Qed.

Lemma no_nan4_at (l : list array4) i : List.Forall no_nan4 l -> no_nan4 (at_ l i).
Proof.
  intros H. unfold at_. rewrite list_lookup_total_alt.
  destruct (l !! Z.to_nat i) as [x|] eqn:E.
  - simpl. apply (Forall_lookup_1 _ _ _ _ H E).
  - repeat split; discriminate.
Qed.

Lemma no_nan4_min a b : no_nan4 a -> no_nan4 b -> no_nan4 (array4_map2 std_min a b).
Proof.
  intros (A1 & A2 & A3 & A4) (B1 & B2 & B3 & B4).
  repeat split; simpl; apply std_min_not_nan; assumption.
Qed.

Lemma no_nan4_max a b : no_nan4 a -> no_nan4 b -> no_nan4 (array4_map2 std_max a b).
Proof.
  intros (A1 & A2 & A3 & A4) (B1 & B2 & B3 & B4).
  repeat split; simpl; apply std_max_not_nan; assumption.
Qed.

Lemma box_min_assoc a b c :
  no_nan4 a -> no_nan4 b -> no_nan4 c ->
  array4_map2 std_min (array4_map2 std_min a b) c
  = array4_map2 std_min a (array4_map2 std_min b c).
Proof.
  intros (A1 & A2 & A3 & A4) (B1 & B2 & B3 & B4) (C1 & C2 & C3 & C4).
  unfold array4_map2. simpl. rewrite !std_min_assoc by assumption. reflexivity.
Qed.

Lemma box_max_assoc a b c :
  no_nan4 a -> no_nan4 b -> no_nan4 c ->
  array4_map2 std_max (array4_map2 std_max a b) c
  = array4_map2 std_max a (array4_map2 std_max b c).
Proof.
  intros (A1 & A2 & A3 & A4) (B1 & B2 & B3 & B4) (C1 & C2 & C3 & C4).
  unfold array4_map2. simpl. rewrite !std_max_assoc by assumption. reflexivity.
Qed.

Lemma box_min_default_r a : array4_map2 std_min a default_lb = a.
Proof. destruct a. unfold array4_map2. simpl. rewrite !std_min_finf_r. reflexivity. Qed.

Lemma box_max_default_r a : array4_map2 std_max a default_ub = a.
Proof. destruct a. unfold array4_map2. simpl. rewrite !std_max_neg_finf_r. reflexivity. Qed.

Lemma box_min_default_l a : no_nan4 a -> array4_map2 std_min default_lb a = a.
Proof.
  intros (A1 & A2 & A3 & A4). destruct a. unfold array4_map2. simpl in *.
  rewrite !std_min_finf_l by assumption. reflexivity.
Qed.

Lemma box_max_default_l a : no_nan4 a -> array4_map2 std_max default_ub a = a.
Proof.
  intros (A1 & A2 & A3 & A4). destruct a. unfold array4_map2. simpl in *.
  rewrite !std_max_neg_finf_l by assumption. reflexivity.
Qed.

Section RangeBox.
Variable lbs ubs : list array4.
Hypothesis lbs_no_nan : List.Forall no_nan4 lbs.
Hypothesis ubs_no_nan : List.Forall no_nan4 ubs.

Lemma box_fold_no_nan idxs : forall l u,
  no_nan4 l -> no_nan4 u ->
  no_nan4 (fst (fold_left (box_step lbs ubs) idxs (l, u))) /\
  no_nan4 (snd (fold_left (box_step lbs ubs) idxs (l, u))).
Proof.
  induction idxs as [|i idxs IH]; intros l u Hl Hu; simpl; [auto|].
  apply IH; [apply no_nan4_min|apply no_nan4_max]; try assumption; apply no_nan4_at; assumption.
Qed.

(** The fold from any start is the fold from the neutral boxes,
    combined with the start. *)
Lemma box_fold_from idxs : forall l u,
  no_nan4 l -> no_nan4 u ->
  fold_left (box_step lbs ubs) idxs (l, u)
  = (array4_map2 std_min l (fst (fold_left (box_step lbs ubs) idxs (default_lb, default_ub))),
     array4_map2 std_max u (snd (fold_left (box_step lbs ubs) idxs (default_lb, default_ub)))).
Proof.
  induction idxs as [|i idxs IH]; intros l u Hl Hu; simpl fold_left.
  - simpl. rewrite box_min_default_r, box_max_default_r. reflexivity.
  - pose proof (no_nan4_at lbs i lbs_no_nan) as Hli.
    pose proof (no_nan4_at ubs i ubs_no_nan) as Hui.
    unfold box_step at 2 4 6. simpl fst. simpl snd.
    rewrite (IH (array4_map2 std_min l (at_ lbs i)) (array4_map2 std_max u (at_ ubs i)))
      by (try apply no_nan4_min; try apply no_nan4_max; assumption).
    rewrite box_min_default_l, box_max_default_l by assumption.
    rewrite (IH (at_ lbs i) (at_ ubs i)) by assumption. simpl fst. simpl snd.
    destruct (box_fold_no_nan idxs default_lb default_ub no_nan4_default_lb no_nan4_default_ub)
      as [H1 H2].
    rewrite box_min_assoc, box_max_assoc by assumption. reflexivity.
Qed.

Lemma index_range_app a b c :
  a <= b -> b <= c -> index_range a c = index_range a b ++ index_range b c.
Proof.
  intros Hab Hbc.
  assert (H : forall (k : nat) a, b = a + Z.of_nat k ->
                index_range a c = index_range a b ++ index_range b c).
  { induction k as [|k IH]; intros a0 Hk.
    - replace a0 with b by lia. unfold index_range at 2. rewrite Z.sub_diag. reflexivity.
    - rewrite (index_range_cons a0 c), (index_range_cons a0 b) by lia.
      simpl. f_equal. apply IH. lia. }
  apply (H (Z.to_nat (b - a))). lia.
Qed.

(** The box of a range is the union of the boxes of its two parts. *)
Lemma leaf_aabb_split b p e :
  b <= p -> p <= e ->
  leaf_aabb lbs ubs b e default_lb default_ub
  = (array4_map2 std_min (fst (leaf_aabb lbs ubs b p default_lb default_ub))
                         (fst (leaf_aabb lbs ubs p e default_lb default_ub)),
     array4_map2 std_max (snd (leaf_aabb lbs ubs b p default_lb default_ub))
                         (snd (leaf_aabb lbs ubs p e default_lb default_ub))).
Proof.
  intros Hbp Hpe. rewrite !leaf_aabb_fold, (index_range_app b p e Hbp Hpe), fold_left_app.
  destruct (box_fold_no_nan (index_range b p) default_lb default_ub
                            no_nan4_default_lb no_nan4_default_ub) as [H1 H2].
  destruct (fold_left (box_step lbs ubs) (index_range b p) (default_lb, default_ub))
    as [l u] eqn:E.
  simpl in H1, H2. rewrite (box_fold_from _ l u H1 H2). reflexivity.
Qed.

(** A coordinate of the box of a range is the fold of [std::min]
    ([std::max]) over that coordinate. *)
Lemma box_fold_coord (sel : array4 -> spec_float) idxs :
  (forall f a b, sel (array4_map2 f a b) = f (sel a) (sel b)) ->
  forall l u,
    sel (fst (fold_left (box_step lbs ubs) idxs (l, u)))
    = fold_left std_min (map (fun i => sel (at_ lbs i)) idxs) (sel l) /\
    sel (snd (fold_left (box_step lbs ubs) idxs (l, u)))
    = fold_left std_max (map (fun i => sel (at_ ubs i)) idxs) (sel u).
Proof.
  intros Hsel. induction idxs as [|i idxs IH]; intros l u; simpl; [auto|].
  unfold box_step at 2 4. simpl fst. simpl snd.
  rewrite <- !Hsel. apply IH.
Qed.

End RangeBox.

(** Two half-open particle ranges without a common particle. *)
Definition disjoint (n m : bvh_node) : Prop := end_ n <= begin m \/ end_ m <= begin n.

Section CompletedTree.
Variable codes : list Z.
Variable lbs ubs : list array4.
Variable tree : list bvh_node.
Hypothesis tree_ok : forall i n, tree !! i = Some n -> node_ok codes lbs ubs tree i n.

Lemma node_range i n :
  tree !! i = Some n -> 0 <= begin n /\ begin n < end_ n /\ end_ n <= size codes.
Proof. intros Hn. destruct (tree_ok i n Hn) as [(Hr & _) _ _ _ _ _]. exact Hr. Qed.

Lemma node_children i n :
  tree !! i = Some n -> left n <> -1 ->
  exists lc rc,
    tree !! Z.to_nat (left n) = Some lc /\ tree !! Z.to_nat (right n) = Some rc /\
    Z.of_nat i < left n /\ right n = left n + 1 /\ split_idx n <= 63 /\
    begin lc = begin n /\ end_ rc = end_ n /\ end_ lc = begin rc /\
    begin n < end_ lc /\ end_ lc < end_ n /\
    first_diff_bit (at_ codes (end_ lc - 1)) (at_ codes (end_ lc)) = split_idx n.
Proof.
  intros Hn Hl. destruct (tree_ok i n Hn) as [(_ & _ & Hc) _ _ _ _ _].
  destruct Hc as [[E _]|(H1 & H2 & H3 & lc & rc & H4)]; [contradiction|].
  exists lc, rc. intuition.
Qed.

Lemma node_leaf_or_not i n :
  tree !! i = Some n -> (left n = -1 /\ right n = -1) \/ left n <> -1.
Proof.
  intros Hn. destruct (tree_ok i n Hn) as [(_ & _ & Hc) _ _ _ _ _].
  destruct Hc as [H|(H1 & _)]; [left; exact H|right; lia].
Qed.

(** Every node but the root is the left or the right child of the node
    that [parent] names, and lies at one end of its range. *)
Lemma node_parent i n :
  tree !! S i = Some n ->
  exists p,
    tree !! Z.to_nat (parent n) = Some p /\ 0 <= parent n < Z.of_nat (S i) /\
    left p <> -1 /\ (left p = Z.of_nat (S i) \/ right p = Z.of_nat (S i)) /\
    begin p <= begin n /\ end_ n <= end_ p /\
    (begin n = begin p \/ end_ n = end_ p) /\
    split_idx p < split_idx n.
Proof.
  intros Hn. destruct (tree_ok (S i) n Hn) as [_ Hlink _ _ _ _].
  destruct Hlink as (Hp & p & Hpl & Hch & Hsp).
  exists p. split; [exact Hpl|]. split; [exact Hp|].
  assert (Hint : left p <> -1).
  { destruct (node_leaf_or_not _ _ Hpl) as [[E1 E2]|E]; [lia|exact E]. }
  split; [exact Hint|]. split; [exact Hch|].
  destruct (node_children _ _ Hpl Hint)
    as (lc & rc & Hlc & Hrc & _ & _ & _ & H1 & H2 & H3 & H4 & H5 & _).
  pose proof (node_range _ _ Hpl) as Hrp.
  destruct Hch as [E|E]; rewrite E, Nat2Z.id in *.
  - rewrite Hn in Hlc. inversion Hlc; subst lc. repeat split; try lia.
  - rewrite Hn in Hrc. inversion Hrc; subst rc. repeat split; try lia.
Qed.

(** [anc a b]: the node at [a] is a proper ancestor of the node at [b]. *)
Inductive anc : nat -> nat -> Prop :=
| anc_parent b n : tree !! S b = Some n -> anc (Z.to_nat (parent n)) (S b)
| anc_up a b n : tree !! S b = Some n -> anc a (Z.to_nat (parent n)) -> anc a (S b).

Lemma anc_facts a b :
  anc a b ->
  (a < b)%nat /\
  exists na nb, tree !! a = Some na /\ tree !! b = Some nb /\ left na <> -1 /\
                begin na <= begin nb /\ end_ nb <= end_ na.
Proof.
  induction 1 as [b n Hn|a b n Hn _ (Hlt & na & np & Ha & Hp & Hl & Hb & He)].
  - destruct (node_parent _ _ Hn) as (p & Hpl & Hp & Hint & _ & H1 & H2 & _).
    split; [lia|]. exists p, n. auto.
  - destruct (node_parent _ _ Hn) as (p & Hpl & Hpr & _ & _ & H1 & H2 & _).
    rewrite Hp in Hpl. inversion Hpl; subst p.
    split; [lia|]. exists na, n. repeat split; try assumption; lia.
Qed.

Lemma anc_child p a :
  anc p a ->
  exists c nc, tree !! S c = Some nc /\ Z.to_nat (parent nc) = p /\ (S c = a \/ anc (S c) a).
Proof.
  induction 1 as [b n Hn|a b n Hn _ (c & nc & Hc & Hpc & Hor)].
  - exists b, n. auto.
  - exists c, nc. split; [exact Hc|]. split; [exact Hpc|]. right.
    destruct Hor as [E|Hanc].
    + rewrite E. apply (anc_parent b n Hn).
    + apply (anc_up _ b n Hn Hanc).
Qed.

(** The two children of a node have disjoint ranges. *)
Lemma siblings_disjoint b c nb nc :
  tree !! S b = Some nb -> tree !! S c = Some nc -> b <> c ->
  Z.to_nat (parent nb) = Z.to_nat (parent nc) -> disjoint nb nc.
Proof.
  intros Hb Hc Hne Hpar.
  destruct (node_parent _ _ Hb) as (p & Hpl & _ & Hint & Hch & _).
  destruct (node_parent _ _ Hc) as (p' & Hpl' & _ & _ & Hch' & _).
  rewrite <- Hpar, Hpl in Hpl'. inversion Hpl'; subst p'.
  destruct (node_children _ _ Hpl Hint)
    as (lc & rc & Hlc & Hrc & _ & Hr & _ & H1 & H2 & H3 & H4 & H5 & _).
  unfold disjoint.
  destruct Hch as [E|E], Hch' as [E'|E']; try lia.
  - rewrite E, Nat2Z.id, Hb in Hlc. rewrite E', Nat2Z.id, Hc in Hrc.
    inversion Hlc; inversion Hrc; subst. lia.
  - rewrite E', Nat2Z.id, Hc in Hlc. rewrite E, Nat2Z.id, Hb in Hrc.
    inversion Hlc; inversion Hrc; subst. lia.
Qed.

(** Of two nodes, the earlier is an ancestor of the later, or their
    ranges are disjoint. *)
Lemma anc_or_disjoint : forall b a na nb,
  (a < b)%nat -> tree !! a = Some na -> tree !! b = Some nb ->
  anc a b \/ disjoint na nb.
Proof.
  induction b as [b IH] using lt_wf_ind. intros a na nb Hab Ha Hb.
  destruct b as [|b]; [lia|].
  destruct (node_parent _ _ Hb) as (p & Hpl & Hp & _ & _ & H1 & H2 & _).
  pose proof (node_range _ _ Hb) as Hrb.
  destruct (Nat.lt_trichotomy a (Z.to_nat (parent nb))) as [Hlt|[Heq|Hgt]].
  - destruct (IH (Z.to_nat (parent nb)) ltac:(lia) a na p Hlt Ha Hpl) as [Hanc|Hd].
    + left. apply (anc_up a b nb Hb Hanc).
    + right. unfold disjoint in *. lia.
  - left. rewrite Heq. apply (anc_parent b nb Hb).
  - right.
    destruct (IH a ltac:(lia) (Z.to_nat (parent nb)) p na Hgt Hpl Ha) as [Hanc|Hd].
    + destruct (anc_child _ _ Hanc) as (c & nc & Hc & Hpc & Hor).
      assert (Hcb : c <> b).
      { destruct Hor as [E|Hanc']; [lia|]. apply anc_facts in Hanc' as [Hlt _]. lia. }
      pose proof (siblings_disjoint c b nc nb Hc Hb Hcb Hpc) as Hd.
      destruct Hor as [E|Hanc'].
      * rewrite E, Ha in Hc. inversion Hc; subst nc. exact Hd.
      * apply anc_facts in Hanc' as (_ & nc' & na' & Hc' & Ha' & _ & G1 & G2).
        rewrite Hc in Hc'. inversion Hc'; subst nc'.
        rewrite Ha in Ha'. inversion Ha'; subst na'.
        pose proof (node_range _ _ Ha) as Hra. unfold disjoint in *. lia.
    + unfold disjoint in *. lia.
Qed.

Lemma leaves_disjoint a b na nb :
  a <> b -> tree !! a = Some na -> tree !! b = Some nb ->
  left na = -1 -> left nb = -1 -> disjoint na nb.
Proof.
  intros Hne Ha Hb Hla Hlb.
  destruct (Nat.lt_ge_cases a b) as [Hlt|Hge].
  - destruct (anc_or_disjoint b a na nb Hlt Ha Hb) as [Hanc|Hd]; [|exact Hd].
    apply anc_facts in Hanc as (_ & na' & _ & Ha' & _ & Hint & _).
    rewrite Ha in Ha'. inversion Ha'; subst. contradiction.
  - destruct (anc_or_disjoint a b nb na ltac:(lia) Hb Ha) as [Hanc|Hd].
    + apply anc_facts in Hanc as (_ & nb' & _ & Hb' & _ & Hint & _).
      rewrite Hb in Hb'. inversion Hb'; subst. contradiction.
    + unfold disjoint in *. lia.
Qed.

(** Below every node, every particle of its range lies in a leaf. *)
Lemma leaf_below x : forall (k : nat) i n,
  tree !! i = Some n -> (length tree - i <= k)%nat -> begin n <= x < end_ n ->
  exists j m, tree !! j = Some m /\ left m = -1 /\ begin m <= x < end_ m.
Proof.
  induction k as [|k IH]; intros i n Hn Hk Hx.
  - apply lookup_lt_Some in Hn. lia.
  - destruct (node_leaf_or_not _ _ Hn) as [[Hl _]|Hint]; [exists i, n; auto|].
    destruct (node_children _ _ Hn Hint)
      as (lc & rc & Hlc & Hrc & Hi & Hr & _ & H1 & H2 & H3 & H4 & H5 & _).
    pose proof (lookup_lt_Some _ _ _ Hn).
    destruct (Z_lt_le_dec x (end_ lc)) as [Hlt|Hge].
    + apply (IH _ lc Hlc); lia.
    + apply (IH _ rc Hrc); lia.
Qed.

Hypothesis lbs_no_nan : List.Forall no_nan4 lbs.
Hypothesis ubs_no_nan : List.Forall no_nan4 ubs.

(** With particle boxes free of NaN, the box of every node is the box
    of its particles. *)
Lemma node_box : forall (k : nat) i n,
  tree !! i = Some n -> (length tree - i <= k)%nat ->
  (lb n, ub n) = leaf_aabb lbs ubs (begin n) (end_ n) default_lb default_ub.
Proof.
  induction k as [|k IH]; intros i n Hn Hk.
  - apply lookup_lt_Some in Hn. lia.
  - destruct (tree_ok i n Hn) as [_ _ _ [Hleaf Hint] _ _].
    destruct (node_leaf_or_not _ _ Hn) as [[Hl _]|Hl]; [apply Hleaf; exact Hl|].
    destruct (Hint Hl) as [Elb Eub].
    destruct (node_children _ _ Hn Hl)
      as (lc & rc & Hlc & Hrc & Hi & Hr & _ & H1 & H2 & H3 & H4 & H5 & _).
    pose proof (lookup_lt_Some _ _ _ Hn).
    pose proof (IH _ lc Hlc ltac:(lia)) as Blc.
    pose proof (IH _ rc Hrc ltac:(lia)) as Brc.
    unfold at_ in Elb, Eub.
    rewrite (list_lookup_total_correct _ _ _ Hlc), (list_lookup_total_correct _ _ _ Hrc)
      in Elb, Eub.
    rewrite (leaf_aabb_split lbs ubs lbs_no_nan ubs_no_nan (begin n) (end_ lc) (end_ n))
      by lia.
    rewrite H1, H2, H3 in *. rewrite <- Blc, <- Brc. simpl. rewrite Elb, Eub. reflexivity.
Qed.

End CompletedTree.

(** ** The completed tree passes the debug check *)

Lemma array4_eqb_refl a : no_nan4 a -> array4_eqb a a = true.
Proof.
  intros (H1 & H2 & H3 & H4). unfold array4_eqb.
  rewrite !SFeqb_refl by assumption. reflexivity.
Qed.

Lemma pset_add_fresh (pset : gset Z) x :
  ~ elem_of x pset -> pset_add pset x = Some (union (singleton x) pset).
Proof. intros H. unfold pset_add. destruct (decide (elem_of x pset)); [contradiction|reflexivity]. Qed.

Section VerifyCorrect.
Variable tree : list bvh_node.
Variable codes mcodes vidx : list Z.
Variable srt_lbs srt_ubs lbs ubs : list array4.
Hypothesis tree_ok : forall i n, tree !! i = Some n -> node_ok codes srt_lbs srt_ubs tree i n.
Hypothesis lbs_no_nan : List.Forall no_nan4 srt_lbs.
Hypothesis ubs_no_nan : List.Forall no_nan4 srt_ubs.
Hypothesis nparts_u32 : size codes <= u32_max.
Hypothesis sorted_from :
  forall j, 0 <= j < size codes ->
    at_ codes j = at_ mcodes (at_ vidx j) /\
    at_ srt_lbs j = at_ lbs (at_ vidx j) /\ at_ srt_ubs j = at_ ubs (at_ vidx j).

(** [pset] holds the particles of the leaves before index [s]. *)
Definition seen (s : nat) (pset : gset Z) : Prop :=
  forall x, elem_of x pset <->
            exists j n, (j < s)%nat /\ tree !! j = Some n /\ left n = -1 /\
                        begin n <= x < end_ n.

Lemma seen_fresh s pset n x :
  seen s pset -> tree !! s = Some n -> left n = -1 -> begin n <= x < end_ n ->
  ~ elem_of x pset.
Proof.
  intros Hseen Hn Hl Hx Hin. apply Hseen in Hin as (j & m & Hj & Hm & Hlm & Hxm).
  pose proof (leaves_disjoint codes srt_lbs srt_ubs tree tree_ok j s m n
                              ltac:(lia) Hm Hn Hlm Hl) as Hd.
  unfold disjoint in Hd. lia.
Qed.

Lemma particles_loop b e mc (pset0 : gset Z) :
  (forall j, b <= j < e -> at_ codes j = mc) ->
  (forall x, b <= x < e -> ~ elem_of x pset0) ->
  forall (m : nat) j0 (ps : gset Z),
    e = j0 + Z.of_nat m -> b <= j0 ->
    (forall x, elem_of x ps <-> elem_of x pset0 \/ b <= x < j0) ->
    exists ps' : gset Z,
      fold_left
        (fun acc j =>
           match acc with
           | Some pset => if at_ codes j =? mc then pset_add pset j else None
           | None => None
           end)
        (index_range j0 e) (Some ps) = Some ps' /\
      (forall x, elem_of x ps' <-> elem_of x pset0 \/ b <= x < e).
Proof.
  intros Hmc Hfresh. induction m as [|m IH]; intros j0 ps He Hb Hps.
  - replace e with j0 by lia. unfold index_range. rewrite Z.sub_diag. simpl.
    exists ps. split; [reflexivity|exact Hps].
  - rewrite index_range_cons by lia. simpl fold_left.
    rewrite (Hmc j0) by lia. rewrite Z.eqb_refl.
    rewrite pset_add_fresh.
    + apply IH; [lia|lia|]. intros x.
      rewrite elem_of_union, elem_of_singleton, Hps.
      split; [intros [->|[H|H]]|intros [H|H]]; try (left; assumption); try (right; lia).
      * auto.
      * destruct (Z.eq_dec x j0) as [->|Hne]; [left; reflexivity|right; right; lia].
    + intros Hin. apply Hps in Hin as [Hin|Hin]; [|lia].
      apply (Hfresh j0); [lia|exact Hin].
Qed.

Lemma verify_particles_ok s n pset :
  tree !! s = Some n -> seen s pset ->
  exists pset', verify_particles codes n pset = Some pset' /\ seen (S s) pset'.
Proof.
  intros Hn Hseen.
  pose proof (node_range codes srt_lbs srt_ubs tree tree_ok s n Hn) as Hr.
  assert (Hkeep : forall pset' : gset Z,
            (forall x, elem_of x pset' <->
                       elem_of x pset \/ (left n = -1 /\ begin n <= x < end_ n)) ->
            seen (S s) pset').
  { intros pset' Hp x. rewrite Hp, (Hseen x). split.
    - intros [(j & m & Hj & Hm & Hl & Hx)|[Hl Hx]].
      + exists j, m. repeat split; try assumption; lia.
      + exists s, n. repeat split; try assumption; lia.
    - intros (j & m & Hj & Hm & Hl & Hx).
      destruct (Nat.eq_dec j s) as [->|Hne].
      + rewrite Hn in Hm. inversion Hm; subst m. right. auto.
      + left. exists j, m. repeat split; try assumption; lia. }
  unfold verify_particles. rewrite wrap32_small by lia.
  destruct (node_leaf_or_not codes srt_lbs srt_ubs tree tree_ok s n Hn) as [[Hl Hrr]|Hint].
  - rewrite Hl, Hrr. change (-1 =? -1) with true. cbv iota. simpl andb.
    assert (Hfresh : forall x, begin n <= x < end_ n -> ~ elem_of x pset).
    { intros x Hx. apply (seen_fresh s pset n x Hseen Hn Hl Hx). }
    rewrite (pset_add_fresh pset (begin n)) by (apply Hfresh; lia).
    destruct (end_ n - begin n =? 1) eqn:E1.
    + apply Z.eqb_eq in E1. eexists. split; [reflexivity|]. apply Hkeep. intros x.
      rewrite elem_of_union, elem_of_singleton. split.
      * intros [->|H]; [right; split; [exact Hl|lia]|left; exact H].
      * intros [H|[_ H]]; [right; exact H|left; lia].
    + apply Z.eqb_neq in E1. rewrite wrap32_small by lia.
      destruct (particles_loop (begin n) (end_ n) (at_ codes (begin n)) pset)
        with (m := Z.to_nat (end_ n - (begin n + 1))) (j0 := begin n + 1)
             (ps := union (singleton (begin n)) pset)
        as (ps' & Hrun & Hps'); try lia.
      * intros j Hj.
        destruct (tree_ok s n Hn) as [_ _ Hleaf _ _ _].
        specialize (Hleaf Hl j (begin n) Hj ltac:(lia)).
        unfold same_prefix in Hleaf. rewrite !Z.shiftr_0_r in Hleaf. exact Hleaf.
      * exact Hfresh.
      * intros x. rewrite elem_of_union, elem_of_singleton. split.
        -- intros [->|H]; [right; lia|left; exact H].
        -- intros [H|H]; [right; exact H|left; lia].
      * exists ps'. split; [exact Hrun|]. apply Hkeep. intros x. rewrite Hps'.
        split; intros [H|H]; auto. right. apply H.
  - destruct (node_children codes srt_lbs srt_ubs tree tree_ok s n Hn Hint)
      as (lc & rc & Hlc & Hrc & _ & _ & _ & H1 & H2 & H3 & H4 & H5 & _).
    pose proof (node_range codes srt_lbs srt_ubs tree tree_ok _ lc Hlc) as Hrl.
    pose proof (node_range codes srt_lbs srt_ubs tree tree_ok _ rc Hrc) as Hrr.
    replace (end_ n - begin n =? 1) with false by (symmetry; apply Z.eqb_neq; lia).
    replace (left n =? -1) with false by (symmetry; apply Z.eqb_neq; exact Hint).
    exists pset. split; [reflexivity|]. apply Hkeep. intros x.
    split; [auto|intros [H|[H _]]; [exact H|contradiction]].
Qed.

Lemma verify_children_ok s n :
  tree !! s = Some n -> verify_children tree codes mcodes vidx (Z.of_nat s) n = true.
Proof.
  intros Hn. unfold verify_children.
  destruct (node_leaf_or_not codes srt_lbs srt_ubs tree tree_ok s n Hn) as [[Hl Hrr]|Hint].
  - rewrite Hl. change (-1 =? -1) with true. cbv iota.
    destruct (tree_ok s n Hn) as [(_ & Hs & _) _ _ _ _ _]. apply Z.leb_le. lia.
  - replace (left n =? -1) with false by (symmetry; apply Z.eqb_neq; exact Hint).
    destruct (node_children codes srt_lbs srt_ubs tree tree_ok s n Hn Hint)
      as (lc & rc & Hlc & Hrc & Hi & Hr & Hs63 & H1 & H2 & H3 & H4 & H5 & Hfd).
    destruct (tree_ok s n Hn) as [_ _ _ _ _ Hcast]. specialize (Hcast Hint).
    pose proof (node_range codes srt_lbs srt_ubs tree tree_ok s n Hn) as Hrn.
    pose proof (lookup_lt_Some _ _ _ Hlc) as Hlt1.
    pose proof (lookup_lt_Some _ _ _ Hrc) as Hlt2.
    unfold i32_max in Hcast.
    rewrite (wrap32_small (left n)), (wrap32_small (right n)) by (unfold u32_max; lia).
    cbv zeta.
    assert (Ea : at_ tree (left n) = lc) by (apply list_lookup_total_correct; exact Hlc).
    assert (Eb : at_ tree (right n) = rc) by (apply list_lookup_total_correct; exact Hrc).
    rewrite Ea, Eb.
    rewrite (wrap32_small (end_ lc - 1)) by lia.
    replace (end_ lc - 1 + 1) with (end_ lc) by lia.
    rewrite (wrap32_small (end_ lc)) by lia.
    rewrite Hfd, Z.eqb_refl.
    rewrite (proj1 (sorted_from (end_ lc - 1) ltac:(lia))), Z.eqb_refl.
    rewrite H1, H2, H3, !Z.eqb_refl.
    replace (0 <? left n) with true by (symmetry; apply Z.ltb_lt; lia).
    replace (0 <? right n) with true by (symmetry; apply Z.ltb_lt; lia).
    replace (Z.of_nat s <? left n) with true by (symmetry; apply Z.ltb_lt; lia).
    replace (Z.of_nat s <? right n) with true by (symmetry; apply Z.ltb_lt; lia).
    replace (left n <? size tree) with true by (symmetry; apply Z.ltb_lt; unfold size; lia).
    replace (right n <? size tree) with true by (symmetry; apply Z.ltb_lt; unfold size; lia).
    replace (begin rc <? end_ n) with true by (symmetry; apply Z.ltb_lt; lia).
    replace (split_idx n <=? 63) with true by (symmetry; apply Z.leb_le; lia).
    reflexivity.
Qed.

Lemma verify_parent_ok s n :
  tree !! s = Some n -> verify_parent tree (Z.of_nat s) n = true.
Proof.
  intros Hn. unfold verify_parent. destruct s as [|s].
  - simpl. destruct (tree_ok 0%nat n Hn) as [_ (Hp & _) _ _ _ _]. rewrite Hp. reflexivity.
  - replace (Z.of_nat (S s) =? 0) with false by (symmetry; apply Z.eqb_neq; lia).
    destruct (node_parent codes srt_lbs srt_ubs tree tree_ok s n Hn)
      as (p & Hpl & Hp & Hint & _ & H1 & H2 & H3 & _).
    destruct (node_children codes srt_lbs srt_ubs tree tree_ok _ p Hpl Hint)
      as (_ & _ & _ & _ & Hi & Hr & _).
    destruct (tree_ok _ p Hpl) as [_ _ _ _ _ Hcast]. specialize (Hcast Hint).
    unfold i32_max in Hcast.
    rewrite (wrap32_small (parent n)) by (unfold u32_max; lia). cbv zeta.
    assert (Ea : at_ tree (parent n) = p) by (apply list_lookup_total_correct; exact Hpl).
    rewrite Ea.
    replace (0 <=? parent n) with true by (symmetry; apply Z.leb_le; lia).
    replace (parent n <? Z.of_nat (S s)) with true by (symmetry; apply Z.ltb_lt; lia).
    replace (begin p <=? begin n) with true by (symmetry; apply Z.leb_le; lia).
    replace (end_ n <=? end_ p) with true by (symmetry; apply Z.leb_le; lia).
    simpl andb. apply orb_true_iff.
    destruct H3 as [E|E]; [left|right]; apply Z.eqb_eq; exact E.
Qed.

Lemma verify_aabb_fold idxs :
  List.Forall (fun j => 0 <= j < size codes) idxs ->
  forall ok l u,
    fold_left (verify_aabb_step vidx srt_lbs srt_ubs lbs ubs) idxs (ok, l, u)
    = (ok, fst (fold_left (box_step srt_lbs srt_ubs) idxs (l, u)),
           snd (fold_left (box_step srt_lbs srt_ubs) idxs (l, u))).
Proof.
  induction 1 as [|j idxs Hj _ IH]; intros ok l u; simpl; [reflexivity|].
  destruct (sorted_from j Hj) as (_ & E1 & E2).
  rewrite <- E1, <- E2.
  rewrite !array4_eqb_refl by (apply no_nan4_at; assumption).
  rewrite !andb_true_r. apply IH.
Qed.

Lemma verify_aabb_ok s n :
  tree !! s = Some n -> verify_aabb vidx srt_lbs srt_ubs lbs ubs n = true.
Proof.
  intros Hn. unfold verify_aabb.
  pose proof (node_range codes srt_lbs srt_ubs tree tree_ok s n Hn) as Hr.
  rewrite verify_aabb_fold.
  2:{ apply List.Forall_forall. intros j Hj. apply in_index_range in Hj. lia. }
  pose proof (node_box codes srt_lbs srt_ubs tree tree_ok lbs_no_nan ubs_no_nan
                       (length tree) s n Hn ltac:(lia)) as Hbox.
  rewrite leaf_aabb_fold in Hbox. rewrite <- Hbox. simpl fst. simpl snd.
  destruct (box_fold_no_nan srt_lbs srt_ubs lbs_no_nan ubs_no_nan
              (index_range (begin n) (end_ n)) default_lb default_ub
              no_nan4_default_lb no_nan4_default_ub) as [N1 N2].
  rewrite <- Hbox in N1, N2. simpl in N1, N2.
  rewrite !array4_eqb_refl by assumption. reflexivity.
Qed.

Lemma verify_node_ok s n pset :
  tree !! s = Some n -> seen s pset ->
  exists pset',
    verify_node tree codes mcodes vidx srt_lbs srt_ubs lbs ubs pset (Z.of_nat s) = Some pset' /\
    seen (S s) pset'.
Proof.
  intros Hn Hseen. unfold verify_node.
  assert (Ea : at_ tree (Z.of_nat s) = n).
  { unfold at_. rewrite Nat2Z.id. apply list_lookup_total_correct. exact Hn. }
  rewrite Ea. cbv zeta.
  pose proof (node_range codes srt_lbs srt_ubs tree tree_ok s n Hn) as Hr.
  replace (begin n <? end_ n) with true by (symmetry; apply Z.ltb_lt; lia).
  assert (Hstruct : (if left n =? -1 then right n =? -1
                     else (0 <? left n) && (0 <? right n)) = true).
  { destruct (node_leaf_or_not codes srt_lbs srt_ubs tree tree_ok s n Hn) as [[Hl Hrr]|Hint].
    - rewrite Hl, Hrr. reflexivity.
    - replace (left n =? -1) with false by (symmetry; apply Z.eqb_neq; exact Hint).
      destruct (node_children codes srt_lbs srt_ubs tree tree_ok s n Hn Hint)
        as (_ & _ & _ & _ & Hi & Hrr & _).
      apply andb_true_iff. split; apply Z.ltb_lt; lia. }
  rewrite Hstruct. simpl andb.
  destruct (verify_particles_ok s n pset Hn Hseen) as (pset' & Hp & Hseen').
  rewrite Hp, (verify_children_ok s n Hn), (verify_parent_ok s n Hn), (verify_aabb_ok s n Hn).
  destruct (tree_ok s n Hn) as [_ _ _ _ Hnn _].
  replace (0 <? nn_level n) with true by (symmetry; apply Z.ltb_lt; exact Hnn).
  exists pset'. split; [reflexivity|exact Hseen'].
Qed.

Lemma verify_from : forall (m s : nat) (pset : gset Z),
  (s + m)%nat = length tree -> seen s pset ->
  exists pset' : gset Z,
    fold_left
      (fun acc i =>
         match acc with
         | Some pset => verify_node tree codes mcodes vidx srt_lbs srt_ubs lbs ubs pset i
         | None => None
         end)
      (index_range (Z.of_nat s) (size tree)) (Some pset) = Some pset'.
Proof.
  induction m as [|m IH]; intros s pset Hs Hseen.
  - replace (Z.of_nat s) with (size tree) by (unfold size; lia).
    unfold index_range. rewrite Z.sub_diag. simpl. eauto.
  - rewrite index_range_cons by (unfold size; lia). simpl fold_left.
    destruct (lookup_lt_is_Some_2 tree s ltac:(lia)) as [n Hn].
    destruct (verify_node_ok s n pset Hn Hseen) as (pset' & Hv & Hseen').
    rewrite Hv. replace (Z.of_nat s + 1) with (Z.of_nat (S s)) by lia.
    apply IH; [lia|exact Hseen'].
Qed.

Lemma verify_tree_ok :
  verify_bvh_tree tree codes mcodes vidx srt_lbs srt_ubs lbs ubs = true.
Proof.
  unfold verify_bvh_tree.
  destruct (verify_from (length tree) 0 empty) as (pset' & Hrun); [lia| |].
  - intros x. split.
    + intros H. apply elem_of_empty in H. contradiction.
    + intros (j & _ & Hj & _). lia.
  - change (Z.of_nat 0) with 0 in Hrun. rewrite Hrun. reflexivity.
Qed.

End VerifyCorrect.

(** ** The completed tree: links, leaves, boxes, levels *)

(** Three particles, the first two with one Morton code, with the boxes
    [[1,2]^4], [[2,3]^4] and [[4,5]^4]. *)
Definition w_lbs : list array4 := [box_at 1; box_at 2; box_at 4].
Definition w_ubs : list array4 := [box_at 2; box_at 3; box_at 5].
Definition w_tree : list bvh_node :=
  Eval vm_compute in
    match construct_bvh_tree s3_codes w_lbs w_ubs 3 3 with
    | Done t => t
    | _ => []
    end.
Definition w_root : bvh_node := Eval vm_compute in at_ w_tree 0.
Definition w_left : bvh_node := Eval vm_compute in at_ w_tree 1.
Definition w_right : bvh_node := Eval vm_compute in at_ w_tree 2.

Lemma w_tree_built : construct_bvh_tree s3_codes w_lbs w_ubs 3 (size s3_codes) = Done w_tree.
Proof. vm_compute. reflexivity. Qed.

Lemma w_lbs_no_nan : List.Forall no_nan4 w_lbs.
Proof. repeat constructor; discriminate. Qed.

Lemma w_ubs_no_nan : List.Forall no_nan4 w_ubs.
Proof. repeat constructor; discriminate. Qed.

Lemma s3_size : 1 <= size s3_codes.
Proof. vm_compute. discriminate. Qed.

(** Parent links (what lines 620-632 assert). In a completed tree the
    root has no parent and spans all particles. Every other node is the
    left or the right child of the node its [parent] names; that node
    comes earlier in the tree, its range contains the range of the child
    and shares one end with it, and its [split_idx] is smaller. *)
Theorem bvh_parent_links codes lbs ubs fuel tree i n :
  Sorted Z.le codes -> List.Forall u64 codes -> 1 <= size codes ->
  construct_bvh_tree codes lbs ubs fuel (size codes) = Done tree ->
  tree !! i = Some n ->
  (i = 0%nat -> parent n = -1 /\ begin n = 0 /\ end_ n = size codes) /\
  (i <> 0%nat ->
   0 <= parent n < Z.of_nat i /\
   (left (at_ tree (parent n)) = Z.of_nat i \/ right (at_ tree (parent n)) = Z.of_nat i) /\
   begin (at_ tree (parent n)) <= begin n /\ end_ n <= end_ (at_ tree (parent n)) /\
   (begin n = begin (at_ tree (parent n)) \/ end_ n = end_ (at_ tree (parent n))) /\
   split_idx (at_ tree (parent n)) < split_idx n).
Proof.
  intros Hs Hu HP Hrun Hn.
  destruct (completed_tree_node_ok codes lbs ubs fuel tree Hs Hu HP Hrun) as (Hok & _).
  split.
  - intros ->. destruct (Hok 0%nat n Hn) as [_ Hl _ _ _ _]. exact Hl.
  - intros Hi. destruct i as [|i]; [contradiction|].
    destruct (node_parent codes lbs ubs tree Hok i n Hn)
      as (p & Hpl & Hp & _ & Hch & H1 & H2 & H3 & H4).
    assert (Ea : at_ tree (parent n) = p) by (apply list_lookup_total_correct; exact Hpl).
    rewrite Ea. auto 10.
Qed.

Lemma bvh_parent_links_witness :
  (2%nat = 0%nat -> parent w_right = -1 /\ begin w_right = 0 /\ end_ w_right = size s3_codes) /\
  (2%nat <> 0%nat ->
   0 <= parent w_right < Z.of_nat 2 /\
   (left (at_ w_tree (parent w_right)) = Z.of_nat 2 \/
    right (at_ w_tree (parent w_right)) = Z.of_nat 2) /\
   begin (at_ w_tree (parent w_right)) <= begin w_right /\
   end_ w_right <= end_ (at_ w_tree (parent w_right)) /\
   (begin w_right = begin (at_ w_tree (parent w_right)) \/
    end_ w_right = end_ (at_ w_tree (parent w_right))) /\
   split_idx (at_ w_tree (parent w_right)) < split_idx w_right).
Proof.
  apply (bvh_parent_links s3_codes w_lbs w_ubs 3 w_tree 2 w_right).
  - exact s3_codes_sorted.
  - exact s3_codes_u64.
  - exact s3_size.
  - exact w_tree_built.
  - reflexivity.
Defined.

(** The leaves partition the particles: every particle index lies in
    the range of exactly one leaf (so the set [pset] of the check never
    meets a particle twice, and misses none). *)
Theorem bvh_leaves_partition codes lbs ubs fuel tree x :
  Sorted Z.le codes -> List.Forall u64 codes -> 1 <= size codes ->
  construct_bvh_tree codes lbs ubs fuel (size codes) = Done tree ->
  0 <= x < size codes ->
  exists i n,
    tree !! i = Some n /\ left n = -1 /\ begin n <= x < end_ n /\
    forall j m, tree !! j = Some m -> left m = -1 -> begin m <= x < end_ m -> j = i.
Proof.
  intros Hs Hu HP Hrun Hx.
  destruct (completed_tree_node_ok codes lbs ubs fuel tree Hs Hu HP Hrun) as (Hok & _ & Hsz).
  destruct (lookup_lt_is_Some_2 tree 0) as [r Hr]; [unfold size in Hsz; lia|].
  destruct (Hok 0%nat r Hr) as [_ (_ & Hb & He) _ _ _ _].
  destruct (leaf_below codes lbs ubs tree Hok x (length tree) 0 r Hr ltac:(lia) ltac:(lia))
    as (i & n & Hn & Hl & Hxn).
  exists i, n. repeat split; try assumption; try lia.
  intros j m Hm Hlm Hxm.
  destruct (Nat.eq_dec j i) as [E|E]; [exact E|exfalso].
  pose proof (leaves_disjoint codes lbs ubs tree Hok j i m n E Hm Hn Hlm Hl) as Hd.
  unfold disjoint in Hd. lia.
Qed.

Lemma bvh_leaves_partition_witness :
  exists i n,
    w_tree !! i = Some n /\ left n = -1 /\ begin n <= 1 < end_ n /\
    forall j m, w_tree !! j = Some m -> left m = -1 -> begin m <= 1 < end_ m -> j = i.
Proof.
  apply (bvh_leaves_partition s3_codes w_lbs w_ubs 3 w_tree 1).
  - exact s3_codes_sorted.
  - exact s3_codes_u64.
  - exact s3_size.
  - exact w_tree_built.
  - vm_compute. split; [discriminate|reflexivity].
Defined.

Lemma first_diff_bit_same a : first_diff_bit a a = 64.
Proof. unfold first_diff_bit. rewrite Z.lxor_nilpotent. reflexivity. Qed.

(** A node of a completed tree is a leaf exactly when all its particles
    have the same Morton code (lines 563-576 assert one direction). *)
Theorem bvh_leaf_iff_equal_codes codes lbs ubs fuel tree i n :
  Sorted Z.le codes -> List.Forall u64 codes -> 1 <= size codes ->
  construct_bvh_tree codes lbs ubs fuel (size codes) = Done tree ->
  tree !! i = Some n ->
  (left n = -1 <->
   forall j k, begin n <= j < end_ n -> begin n <= k < end_ n -> at_ codes j = at_ codes k).
Proof.
  intros Hs Hu HP Hrun Hn.
  destruct (completed_tree_node_ok codes lbs ubs fuel tree Hs Hu HP Hrun) as (Hok & _).
  split.
  - intros Hl j k Hj Hk. destruct (Hok i n Hn) as [_ _ Hleaf _ _ _].
    specialize (Hleaf Hl j k Hj Hk).
    unfold same_prefix in Hleaf. rewrite !Z.shiftr_0_r in Hleaf. exact Hleaf.
  - intros Heq. destruct (Z.eq_dec (left n) (-1)) as [E|E]; [exact E|exfalso].
    destruct (node_children codes lbs ubs tree Hok i n Hn E)
      as (lc & rc & _ & _ & _ & _ & Hs63 & H1 & H2 & H3 & H4 & H5 & Hfd).
    rewrite (Heq (end_ lc - 1) (end_ lc)) in Hfd by lia.
    rewrite first_diff_bit_same in Hfd. lia.
Qed.

Lemma bvh_leaf_iff_equal_codes_witness :
  left w_left = -1 <->
  forall j k, begin w_left <= j < end_ w_left -> begin w_left <= k < end_ w_left ->
              at_ s3_codes j = at_ s3_codes k.
Proof.
  apply (bvh_leaf_iff_equal_codes s3_codes w_lbs w_ubs 3 w_tree 1 w_left).
  - exact s3_codes_sorted.
  - exact s3_codes_u64.
  - exact s3_size.
  - exact w_tree_built.
  - reflexivity.
Defined.

(** The boxes (what lines 637-652 recompute). When no particle box
    holds a NaN, the box of every node of a completed tree, leaf or
    internal, is the fold of [std::min]/[std::max] over the boxes of the
    particles of its range: the coordinate-wise minimum of their lower
    and maximum of their upper bounds. *)
Theorem bvh_node_boxes codes lbs ubs fuel tree i n :
  Sorted Z.le codes -> List.Forall u64 codes -> 1 <= size codes ->
  List.Forall no_nan4 lbs -> List.Forall no_nan4 ubs ->
  construct_bvh_tree codes lbs ubs fuel (size codes) = Done tree ->
  tree !! i = Some n ->
  (lb n, ub n) = leaf_aabb lbs ubs (begin n) (end_ n) default_lb default_ub /\
  box_min_of (lb n) (map (fun j => at_ lbs j) (index_range (begin n) (end_ n))) /\
  box_max_of (ub n) (map (fun j => at_ ubs j) (index_range (begin n) (end_ n))).
Proof.
  intros Hs Hu HP Hnl Hnu Hrun Hn.
  destruct (completed_tree_node_ok codes lbs ubs fuel tree Hs Hu HP Hrun) as (Hok & _).
  pose proof (node_box codes lbs ubs tree Hok Hnl Hnu (length tree) i n Hn ltac:(lia)) as Hbox.
  pose proof (node_range codes lbs ubs tree Hok i n Hn) as Hr.
  split; [exact Hbox|].
  rewrite leaf_aabb_fold in Hbox.
  assert (Hne : index_range (begin n) (end_ n) <> []).
  { rewrite index_range_cons by lia. discriminate. }
  assert (Hmin : forall sel : array4 -> spec_float,
            (forall f a b, sel (array4_map2 f a b) = f (sel a) (sel b)) ->
            sel default_lb = finf -> (forall a, no_nan4 a -> not_nan (sel a)) ->
            is_min_of (sel (lb n))
                      (map sel (map (fun j => at_ lbs j) (index_range (begin n) (end_ n))))).
  { intros sel Hsel Hdef Hnn.
    destruct (box_fold_coord lbs ubs sel (index_range (begin n) (end_ n)) Hsel
                             default_lb default_ub) as [E _].
    rewrite <- Hbox in E. simpl fst in E. rewrite E, Hdef, map_map.
    apply fold_min_is_min.
    - intros Hnil. apply Hne. destruct (index_range (begin n) (end_ n)); [reflexivity|discriminate].
    - apply List.Forall_map. apply List.Forall_forall. intros j _.
      apply Hnn. apply no_nan4_at. exact Hnl. }
  assert (Hmax : forall sel : array4 -> spec_float,
            (forall f a b, sel (array4_map2 f a b) = f (sel a) (sel b)) ->
            sel default_ub = neg_finf -> (forall a, no_nan4 a -> not_nan (sel a)) ->
            is_max_of (sel (ub n))
                      (map sel (map (fun j => at_ ubs j) (index_range (begin n) (end_ n))))).
  { intros sel Hsel Hdef Hnn.
    destruct (box_fold_coord lbs ubs sel (index_range (begin n) (end_ n)) Hsel
                             default_lb default_ub) as [_ E].
    rewrite <- Hbox in E. simpl snd in E. rewrite E, Hdef, map_map.
    apply fold_max_is_max.
    - intros Hnil. apply Hne. destruct (index_range (begin n) (end_ n)); [reflexivity|discriminate].
    - apply List.Forall_map. apply List.Forall_forall. intros j _.
      apply Hnn. apply no_nan4_at. exact Hnu. }
  split; repeat split;
    first [apply (Hmin a_x)|apply (Hmin a_y)|apply (Hmin a_z)|apply (Hmin a_r)
          |apply (Hmax a_x)|apply (Hmax a_y)|apply (Hmax a_z)|apply (Hmax a_r)];
    try reflexivity; try (intros a Ha; apply Ha).
Qed.

Lemma bvh_node_boxes_witness :
  (lb w_root, ub w_root)
  = leaf_aabb w_lbs w_ubs (begin w_root) (end_ w_root) default_lb default_ub /\
  box_min_of (lb w_root) (map (fun j => at_ w_lbs j) (index_range (begin w_root) (end_ w_root))) /\
  box_max_of (ub w_root) (map (fun j => at_ w_ubs j) (index_range (begin w_root) (end_ w_root))).
Proof.
  apply (bvh_node_boxes s3_codes w_lbs w_ubs 3 w_tree 0 w_root).
  - exact s3_codes_sorted.
  - exact s3_codes_u64.
  - exact s3_size.
  - exact w_lbs_no_nan.
  - exact w_ubs_no_nan.
  - exact w_tree_built.
  - reflexivity.
Defined.

(** The levels. A completed tree is stored level by level: it is the
    concatenation of non-empty levels, of which the first is the root
    alone and every later one holds only nodes whose parent lies in the
    level just before it. The levels are thus the depth classes of the
    tree, and [nn_level] of every node is the number of nodes of its
    level (the backward pass finds the levels that way). *)
Theorem bvh_levels codes lbs ubs fuel tree :
  Sorted Z.le codes -> List.Forall u64 codes -> 1 <= size codes ->
  construct_bvh_tree codes lbs ubs fuel (size codes) = Done tree ->
  exists ls : list (list bvh_node),
    tree = concat ls /\ levels_from ls /\
    List.Forall (fun L => L <> [] /\ List.Forall (fun n => nn_level n = size L) L) ls.
Proof.
  intros Hs Hu HP Hrun.
  assert (Hu32 : size codes <= u32_max).
  { unfold construct_bvh_tree in Hrun. apply obind_Done in Hrun as (e & He & _).
    apply numeric_cast_u32_Done in He. lia. }
  destruct (construct_levels codes lbs ubs (Sorted_at codes Hs)
              (fun k Hk => proj1 (Forall_at u64 codes Hu k Hk))
              (fun k Hk => proj2 (Forall_at u64 codes Hu k Hk))
              Hu32 fuel tree HP Hrun) as (ls & E & Hok & Hfrom).
  exists ls. split; [exact E|]. split; [exact Hfrom|exact Hok].
Qed.

Lemma bvh_levels_witness :
  exists ls : list (list bvh_node),
    w_tree = concat ls /\ levels_from ls /\
    List.Forall (fun L => L <> [] /\ List.Forall (fun n => nn_level n = size L) L) ls.
Proof.
  apply (bvh_levels s3_codes w_lbs w_ubs 3 w_tree).
  - exact s3_codes_sorted.
  - exact s3_codes_u64.
  - exact s3_size.
  - exact w_tree_built.
Defined.

(** The size. A completed tree over [P >= 1] particles has between 1
    and [2 P - 1] nodes. *)
Theorem bvh_tree_size codes lbs ubs fuel tree :
  Sorted Z.le codes -> List.Forall u64 codes -> 1 <= size codes ->
  construct_bvh_tree codes lbs ubs fuel (size codes) = Done tree ->
  1 <= size tree <= 2 * size codes - 1.
Proof.
  intros Hs Hu HP Hrun.
  destruct (completed_tree_node_ok codes lbs ubs fuel tree Hs Hu HP Hrun) as (_ & _ & Hsz).
  exact Hsz.
Qed.

Lemma bvh_tree_size_witness : 1 <= size w_tree <= 2 * size s3_codes - 1.
Proof.
  apply (bvh_tree_size s3_codes w_lbs w_ubs 3 w_tree).
  - exact s3_codes_sorted.
  - exact s3_codes_u64.
  - exact s3_size.
  - exact w_tree_built.
Defined.

(** The debug check. A tree that the builder returns for sorted 64-bit
    codes and NaN-free boxes, the sorted arrays being the unsorted ones
    read through [vidx], passes [verify_bvh_trees_parallel]: none of its
    assertions fails. *)
Theorem bvh_passes_verify codes mcodes vidx srt_lbs srt_ubs lbs ubs fuel tree :
  Sorted Z.le codes -> List.Forall u64 codes -> 1 <= size codes ->
  List.Forall no_nan4 srt_lbs -> List.Forall no_nan4 srt_ubs ->
  (forall j, 0 <= j < size codes ->
     at_ codes j = at_ mcodes (at_ vidx j) /\
     at_ srt_lbs j = at_ lbs (at_ vidx j) /\ at_ srt_ubs j = at_ ubs (at_ vidx j)) ->
  construct_bvh_tree codes srt_lbs srt_ubs fuel (size codes) = Done tree ->
  verify_bvh_tree tree codes mcodes vidx srt_lbs srt_ubs lbs ubs = true.
Proof.
  intros Hs Hu HP Hnl Hnu Hsrc Hrun.
  destruct (completed_tree_node_ok codes srt_lbs srt_ubs fuel tree Hs Hu HP Hrun) as (Hok & _).
  apply verify_tree_ok; try assumption.
  unfold construct_bvh_tree in Hrun. apply obind_Done in Hrun as (e & He & _).
  apply numeric_cast_u32_Done in He. lia.
Qed.

Lemma bvh_passes_verify_witness :
  verify_bvh_tree w_tree s3_codes [5; 6; 5] [0; 2; 1] w_lbs w_ubs
                  [box_at 1; box_at 4; box_at 2] [box_at 2; box_at 5; box_at 3] = true.
Proof.
  apply (bvh_passes_verify s3_codes [5; 6; 5] [0; 2; 1] w_lbs w_ubs
                           [box_at 1; box_at 4; box_at 2] [box_at 2; box_at 5; box_at 3]
                           3 w_tree).
  - exact s3_codes_sorted.
  - exact s3_codes_u64.
  - exact s3_size.
  - exact w_lbs_no_nan.
  - exact w_ubs_no_nan.
  - intros j Hj. change (size s3_codes) with 3 in Hj.
    assert (Hc : j = 0 \/ j = 1 \/ j = 2) by lia.
    destruct Hc as [-> | [-> | ->]]; repeat split; reflexivity.
  - exact w_tree_built.
Defined.

(** ** From the sort to the check *)

Lemma size_index_range a b : a <= b -> size (index_range a b) = b - a.
Proof. intros H. unfold size. rewrite length_index_range. lia. Qed.

Lemma Sorted_map_key (key : Z -> Z) (l : list Z) :
  Sorted (fun a b => (key b <? key a) = false) l -> Sorted Z.le (map key l).
Proof.
  induction 1 as [|a l Hs IH Hhd]; simpl; constructor; [exact IH|].
  destruct Hhd as [|b l Hab]; simpl; constructor. apply Z.ltb_ge. exact Hab.
Qed.

(** Reading through an index vector of the right length is a [map]
    over it. *)
Lemma isort_apply_map {A} `{Inhabited A} (v : list Z) (n : Z) (src : list A) :
  size v = n -> isort_apply v n src = map (fun k => at_ src k) v.
Proof.
  intros Hv. unfold isort_apply.
  apply (list_eq_same_length _ _ (length v)).
  - rewrite length_map. reflexivity.
  - rewrite length_map, length_index_range. unfold size in Hv. lia.
  - intros i x y Hi Hx Hy.
    apply list_lookup_total_correct in Hx. apply list_lookup_total_correct in Hy.
    pose proof (at_index_range_map (fun i => at_ src (at_ v i)) n (Z.of_nat i)
                                   ltac:(unfold size in Hv; lia)) as E.
    unfold at_ at 1 in E. rewrite Nat2Z.id in E. rewrite E in Hx.
    destruct (lookup_lt_is_Some_2 v i Hi) as [k Hk].
    change (map (fun k => at_ src k) v) with ((fun k => at_ src k) <$> v) in Hy.
    rewrite list_lookup_total_alt, list_lookup_fmap, Hk in Hy. simpl in Hy.
    unfold at_ at 2 in Hx. rewrite Nat2Z.id, (list_lookup_total_correct _ _ _ Hk) in Hx.
    congruence.
Qed.

Lemma lor_u64 a b : u64 a -> u64 b -> u64 (Z.lor a b).
Proof.
  unfold u64. intros [Ha1 Ha2] [Hb1 Hb2].
  split; [apply Z.lor_nonneg; lia|].
  destruct (Z.eq_dec (Z.lor a b) 0) as [E|E]; [rewrite E; reflexivity|].
  assert (Hpos : 0 < Z.lor a b).
  { assert (0 <= Z.lor a b) by (apply Z.lor_nonneg; lia). lia. }
  apply Z.log2_lt_pow2; [exact Hpos|].
  rewrite Z.log2_lor by lia.
  destruct (Z.eq_dec a 0) as [->|Ea], (Z.eq_dec b 0) as [->|Eb]; simpl Z.log2.
  - simpl. lia.
  - rewrite Z.max_r by apply Z.log2_nonneg. apply Z.log2_lt_pow2; lia.
  - rewrite Z.max_l by apply Z.log2_nonneg. apply Z.log2_lt_pow2; lia.
  - apply Z.max_lub_lt; apply Z.log2_lt_pow2; lia.
Qed.

Lemma bit_u64 (t : bool) k : 0 <= k <= 63 -> u64 (Z.shiftl (Z.b2z t) k).
Proof.
  intros Hk. unfold u64. rewrite Z.shiftl_mul_pow2 by lia.
  assert (H1 : 0 < 2 ^ k) by (apply Z.pow_pos_nonneg; lia).
  assert (H2 : 2 ^ k <= 2 ^ 63) by (apply Z.pow_le_mono_r; lia).
  change (2 ^ 64) with (2 * 2 ^ 63). destruct t; simpl Z.b2z; lia.
Qed.

Lemma morton_interleave_u64 n0 n1 n2 n3 : 0 <= morton_interleave n0 n1 n2 n3 < 2 ^ 64.
Proof.
  unfold morton_interleave.
  assert (H : forall l acc, u64 acc -> List.Forall (fun i => 0 <= i < 16) l ->
    u64 (fold_left
           (fun acc i =>
              Z.lor acc
                (Z.lor (Z.lor (Z.shiftl (Z.b2z (Z.testbit n0 i)) (4 * i))
                              (Z.shiftl (Z.b2z (Z.testbit n1 i)) (4 * i + 1)))
                       (Z.lor (Z.shiftl (Z.b2z (Z.testbit n2 i)) (4 * i + 2))
                              (Z.shiftl (Z.b2z (Z.testbit n3 i)) (4 * i + 3)))))
           l acc)).
  { induction l as [|i l IH]; intros acc Hacc Hl; simpl; [exact Hacc|].
    apply Forall_cons in Hl as [Hi Hl]. apply IH; [|exact Hl].
    repeat apply lor_u64; try exact Hacc; apply bit_u64; lia. }
  apply H; [unfold u64; lia|].
  apply List.Forall_forall. intros i Hi. apply in_index_range in Hi. exact Hi.
Qed.

(** The encode/sort phase of a chunk, then the builder, then the debug
    check. For a sort that meets its contract and an encoder with 64-bit
    results, on [1 <= P <= 2^30] particles with NaN-free boxes: the
    builder returns a tree for the sorted chunk, and the tree passes
    every assertion of [verify_bvh_trees_parallel] against the sorted and
    the unsorted data. *)
Theorem sort_build_verify
        (morton_enc : Z -> Z -> Z -> Z -> Z)
        (parallel_sort : (Z -> Z -> bool) -> list Z -> list Z)
        (glb gub : array4) (lb_ptr ub_ptr : list array4) (nparts : Z) (fuel : nat) :
  sort_contract parallel_sort ->
  (forall n0 n1 n2 n3, 0 <= morton_enc n0 n1 n2 n3 < 2 ^ 64) ->
  1 <= nparts <= 2 ^ 30 -> (65 <= fuel)%nat ->
  List.Forall no_nan4 lb_ptr -> List.Forall no_nan4 ub_ptr ->
  let c := morton_encode_sort_chunk morton_enc parallel_sort glb gub lb_ptr ub_ptr
                                    (vidx_init nparts) nparts in
  exists tree,
    construct_bvh_tree (srt_mcodes_of c) (srt_lb c) (srt_ub c) fuel nparts = Done tree /\
    verify_bvh_tree tree (srt_mcodes_of c) (mcodes c) (vidx c) (srt_lb c) (srt_ub c)
                    lb_ptr ub_ptr = true.
Proof.
  intros Hsort Henc HP Hfuel Hnl Hnu c.
  set (mc := map (fun pidx => mcode_of morton_enc glb gub (at_ lb_ptr pidx) (at_ ub_ptr pidx))
                 (index_range 0 nparts)).
  set (v := parallel_sort (fun idx1 idx2 => at_ mc idx1 <? at_ mc idx2) (vidx_init nparts)).
  destruct (Hsort (fun idx1 idx2 => at_ mc idx1 <? at_ mc idx2) (vidx_init nparts)
                  (key_order_strict_weak (fun k => at_ mc k))) as [Hperm Hsorted].
  fold v in Hperm, Hsorted.
  assert (Hv : size v = nparts).
  { unfold size. rewrite (Permutation_length Hperm). unfold vidx_init.
    rewrite length_index_range. lia. }
  assert (Hc : c = mk_sorted_chunk mc v (isort_apply v nparts lb_ptr)
                                   (isort_apply v nparts ub_ptr) (isort_apply v nparts mc))
    by reflexivity.
  rewrite Hc. clear Hc c. cbn [srt_mcodes_of mcodes vidx srt_lb srt_ub].
  assert (Hmc : forall k, u64 (at_ mc k)).
  { intros k. unfold at_. rewrite list_lookup_total_alt.
    destruct (mc !! Z.to_nat k) as [x|] eqn:E; simpl.
    - apply list_elem_of_lookup_2, list_elem_of_In in E. unfold mc in E.
      apply in_map_iff in E as (pidx & <- & _). apply Henc.
    - unfold u64. simpl. lia. }
  assert (Hsz : size (isort_apply v nparts mc) = nparts).
  { unfold isort_apply, size. rewrite length_map, length_index_range. lia. }
  assert (Hs : Sorted Z.le (isort_apply v nparts mc)).
  { rewrite (isort_apply_map v nparts mc Hv). apply (Sorted_map_key (fun k => at_ mc k)).
    exact Hsorted. }
  assert (Hu : List.Forall u64 (isort_apply v nparts mc)).
  { unfold isort_apply. apply List.Forall_map. apply List.Forall_forall. intros i _. apply Hmc. }
  destruct (completed_tree_exists (isort_apply v nparts mc) (isort_apply v nparts lb_ptr)
                                  (isort_apply v nparts ub_ptr) fuel Hs Hu
                                  ltac:(rewrite Hsz; exact HP) Hfuel) as (tree & Hrun).
  rewrite Hsz in Hrun. exists tree. split; [exact Hrun|].
  assert (Hrun' : construct_bvh_tree (isort_apply v nparts mc) (isort_apply v nparts lb_ptr)
                                     (isort_apply v nparts ub_ptr) fuel
                                     (size (isort_apply v nparts mc)) = Done tree)
    by (rewrite Hsz; exact Hrun).
  destruct (completed_tree_node_ok _ _ _ fuel tree Hs Hu ltac:(rewrite Hsz; lia) Hrun')
    as (Hok & _).
  apply (verify_tree_ok tree (isort_apply v nparts mc) mc v (isort_apply v nparts lb_ptr)
                        (isort_apply v nparts ub_ptr) lb_ptr ub_ptr Hok).
  - unfold isort_apply. apply List.Forall_map. apply List.Forall_forall. intros i _.
    apply no_nan4_at. exact Hnl.
  - unfold isort_apply. apply List.Forall_map. apply List.Forall_forall. intros i _.
    apply no_nan4_at. exact Hnu.
  - rewrite Hsz. unfold u32_max. change (2 ^ 30) with 1073741824 in HP. lia.
  - intros j Hj. rewrite Hsz in Hj. unfold isort_apply.
    rewrite !at_index_range_map by lia. auto.
Qed.

Lemma sort_build_verify_witness :
  exists tree,
    construct_bvh_tree (srt_mcodes_of sort_run) (srt_lb sort_run) (srt_ub sort_run) 65 3
    = Done tree /\
    verify_bvh_tree tree (srt_mcodes_of sort_run) (mcodes sort_run) (vidx sort_run)
                    (srt_lb sort_run) (srt_ub sort_run) sort_lb sort_ub = true.
Proof.
  apply (sort_build_verify morton_interleave insertion_sort (box_at 0) (box_at 8)
                           sort_lb sort_ub 3 65).
  - exact insertion_sort_contract.
  - exact morton_interleave_u64.
  - vm_compute. split; discriminate.
  - lia.
  - repeat constructor; discriminate.
  - repeat constructor; discriminate.
Defined.

(** ** The bit helpers of the builder *)

Lemma u64_high_bit a n : 0 <= a < 2 ^ 64 -> 64 <= n -> Z.testbit a n = false.
Proof.
  intros Ha Hn. destruct (Z.eq_dec a 0) as [->|Hne]; [apply Z.bits_0|].
  apply Z.bits_above_log2; [lia|].
  assert (Z.log2 a < 64) by (apply Z.log2_lt_pow2; lia). lia.
Qed.

(** [first_diff_bit] on 64-bit values: 64 for equal arguments;
    otherwise the index [r <= 63], counted from the most significant
    bit, such that the arguments agree on their first [r] bits and differ
    in the next one. *)
Theorem first_diff_bit_spec a b :
  0 <= a < 2 ^ 64 -> 0 <= b < 2 ^ 64 ->
  (a = b /\ first_diff_bit a b = 64) \/
  (a <> b /\ 0 <= first_diff_bit a b <= 63 /\
   same_prefix (first_diff_bit a b) a b /\
   Z.testbit a (63 - first_diff_bit a b) <> Z.testbit b (63 - first_diff_bit a b)).
Proof.
  intros Ha Hb. destruct (Z.eq_dec a b) as [->|Hne].
  - left. split; [reflexivity|apply first_diff_bit_same].
  - right. split; [exact Hne|]. unfold first_diff_bit, clzll.
    set (x := Z.lxor a b).
    assert (Hx0 : 0 <= x) by (apply Z.lxor_nonneg; lia).
    assert (Hxne : x <> 0) by (intros E; apply Z.lxor_eq in E; contradiction).
    destruct (x =? 0) eqn:E; [apply Z.eqb_eq in E; contradiction|].
    assert (Hlog : 0 <= Z.log2 x < 64).
    { split; [apply Z.log2_nonneg|].
      destruct (Z.lt_ge_cases (Z.log2 x) 64) as [Hlt|Hge]; [exact Hlt|exfalso].
      assert (Hb1 : Z.testbit x (Z.log2 x) = true) by (apply Z.bit_log2; lia).
      unfold x in Hb1 at 1. rewrite Z.lxor_spec in Hb1.
      rewrite (u64_high_bit a (Z.log2 x) Ha Hge), (u64_high_bit b (Z.log2 x) Hb Hge) in Hb1.
      discriminate. }
    split; [lia|]. split.
    + unfold same_prefix. replace (64 - (63 - Z.log2 x)) with (Z.log2 x + 1) by lia.
      apply Z.bits_inj'. intros n Hn. rewrite !Z.shiftr_spec by lia.
      assert (Hb0 : Z.testbit x (n + (Z.log2 x + 1)) = false)
        by (apply Z.bits_above_log2; lia).
      unfold x in Hb0 at 1. rewrite Z.lxor_spec in Hb0.
      destruct (Z.testbit a (n + (Z.log2 x + 1))), (Z.testbit b (n + (Z.log2 x + 1)));
        try reflexivity; discriminate.
    + replace (63 - (63 - Z.log2 x)) with (Z.log2 x) by lia.
      assert (Hb1 : Z.testbit x (Z.log2 x) = true) by (apply Z.bit_log2; lia).
      unfold x in Hb1 at 1. rewrite Z.lxor_spec in Hb1.
      destruct (Z.testbit a (Z.log2 x)), (Z.testbit b (Z.log2 x)); try discriminate; congruence.
Qed.

Lemma first_diff_bit_spec_witness :
  (5 = 6 /\ first_diff_bit 5 6 = 64) \/
  (5 <> 6 /\ 0 <= first_diff_bit 5 6 <= 63 /\
   same_prefix (first_diff_bit 5 6) 5 6 /\
   Z.testbit 5 (63 - first_diff_bit 5 6) <> Z.testbit 6 (63 - first_diff_bit 5 6)).
Proof.
  apply (first_diff_bit_spec 5 6); vm_compute; split; discriminate || reflexivity.
Defined.

(** The search of lines 215-218 and 236-239. On a range of sorted
    codes that agree on their first [s] bits, [std::lower_bound]
    with the mask comparator returns the position where bit [s] (counted
    from the most significant bit) flips: the codes before it have the
    bit clear, the codes from it on have the bit set. *)
Theorem find_flip_partition codes b e s :
  Sorted Z.le codes ->
  0 <= b -> b <= e -> e <= size codes -> 0 <= s <= 63 ->
  (forall i j, b <= i < e -> b <= j < e -> same_prefix s (at_ codes i) (at_ codes j)) ->
  b <= find_flip codes b e s <= e /\
  (forall i, b <= i < find_flip codes b e s -> Z.testbit (at_ codes i) (63 - s) = false) /\
  (forall i, find_flip codes b e s <= i < e -> Z.testbit (at_ codes i) (63 - s) = true).
Proof.
  intros Hs Hb Hbe He Hs63 Hp.
  split; [apply find_flip_range; exact Hbe|].
  destruct (find_flip_split codes (Sorted_at codes Hs) b e s Hb Hbe He Hs63 Hp)
    as (_ & H0 & H1).
  split; assumption.
Qed.

Lemma find_flip_partition_witness :
  0 <= find_flip s3_codes 0 3 62 <= 3 /\
  (forall i, 0 <= i < find_flip s3_codes 0 3 62 -> Z.testbit (at_ s3_codes i) (63 - 62) = false) /\
  (forall i, find_flip s3_codes 0 3 62 <= i < 3 -> Z.testbit (at_ s3_codes i) (63 - 62) = true).
Proof.
  apply (find_flip_partition s3_codes 0 3 62).
  - exact s3_codes_sorted.
  - lia.
  - lia.
  - vm_compute. discriminate.
  - lia.
  - intros i j Hi Hj.
    assert (Hci : i = 0 \/ i = 1 \/ i = 2) by lia.
    assert (Hcj : j = 0 \/ j = 1 \/ j = 2) by lia.
    destruct Hci as [-> | [-> | ->]], Hcj as [-> | [-> | ->]]; reflexivity.
Defined.

(** ** The driver over the chunks *)

(** [construct_bvh_trees_parallel] on chunks of sorted 64-bit codes,
    [1 <= P <= 2^30] particles each: no overflow check fires and no cast
    throws; the result holds one tree per chunk, the tree of that chunk. *)
Theorem construct_bvh_trees_parallel_returns fuel nparts
        (chunks : list (list Z * list array4 * list array4)) :
  1 <= nparts <= 2 ^ 30 -> (65 <= fuel)%nat -> size chunks <= 2 ^ 32 ->
  List.Forall (fun c => Sorted Z.le (fst (fst c)) /\ List.Forall u64 (fst (fst c)) /\
                        size (fst (fst c)) = nparts) chunks ->
  exists trees,
    construct_bvh_trees_parallel fuel nparts chunks = Done trees /\
    Forall2 (fun c tree =>
               construct_bvh_tree (fst (fst c)) (snd (fst c)) (snd c) fuel nparts = Done tree)
            chunks trees.
Proof.
  intros HP Hfuel HK Hall. unfold construct_bvh_trees_parallel.
  change (2 ^ 30) with 1073741824 in HP. change (2 ^ 32) with 4294967296 in HK.
  pose proof (size_nonneg chunks) as H0.
  replace (nparts * size chunks >? ptrdiff_max) with false
    by (symmetry; rewrite Z.gtb_ltb; apply Z.ltb_ge; unfold ptrdiff_max; nia).
  clear HK H0. induction Hall as [|[[c l] u] chunks (Hs & Hu & Hsz) _ IH]; simpl.
  - exists []. split; [reflexivity|constructor].
  - simpl in Hs, Hu, Hsz.
    destruct (completed_tree_exists c l u fuel Hs Hu) as (tree & Hrun);
      [rewrite Hsz; change (2 ^ 30) with 1073741824; exact HP|exact Hfuel|].
    rewrite Hsz in Hrun. rewrite Hrun. simpl obind.
    destruct IH as (trees & Hrest & Hall2). rewrite Hrest. simpl obind.
    exists (tree :: trees). split; [reflexivity|]. constructor; [exact Hrun|exact Hall2].
Qed.

Lemma construct_bvh_trees_parallel_returns_witness :
  exists trees,
    construct_bvh_trees_parallel 65 3 [(s3_codes, w_lbs, w_ubs); (s3_codes, w_ubs, w_ubs)]
    = Done trees /\
    Forall2 (fun c tree =>
               construct_bvh_tree (fst (fst c)) (snd (fst c)) (snd c) 65 3 = Done tree)
            [(s3_codes, w_lbs, w_ubs); (s3_codes, w_ubs, w_ubs)] trees.
Proof.
  apply (construct_bvh_trees_parallel_returns 65 3
           [(s3_codes, w_lbs, w_ubs); (s3_codes, w_ubs, w_ubs)]).
  - vm_compute. split; discriminate.
  - lia.
  - vm_compute. discriminate.
  - constructor; [split; [exact s3_codes_sorted|split; [exact s3_codes_u64|reflexivity]]|].
    constructor; [split; [exact s3_codes_sorted|split; [exact s3_codes_u64|reflexivity]]|].
    constructor.
Defined.

(** ** The encode/sort phase *)

Lemma u64_of_float_nonneg f : 0 <= u64_of_float f.
Proof.
  destruct f as [s|s| |s m e]; unfold u64_of_float; try lia.
  destruct s; [lia|]. cbv zeta.
  assert (H : 0 <= (if 0 <=? e then Z.pos m * 2 ^ e else Z.pos m / 2 ^ (- e))).
  { destruct (0 <=? e) eqn:E.
    - apply Z.leb_le in E. assert (0 < 2 ^ e) by (apply Z.pow_pos_nonneg; lia). nia.
    - apply Z.div_pos; [lia|]. apply Z.pow_pos_nonneg; [lia|]. apply Z.leb_gt in E. lia. }
  destruct (_ <? 2 ^ 64); lia.
Qed.

(** [disc_single_coord] always returns one of the [2^16] slots, whatever
    its arguments (also outside [[min, max)], and for a NaN), so that the
    Morton encoder only ever sees 16-bit coordinates. *)
Theorem disc_single_coord_range x min max : 0 <= disc_single_coord x min max <= 65535.
Proof.
  unfold disc_single_coord. change (Z.shiftl 1 16 - 1) with 65535.
  pose proof (u64_of_float_nonneg
    (float_mul (if SFleb (float_of_Z 0) (float_div (float_sub x min) (float_sub max min))
                then float_div (float_sub x min) (float_sub max min) else float_of_Z 0)
               (float_of_Z (Z.shiftl 1 16)))).
  lia.
Qed.

Lemma combine_map {A B C} (f : A -> B) (g : A -> C) (l : list A) :
  combine (map f l) (map g l) = map (fun x => (f x, g x)) l.
Proof. induction l as [|x l IH]; simpl; [reflexivity|]. rewrite IH. reflexivity. Qed.

(** The sort loses and duplicates nothing. Every particle of the chunk
    has a code, the code of the centre of its box; the sorted code and
    bound arrays hold [P] entries each; and the sorted codes and boxes,
    taken together particle by particle, are a permutation of the codes
    and boxes of the [P] particles. *)
Theorem sort_keeps_particles
        (morton_enc : Z -> Z -> Z -> Z -> Z)
        (parallel_sort : (Z -> Z -> bool) -> list Z -> list Z)
        (glb gub : array4) (lb_ptr ub_ptr : list array4) (nparts : Z) :
  sort_contract parallel_sort ->
  0 <= nparts -> size lb_ptr = nparts -> size ub_ptr = nparts ->
  let r := morton_encode_sort_chunk morton_enc parallel_sort glb gub lb_ptr ub_ptr
                                    (vidx_init nparts) nparts in
  mcodes r = map (fun pidx => mcode_of morton_enc glb gub (at_ lb_ptr pidx) (at_ ub_ptr pidx))
                 (index_range 0 nparts) /\
  size (mcodes r) = nparts /\ size (srt_mcodes_of r) = nparts /\
  size (srt_lb r) = nparts /\ size (srt_ub r) = nparts /\
  Permutation (combine (srt_mcodes_of r) (combine (srt_lb r) (srt_ub r)))
              (map (fun pidx => (mcode_of morton_enc glb gub (at_ lb_ptr pidx) (at_ ub_ptr pidx),
                                 (at_ lb_ptr pidx, at_ ub_ptr pidx)))
                   (index_range 0 nparts)).
Proof.
  intros Hsort HP Hl Hu r.
  set (mc := map (fun pidx => mcode_of morton_enc glb gub (at_ lb_ptr pidx) (at_ ub_ptr pidx))
                 (index_range 0 nparts)).
  set (v := parallel_sort (fun idx1 idx2 => at_ mc idx1 <? at_ mc idx2) (vidx_init nparts)).
  destruct (Hsort (fun idx1 idx2 => at_ mc idx1 <? at_ mc idx2) (vidx_init nparts)
                  (key_order_strict_weak (fun k => at_ mc k))) as [Hperm _].
  fold v in Hperm.
  assert (Hv : size v = nparts).
  { unfold size. rewrite (Permutation_length Hperm). unfold vidx_init.
    rewrite length_index_range. lia. }
  assert (Hr : r = mk_sorted_chunk mc v (isort_apply v nparts lb_ptr)
                                   (isort_apply v nparts ub_ptr) (isort_apply v nparts mc))
    by reflexivity.
  rewrite Hr. clear Hr r. cbn [srt_mcodes_of mcodes srt_lb srt_ub].
  assert (Hmc : size mc = nparts).
  { unfold mc, size. rewrite length_map, length_index_range. lia. }
  split; [reflexivity|]. split; [exact Hmc|].
  assert (Hsz : forall {A} `{Inhabited A} (src : list A), size (isort_apply v nparts src) = nparts).
  { intros A HA src. unfold isort_apply, size. rewrite length_map, length_index_range. lia. }
  split; [apply Hsz|]. split; [apply Hsz|]. split; [apply Hsz|].
  rewrite !(isort_apply_map v nparts) by exact Hv.
  rewrite !combine_map.
  assert (E : map (fun pidx => (mcode_of morton_enc glb gub (at_ lb_ptr pidx) (at_ ub_ptr pidx),
                                (at_ lb_ptr pidx, at_ ub_ptr pidx)))
                  (index_range 0 nparts)
              = map (fun k => (at_ mc k, (at_ lb_ptr k, at_ ub_ptr k))) (index_range 0 nparts)).
  { apply map_ext_in. intros k Hk. apply in_index_range in Hk.
    unfold mc. rewrite at_index_range_map by lia. reflexivity. }
  rewrite E. apply Permutation_map. exact Hperm.
Qed.

Lemma sort_keeps_particles_witness :
  mcodes sort_run
  = map (fun pidx => mcode_of morton_interleave (box_at 0) (box_at 8)
                              (at_ sort_lb pidx) (at_ sort_ub pidx))
        (index_range 0 3) /\
  size (mcodes sort_run) = 3 /\ size (srt_mcodes_of sort_run) = 3 /\
  size (srt_lb sort_run) = 3 /\ size (srt_ub sort_run) = 3 /\
  Permutation (combine (srt_mcodes_of sort_run) (combine (srt_lb sort_run) (srt_ub sort_run)))
              (map (fun pidx => (mcode_of morton_interleave (box_at 0) (box_at 8)
                                          (at_ sort_lb pidx) (at_ sort_ub pidx),
                                 (at_ sort_lb pidx, at_ sort_ub pidx)))
                   (index_range 0 3)).
Proof.
  apply (sort_keeps_particles morton_interleave insertion_sort (box_at 0) (box_at 8)
                              sort_lb sort_ub 3 insertion_sort_contract).
  - lia.
  - reflexivity.
  - reflexivity.
Defined.

(** ** [sim::propagate_for]: errors, boxes and the global reduction *)

Lemma in_index_range_iff i a b : In i (index_range a b) <-> a <= i < b.
Proof.
  split; [apply in_index_range|]. intros Hi. unfold index_range. apply in_map_iff.
  exists (Z.to_nat (i - a)). split; [lia|]. apply in_seq. lia.
Qed.

Lemma index_range_split a i b :
  a <= i < b -> index_range a b = index_range a i ++ i :: index_range (i + 1) b.
Proof.
  intros Hi. rewrite (index_range_app a i b) by lia.
  rewrite (index_range_cons i b) by lia. reflexivity.
Qed.

Lemma index_range_empty a : index_range a a = [].
Proof. unfold index_range. rewrite Z.sub_diag. reflexivity. Qed.

Lemma index_range_shift a n :
  index_range a (a + n) = map (fun i => a + i) (index_range 0 n).
Proof.
  unfold index_range. rewrite map_map. replace (a + n - a) with (n - 0) by lia.
  apply map_ext. intros k. lia.
Qed.

Lemma fold_left_pres {B I} (f : B -> I -> B) (P : B -> Prop) (l : list I) :
  (forall b i, In i l -> P b -> P (f b i)) -> forall b, P b -> P (fold_left f l b).
Proof.
  induction l as [|i l IH]; intros Hf b Hb; simpl; [exact Hb|].
  apply IH; [intros b' i' Hi'; apply Hf; right; exact Hi'|].
  apply Hf; [left; reflexivity|exact Hb].
Qed.

(** A loop in which one iteration establishes [Q] and the later ones
    keep it. *)
Lemma fold_left_hit {B I} (f : B -> I -> B) (R Q : B -> Prop) (l1 l2 : list I) (x : I) :
  (forall b i, In i l1 -> R b -> R (f b i)) ->
  (forall b, R b -> Q (f b x)) ->
  (forall b i, In i l2 -> Q b -> Q (f b i)) ->
  forall b, R b -> Q (fold_left f (l1 ++ x :: l2) b).
Proof.
  intros H1 Hx H2 b Hb. rewrite fold_left_app. simpl.
  apply (fold_left_pres f Q l2 H2). apply Hx.
  apply (fold_left_pres f R l1 H1). exact Hb.
Qed.

Lemma write2_size {A} (v : list (list A)) c p (x : A) : size (write2 v c p x) = size v.
Proof. unfold write2, size. rewrite length_insert. reflexivity. Qed.

Lemma write2_row_size {A} (v : list (list A)) c p (x : A) c' :
  size (at_ (write2 v c p x) c') = size (at_ v c').
Proof.
  unfold write2, at_, size.
  destruct (Nat.eq_dec (Z.to_nat c) (Z.to_nat c')) as [E|E].
  - rewrite <- E. destruct (Nat.lt_ge_cases (Z.to_nat c) (length v)) as [Hlt|Hge].
    + rewrite list_lookup_total_insert_eq by exact Hlt. rewrite length_insert. reflexivity.
    + rewrite list_insert_ge by exact Hge. reflexivity.
  - rewrite list_lookup_total_insert_ne by exact E. reflexivity.
Qed.

Lemma read2_write2_same {A} `{Inhabited A} (v : list (list A)) c p (x : A) :
  0 <= c < size v -> 0 <= p < size (at_ v c) -> read2 (write2 v c p x) c p = x.
Proof.
  unfold read2, write2, at_, size. intros Hc Hp.
  rewrite list_lookup_total_insert_eq by lia.
  apply list_lookup_total_insert_eq. lia.
Qed.

(** The box vectors have room for [nchunks] chunks of [n] particles. *)
Definition dims (n : Z) (b : list (list array4) * list (list array4)) : Prop :=
  nchunks <= size (fst b) /\ nchunks <= size (snd b) /\
  forall c, 0 <= c < nchunks -> n <= size (at_ (fst b) c) /\ n <= size (at_ (snd b) c).

Definition slot (b : list (list array4) * list (list array4)) (c p : Z) : array4 * array4 :=
  (read2 (fst b) c p, read2 (snd b) c p).

Lemma keeps_slot c p b b' : keeps c p b b' -> slot b' c p = slot b c p.
Proof. unfold keeps, slot. intros [H1 H2]. rewrite H1, H2. reflexivity. Qed.

Section PropagateMore.
Variable dfloat : Type.
Variable df_of_double : spec_float -> dfloat.
Variable df_lt : dfloat -> dfloat -> bool.
Variable df_sub : dfloat -> dfloat -> dfloat.
Variable df_to_double : dfloat -> spec_float.
Variable order : Z.
Variable batch_size : Z.
Variable integrate : Z -> list (s_data_t dfloat) * bool.

#[local] Existing Instance s_data_inhabited.
#[local] Instance dfloat_inhabited' : Inhabited dfloat := dfloat_inhabited dfloat df_of_double.

Local Notation "'lane_aabb''" :=
  (lane_aabb dfloat df_of_double df_lt df_sub df_to_double order).
Local Notation "'lane_store''" :=
  (lane_store dfloat df_of_double df_lt df_sub df_to_double order batch_size).
Local Notation "'batch_store''" :=
  (batch_store dfloat df_of_double df_lt df_sub df_to_double order batch_size).
Local Notation "'integrate_range''" :=
  (integrate_range dfloat df_of_double df_lt df_sub df_to_double order batch_size integrate).
Local Notation "'batch_int_aabb''" :=
  (batch_int_aabb dfloat df_of_double df_lt df_sub df_to_double order batch_size integrate).
Local Notation "'propagate_for_aabb''" :=
  (propagate_for_aabb dfloat df_of_double df_lt df_sub df_to_double order batch_size integrate).
Local Notation "'propagate_for''" :=
  (propagate_for dfloat df_of_double df_lt df_sub df_to_double order batch_size integrate).

(** *** The error flag *)

Lemma integrate_range_err range : forall boxes,
  snd (integrate_range' range boxes) = true <->
  exists idx, In idx range /\ snd (integrate idx) = false.
Proof.
  induction range as [|idx range IH]; intros boxes; simpl.
  - split; [discriminate|intros (idx & [] & _)].
  - destruct (integrate idx) as [recs ok] eqn:E. destruct ok.
    + rewrite IH. split.
      * intros (j & Hj & Hf). exists j. split; [right; exact Hj|exact Hf].
      * intros (j & [<-|Hj] & Hf); [rewrite E in Hf; discriminate|].
        exists j. split; assumption.
    + simpl. split; [|reflexivity]. intros _. exists idx.
      split; [left; reflexivity|rewrite E; reflexivity].
Qed.

Lemma fold_reduce_chunk_err range chunks : forall st,
  int_error (fold_left (reduce_chunk batch_size range) chunks st) = int_error st.
Proof.
  induction chunks as [|c chunks IH]; intros st; simpl; [reflexivity|].
  rewrite IH. reflexivity.
Qed.

Lemma batch_int_aabb_err range st :
  int_error (batch_int_aabb' range st)
  = int_error st || snd (integrate_range' range (st_lb st, st_ub st)).
Proof.
  unfold batch_int_aabb.
  destruct (integrate_range' range (st_lb st, st_ub st)) as [boxes err].
  rewrite fold_reduce_chunk_err. reflexivity.
Qed.

Lemma propagate_for_aabb_err nparts st :
  int_error (propagate_for_aabb' nparts st) = true <->
  exists idx, 0 <= idx < nparts / batch_size /\ snd (integrate idx) = false.
Proof.
  unfold propagate_for_aabb, parallel_for_batches. simpl fold_left.
  rewrite batch_int_aabb_err. simpl. rewrite integrate_range_err. unfold n_batches.
  split; intros (idx & Hin & Hf); exists idx; (split; [|exact Hf]).
  - apply in_index_range_iff. exact Hin.
  - apply in_index_range_iff. exact Hin.
Qed.

(** [propagate_for] throws (line 662) exactly when the integration of
    one of its [nparts / batch_size] batches does not end with
    [time_limit] in every lane. *)
Theorem propagate_for_throws_iff morton_enc parallel_sort nparts st :
  propagate_for dfloat df_of_double df_lt df_sub df_to_double order batch_size integrate
                morton_enc parallel_sort nparts st = None <->
  exists idx, 0 <= idx < n_batches batch_size nparts /\ snd (integrate idx) = false.
Proof.
  unfold propagate_for, n_batches. rewrite <- (propagate_for_aabb_err nparts st).
  destruct (int_error (propagate_for_aabb' nparts st)).
  - split; reflexivity.
  - split; discriminate.
Qed.

(** *** The boxes of the particles *)

Lemma lane_store_dims n idx c recs b i : dims n b -> dims n (lane_store' idx c recs b i).
Proof.
  unfold dims, lane_store. simpl fst. simpl snd. intros (H1 & H2 & H3).
  rewrite !write2_size. split; [exact H1|]. split; [exact H2|].
  intros c' Hc'. rewrite !write2_row_size. apply H3. exact Hc'.
Qed.

Lemma lane_store_hit n idx c recs b i :
  dims n b -> 0 <= c < nchunks -> 0 <= idx * batch_size + i < n ->
  slot (lane_store' idx c recs b i) c (idx * batch_size + i) = lane_aabb' c (at_ recs i).
Proof.
  intros (H1 & H2 & H3) Hc Hp. destruct (H3 c Hc) as [H4 H5].
  unfold slot, lane_store. simpl fst. simpl snd.
  rewrite !read2_write2_same by lia.
  destruct (lane_aabb' c (at_ recs i)); reflexivity.
Qed.

Lemma lane_store_keeps idx c' recs b i c p :
  0 <= p -> 0 <= idx * batch_size + i ->
  c <> c' /\ 0 <= c /\ 0 <= c' \/ p <> idx * batch_size + i ->
  keeps c p b (lane_store' idx c' recs b i).
Proof.
  intros Hp Hq Hne. unfold keeps, lane_store. simpl fst. simpl snd.
  split; apply read2_write2_other; destruct Hne as [Hne|Hne]; [left|right|left|right]; lia.
Qed.

Lemma batch_store_dims n idx recs b : dims n b -> dims n (batch_store' idx recs b).
Proof.
  intros Hb. unfold batch_store.
  apply (fold_left_pres _ (dims n)); [|exact Hb]. intros b1 c _ Hb1.
  apply (fold_left_pres _ (dims n)); [|exact Hb1]. intros b2 i _ Hb2.
  apply lane_store_dims. exact Hb2.
Qed.

(** One batch writes the box of each of its lanes, in every chunk. *)
Lemma batch_store_hit n idx recs b c i0 :
  dims n b -> 0 <= c < nchunks -> 0 <= idx -> 0 <= i0 < batch_size ->
  idx * batch_size + i0 < n ->
  slot (batch_store' idx recs b) c (idx * batch_size + i0) = lane_aabb' c (at_ recs i0).
Proof.
  intros Hb Hc Hidx Hi0 Hn. unfold batch_store.
  rewrite (index_range_split 0 c nchunks Hc).
  set (Q := fun b' => dims n b' /\
                      slot b' c (idx * batch_size + i0) = lane_aabb' c (at_ recs i0)).
  assert (Hinner : forall c' b1, dims n b1 ->
            dims n (fold_left (lane_store' idx c' recs) (index_range 0 batch_size) b1)).
  { intros c' b1 Hb1. apply (fold_left_pres _ (dims n)); [|exact Hb1].
    intros b2 i _ Hb2. apply lane_store_dims. exact Hb2. }
  apply (fold_left_hit _ (dims n) Q (index_range 0 c) (index_range (c + 1) nchunks) c).
  - intros b1 c' _ Hb1. apply Hinner. exact Hb1.
  - intros b1 Hb1. rewrite (index_range_split 0 i0 batch_size Hi0).
    apply (fold_left_hit _ (dims n) Q (index_range 0 i0) (index_range (i0 + 1) batch_size) i0).
    + intros b2 i _ Hb2. apply lane_store_dims. exact Hb2.
    + intros b2 Hb2. split; [apply lane_store_dims; exact Hb2|].
      apply (lane_store_hit n); [exact Hb2|exact Hc|nia].
    + intros b2 i Hi [Hb2 Hs]. apply in_index_range in Hi.
      split; [apply lane_store_dims; exact Hb2|].
      rewrite <- Hs. apply keeps_slot. apply lane_store_keeps; [nia|nia|right; lia].
    + exact Hb1.
  - intros b1 c' Hc' [Hb1 Hs]. apply in_index_range in Hc'.
    split; [apply Hinner; exact Hb1|].
    rewrite <- Hs. apply keeps_slot. apply fold_keeps.
    intros b2 i Hi. apply in_index_range in Hi.
    apply lane_store_keeps; [nia|nia|left; lia].
  - exact Hb.
Qed.

Lemma batch_store_keeps_other idx recs b c p idx0 i0 :
  0 <= idx -> 0 <= idx0 -> idx <> idx0 -> 0 <= i0 < batch_size ->
  p = idx0 * batch_size + i0 ->
  keeps c p b (batch_store' idx recs b).
Proof.
  intros Hidx Hidx0 Hne Hi0 ->. unfold batch_store. apply fold_keeps. intros b1 c' _.
  apply fold_keeps. intros b2 i Hi. apply in_index_range in Hi.
  apply lane_store_keeps; [nia|nia|right].
  assert (Hcase : idx + 1 <= idx0 \/ idx0 + 1 <= idx) by lia.
  destruct Hcase; nia.
Qed.

Lemma integrate_range_all_ok range : forall boxes,
  (forall idx, In idx range -> snd (integrate idx) = true) ->
  integrate_range' range boxes
  = (fold_left (fun b idx => batch_store' idx (fst (integrate idx)) b) range boxes, false).
Proof.
  induction range as [|idx range IH]; intros boxes Hok; simpl; [reflexivity|].
  pose proof (Hok idx (or_introl eq_refl)) as Hidx.
  destruct (integrate idx) as [recs ok]. simpl in Hidx. subst ok.
  apply IH. intros j Hj. apply Hok. right. exact Hj.
Qed.

(** After a [propagate_for] that does not throw, the box of every
    particle of a full batch, in every chunk, is the box that [lane_aabb]
    computes from the substep record of its lane. *)
Theorem propagate_for_boxes morton_enc parallel_sort nparts st st' chunks c p :
  0 < batch_size -> 0 <= nparts ->
  dims nparts (st_lb st, st_ub st) ->
  propagate_for' morton_enc parallel_sort nparts st = Some (st', chunks) ->
  0 <= c < nchunks -> 0 <= p < nparts / batch_size * batch_size ->
  (read2 (st_lb st') c p, read2 (st_ub st') c p)
  = lane_aabb' c (at_ (fst (integrate (p / batch_size))) (p mod batch_size)).
Proof.
  intros Hbs HP Hd Hrun Hc Hp. unfold propagate_for in Hrun.
  destruct (int_error (propagate_for_aabb' nparts st)) eqn:Eerr; [discriminate|].
  injection Hrun as <- _.
  assert (Hok : forall idx, In idx (index_range 0 (nparts / batch_size)) ->
                            snd (integrate idx) = true).
  { intros idx Hidx. apply in_index_range in Hidx.
    destruct (snd (integrate idx)) eqn:E; [reflexivity|].
    assert (Ht : int_error (propagate_for_aabb' nparts st) = true)
      by (apply propagate_for_aabb_err; exists idx; split; assumption).
    rewrite Ht in Eerr. discriminate. }
  unfold propagate_for_aabb, parallel_for_batches, n_batches. cbn [fold_left].
  unfold batch_int_aabb, reset_globals. cbn [st_lb st_ub].
  rewrite (integrate_range_all_ok _ _ Hok).
  set (boxes := fold_left (fun b idx => batch_store' idx (fst (integrate idx)) b)
                          (index_range 0 (nparts / batch_size)) (st_lb st, st_ub st)).
  match goal with
  | |- context [fold_left (reduce_chunk batch_size ?r) ?cs ?s] =>
      destruct (fold_reduce_chunk_boxes batch_size r cs s) as [E1 E2]
  end.
  rewrite E1, E2. cbn [st_lb st_ub].
  change (slot boxes c p
          = lane_aabb' c (at_ (fst (integrate (p / batch_size))) (p mod batch_size))).
  pose proof (Z.div_mod p batch_size ltac:(lia)) as Hdm.
  pose proof (Z.mod_pos_bound p batch_size Hbs) as Hmod.
  assert (Hq : 0 <= p / batch_size < nparts / batch_size).
  { split; [apply Z.div_pos; lia|].
    apply Z.div_lt_upper_bound; [lia|]. lia. }
  assert (Hnb : nparts / batch_size * batch_size <= nparts).
  { pose proof (Z.mul_div_le nparts batch_size Hbs). lia. }
  assert (Hpe : p = p / batch_size * batch_size + p mod batch_size) by lia.
  unfold boxes. rewrite (index_range_split 0 (p / batch_size) (nparts / batch_size) Hq).
  set (Q := fun b' => dims nparts b' /\
                      slot b' c p = lane_aabb' c (at_ (fst (integrate (p / batch_size)))
                                                      (p mod batch_size))).
  apply (fold_left_hit _ (dims nparts) Q (index_range 0 (p / batch_size))
                       (index_range (p / batch_size + 1) (nparts / batch_size))
                       (p / batch_size)).
  - intros b idx _ Hb. apply batch_store_dims. exact Hb.
  - intros b Hb. split; [apply batch_store_dims; exact Hb|].
    pose proof (batch_store_hit nparts (p / batch_size) (fst (integrate (p / batch_size)))
                                b c (p mod batch_size) Hb Hc ltac:(lia) Hmod ltac:(lia)) as Hh.
    rewrite <- Hpe in Hh. exact Hh.
  - intros b idx Hidx [Hb Hs]. apply in_index_range in Hidx.
    split; [apply batch_store_dims; exact Hb|].
    rewrite <- Hs. apply keeps_slot.
    apply (batch_store_keeps_other idx _ b c p (p / batch_size) (p mod batch_size));
      [lia|lia|lia|exact Hmod|exact Hpe].
  - exact Hd.
Qed.

(** *** The global boxes of the chunks *)

Lemma local_update_box_step x idx loc i :
  local_update batch_size x idx loc i = box_step x x loc (idx * batch_size + i).
Proof. reflexivity. Qed.

Lemma fold_left_map {A B C} (f : A -> B -> A) (g : C -> B) (l : list C) : forall a,
  fold_left f (map g l) a = fold_left (fun a c => f a (g c)) l a.
Proof. induction l as [|c l IH]; intros a; simpl; [reflexivity|apply IH]. Qed.

(** The two nested loops of the local reduction visit the particles
    [0 .. nb * batch_size - 1] in order. *)
Lemma local_reduce_flat x (nb : Z) :
  0 <= nb -> 0 <= batch_size ->
  local_reduce batch_size x (index_range 0 nb)
  = fold_left (box_step x x) (index_range 0 (nb * batch_size)) (default_lb, default_ub).
Proof.
  intros Hnb Hbs. unfold local_reduce.
  assert (H : forall (k : nat) acc,
    fold_left (fun loc idx => fold_left (local_update batch_size x idx)
                                        (index_range 0 batch_size) loc)
              (index_range 0 (Z.of_nat k)) acc
    = fold_left (box_step x x) (index_range 0 (Z.of_nat k * batch_size)) acc).
  { induction k as [|k IH]; intros acc.
    - simpl Z.of_nat. rewrite Z.mul_0_l, index_range_empty. reflexivity.
    - rewrite (index_range_split 0 (Z.of_nat k) (Z.of_nat (S k))) by lia.
      replace (Z.of_nat k + 1) with (Z.of_nat (S k)) by lia.
      rewrite index_range_empty, fold_left_app, IH. simpl fold_left.
      rewrite (index_range_app 0 (Z.of_nat k * batch_size) (Z.of_nat (S k) * batch_size))
        by nia.
      rewrite fold_left_app.
      replace (Z.of_nat (S k) * batch_size)
        with (Z.of_nat k * batch_size + batch_size) by lia.
      rewrite index_range_shift, fold_left_map. reflexivity. }
  rewrite <- (Z2Nat.id nb Hnb). apply H.
Qed.

Lemma box_fold_min_max lbs ubs idxs :
  idxs <> [] ->
  (forall i, In i idxs -> no_nan4 (at_ lbs i)) ->
  (forall i, In i idxs -> no_nan4 (at_ ubs i)) ->
  box_min_of (fst (fold_left (box_step lbs ubs) idxs (default_lb, default_ub)))
             (map (fun i => at_ lbs i) idxs) /\
  box_max_of (snd (fold_left (box_step lbs ubs) idxs (default_lb, default_ub)))
             (map (fun i => at_ ubs i) idxs).
Proof.
  intros Hne Hnl Hnu.
  assert (Hmin : forall sel : array4 -> spec_float,
            (forall f a b, sel (array4_map2 f a b) = f (sel a) (sel b)) ->
            sel default_lb = finf -> (forall a, no_nan4 a -> not_nan (sel a)) ->
            is_min_of (sel (fst (fold_left (box_step lbs ubs) idxs (default_lb, default_ub))))
                      (map sel (map (fun i => at_ lbs i) idxs))).
  { intros sel Hsel Hdef Hnn.
    destruct (box_fold_coord lbs ubs sel idxs Hsel default_lb default_ub) as [E _].
    rewrite E, Hdef, map_map. apply fold_min_is_min.
    - intros Hnil. apply Hne. destruct idxs; [reflexivity|discriminate].
    - apply List.Forall_map. apply List.Forall_forall. intros j Hj. apply Hnn, Hnl, Hj. }
  assert (Hmax : forall sel : array4 -> spec_float,
            (forall f a b, sel (array4_map2 f a b) = f (sel a) (sel b)) ->
            sel default_ub = neg_finf -> (forall a, no_nan4 a -> not_nan (sel a)) ->
            is_max_of (sel (snd (fold_left (box_step lbs ubs) idxs (default_lb, default_ub))))
                      (map sel (map (fun i => at_ ubs i) idxs))).
  { intros sel Hsel Hdef Hnn.
    destruct (box_fold_coord lbs ubs sel idxs Hsel default_lb default_ub) as [_ E].
    rewrite E, Hdef, map_map. apply fold_max_is_max.
    - intros Hnil. apply Hne. destruct idxs; [reflexivity|discriminate].
    - apply List.Forall_map. apply List.Forall_forall. intros j Hj. apply Hnn, Hnu, Hj. }
  split; repeat split;
    first [apply (Hmin a_x)|apply (Hmin a_y)|apply (Hmin a_z)|apply (Hmin a_r)
          |apply (Hmax a_x)|apply (Hmax a_y)|apply (Hmax a_z)|apply (Hmax a_r)];
    try reflexivity; try (intros a Ha; apply Ha).
Qed.

(** The loop over the chunks of lines 554-633 updates the global box of
    chunk [c] once, from the local reduction of that chunk. *)
Lemma reduce_fold_global range st c :
  0 <= c < nchunks ->
  nchunks <= size (global_lb_atomic st) -> nchunks <= size (global_ub_atomic st) ->
  at_ (global_lb_atomic (fold_left (reduce_chunk batch_size range) (index_range 0 nchunks) st)) c
  = array4_map2 lb_updater (at_ (global_lb_atomic st) c)
                (fst (local_reduce batch_size (at_ (st_lb st) c) range)) /\
  at_ (global_ub_atomic (fold_left (reduce_chunk batch_size range) (index_range 0 nchunks) st)) c
  = array4_map2 ub_updater (at_ (global_ub_atomic st) c)
                (snd (local_reduce batch_size (at_ (st_lb st) c) range)).
Proof.
  intros Hc Hl Hu. rewrite (index_range_split 0 c nchunks Hc).
  set (R := fun b => st_lb b = st_lb st /\
                     size (global_lb_atomic b) = size (global_lb_atomic st) /\
                     size (global_ub_atomic b) = size (global_ub_atomic st) /\
                     at_ (global_lb_atomic b) c = at_ (global_lb_atomic st) c /\
                     at_ (global_ub_atomic b) c = at_ (global_ub_atomic st) c).
  set (Q := fun b =>
     at_ (global_lb_atomic b) c
     = array4_map2 lb_updater (at_ (global_lb_atomic st) c)
                   (fst (local_reduce batch_size (at_ (st_lb st) c) range)) /\
     at_ (global_ub_atomic b) c
     = array4_map2 ub_updater (at_ (global_ub_atomic st) c)
                   (snd (local_reduce batch_size (at_ (st_lb st) c) range))).
  apply (fold_left_hit _ R Q (index_range 0 c) (index_range (c + 1) nchunks) c).
  - intros b i Hi (H1 & H2 & H3 & H4 & H5). apply in_index_range in Hi.
    unfold R, reduce_chunk, size, at_ in *. simpl.
    rewrite !length_insert, !list_lookup_total_insert_ne by lia. auto.
  - intros b (H1 & H2 & H3 & H4 & H5).
    unfold Q, reduce_chunk, size, at_ in *. simpl.
    rewrite !list_lookup_total_insert_eq by lia. rewrite H1, H4, H5. auto.
  - intros b i Hi [H1 H2]. apply in_index_range in Hi.
    unfold Q, reduce_chunk, size, at_ in *. simpl.
    rewrite !list_lookup_total_insert_ne by lia. auto.
  - unfold R. auto.
Qed.

Lemma lb_updater_default a : array4_map2 lb_updater default_lb a = a.
Proof.
  destruct a. unfold array4_map2, lb_updater. simpl. rewrite !std_min_finf_r. reflexivity.
Qed.

Lemma ub_updater_default a : array4_map2 ub_updater default_ub a = a.
Proof.
  destruct a. unfold array4_map2, ub_updater. simpl. rewrite !std_max_neg_finf_r. reflexivity.
Qed.

(** The global boxes as the code computes them. After the integration
    phase with at least one batch, and when the lower-bound boxes of a
    chunk hold no NaN: the global lower bound of the chunk is the
    coordinate-wise minimum of the lower bounds of the particles of the
    full batches, and its global upper bound is the coordinate-wise
    maximum of the same lower bounds (line 589 reads [x_lb_ptr]). *)
Theorem global_boxes_of_lower_bounds nparts st c :
  0 < batch_size -> 1 <= nparts / batch_size -> 0 <= c < nchunks ->
  (forall p, 0 <= p < nparts / batch_size * batch_size ->
             no_nan4 (read2 (st_lb (propagate_for_aabb' nparts st)) c p)) ->
  box_min_of (at_ (global_lb_atomic (propagate_for_aabb' nparts st)) c)
             (map (fun p => read2 (st_lb (propagate_for_aabb' nparts st)) c p)
                  (index_range 0 (nparts / batch_size * batch_size))) /\
  box_max_of (at_ (global_ub_atomic (propagate_for_aabb' nparts st)) c)
             (map (fun p => read2 (st_lb (propagate_for_aabb' nparts st)) c p)
                  (index_range 0 (nparts / batch_size * batch_size))).
Proof.
  intros Hbs Hnb Hc.
  unfold propagate_for_aabb, parallel_for_batches, n_batches. cbn [fold_left].
  unfold batch_int_aabb, reset_globals. cbn [st_lb st_ub].
  destruct (integrate_range' (index_range 0 (nparts / batch_size)) (st_lb st, st_ub st))
    as [boxes err].
  match goal with
  | |- context [fold_left (reduce_chunk batch_size ?r) ?cs ?s] =>
      destruct (fold_reduce_chunk_boxes batch_size r cs s) as [E1 _];
      destruct (reduce_fold_global r s c Hc) as [G1 G2];
      [vm_compute; discriminate|vm_compute; discriminate|]
  end.
  rewrite E1, G1, G2. cbn [st_lb global_lb_atomic global_ub_atomic].
  assert (Hd : forall (d : array4), at_ (replicate (Z.to_nat nchunks) d) c = d).
  { intros d. unfold at_. apply lookup_total_replicate_2. unfold nchunks in *. lia. }
  rewrite !Hd. unfold default_global_lb, default_global_ub.
  rewrite lb_updater_default, ub_updater_default.
  rewrite local_reduce_flat by lia.
  intros Hnan. unfold read2 in *.
  apply box_fold_min_max.
  - rewrite index_range_cons by nia. discriminate.
  - intros i Hi. apply in_index_range in Hi. apply Hnan. exact Hi.
  - intros i Hi. apply in_index_range in Hi. apply Hnan. exact Hi.
Qed.

(** *** The substeps of a chunk *)

(** The times of the begin and the end of a chunk, lines 432-433. *)
Definition chunk_begin_of (chunk_idx : Z) : dfloat :=
  df_of_double (double_mul chunk_size (double_of_Z chunk_idx)).

Definition chunk_end_of (chunk_idx : Z) : dfloat :=
  df_of_double (double_mul chunk_size (double_of_Z (wrap32 (chunk_idx + 1)))).

(** The half-open range of substeps of lines 461-468. *)
Definition substep_range (chunk_idx : Z) (sd : s_data_t dfloat) : Z * Z :=
  let tcoords_end := size (tcoords dfloat sd) in
  let ss_it_begin :=
    upper_bound dfloat df_of_double df_lt (tcoords dfloat sd) 0 tcoords_end
                (chunk_begin_of chunk_idx) in
  let ss_it_end :=
    lower_bound (fun i => df_lt (at_ (tcoords dfloat sd) i) (chunk_end_of chunk_idx))
                ss_it_begin tcoords_end in
  (ss_it_begin, ss_it_end + (if ss_it_end =? tcoords_end then 0 else 1)).

Lemma at_In {A} `{Inhabited A} (l : list A) i : 0 <= i < size l -> In (at_ l i) l.
Proof.
  unfold at_, size. intros Hi. apply list_elem_of_In.
  apply (list_elem_of_lookup_2 l (Z.to_nat i)).
  apply list_lookup_lookup_total_lt. lia.
Qed.

(** Which substeps the box of a particle is computed from. For
    substep end times in nondecreasing order and a chunk that begins
    before it ends, the loop of lines 472-545 runs over one contiguous
    range of valid substep indices, and a substep is in the range exactly
    when it ends after the begin of the chunk and starts before its end
    (substep 0 starts at time zero). *)
Theorem substeps_overlap_chunk chunk_idx sd :
  (forall a b c,
     In a (chunk_begin_of chunk_idx :: chunk_end_of chunk_idx :: tcoords dfloat sd) ->
     In b (chunk_begin_of chunk_idx :: chunk_end_of chunk_idx :: tcoords dfloat sd) ->
     In c (chunk_begin_of chunk_idx :: chunk_end_of chunk_idx :: tcoords dfloat sd) ->
     df_lt a b = false -> df_lt b c = false -> df_lt a c = false) ->
  (forall i j, 0 <= i -> i <= j -> j < size (tcoords dfloat sd) ->
               df_lt (at_ (tcoords dfloat sd) j) (at_ (tcoords dfloat sd) i) = false) ->
  df_lt (chunk_begin_of chunk_idx) (chunk_end_of chunk_idx) = true ->
  lane_aabb' chunk_idx sd
  = fold_left (substep_update dfloat df_of_double df_lt df_sub df_to_double order sd
                              (chunk_begin_of chunk_idx) (chunk_end_of chunk_idx))
              (index_range (fst (substep_range chunk_idx sd)) (snd (substep_range chunk_idx sd)))
              (default_lb, default_ub) /\
  0 <= fst (substep_range chunk_idx sd) /\
  fst (substep_range chunk_idx sd) <= snd (substep_range chunk_idx sd) /\
  snd (substep_range chunk_idx sd) <= size (tcoords dfloat sd) /\
  forall it, 0 <= it < size (tcoords dfloat sd) ->
    (fst (substep_range chunk_idx sd) <= it < snd (substep_range chunk_idx sd) <->
     df_lt (chunk_begin_of chunk_idx) (at_ (tcoords dfloat sd) it) = true /\
     (it = 0 \/ df_lt (at_ (tcoords dfloat sd) (it - 1)) (chunk_end_of chunk_idx) = true)).
Proof.
  intros Hnt Hsorted Hlt. split; [reflexivity|].
  unfold substep_range, upper_bound. cbv zeta. cbn [fst snd].
  unfold dfloat_inhabited' in *.
  set (tc := tcoords dfloat sd) in *.
  set (cb := chunk_begin_of chunk_idx) in *. set (ce := chunk_end_of chunk_idx) in *.
  set (n := size tc) in *.
  pose proof (size_nonneg tc) as Hn0. fold n in Hn0.
  assert (Hin : forall i, 0 <= i < n -> In (at_ tc i) (cb :: ce :: tc)).
  { intros i Hi. right. right. apply at_In. exact Hi. }
  assert (Hcb : In cb (cb :: ce :: tc)) by (left; reflexivity).
  assert (Hce : In ce (cb :: ce :: tc)) by (right; left; reflexivity).
  set (comp1 := fun i => negb (df_lt cb (at_ tc i))).
  set (b := lower_bound comp1 0 n).
  set (comp2 := fun i => df_lt (at_ tc i) ce).
  set (e0 := lower_bound comp2 b n).
  pose proof (lower_bound_range comp1 0 n Hn0) as Hb. fold b in Hb.
  destruct (lower_bound_partition comp1 0 n Hn0) as [B1 B2].
  { intros i j Hi Hij Hj. unfold comp1. rewrite !negb_true_iff. intros Hf.
    apply (Hnt cb (at_ tc j) (at_ tc i));
      [exact Hcb|apply Hin; lia|apply Hin; lia|exact Hf|apply Hsorted; lia]. }
  fold b in B1, B2.
  pose proof (lower_bound_range comp2 b n ltac:(lia)) as He. fold e0 in He.
  destruct (lower_bound_partition comp2 b n ltac:(lia)) as [E1 E2].
  { intros i j Hi Hij Hj. unfold comp2. intros Ht.
    destruct (df_lt (at_ tc i) ce) eqn:Ei; [reflexivity|].
    rewrite <- Ht. symmetry.
    apply (Hnt (at_ tc j) (at_ tc i) ce);
      [apply Hin; lia|apply Hin; lia|exact Hce|apply Hsorted; lia|exact Ei]. }
  fold e0 in E1, E2.
  assert (Hbump : e0 <= e0 + (if e0 =? n then 0 else 1) <= n).
  { destruct (e0 =? n) eqn:E; [lia|]. apply Z.eqb_neq in E. lia. }
  split; [lia|]. split; [lia|]. split; [lia|].
  intros it Hit. split.
  - intros [H1 H2].
    assert (Hle : it <= e0).
    { destruct (e0 =? n) eqn:E; [apply Z.eqb_eq in E|]; lia. }
    split.
    + specialize (B2 it ltac:(lia)). unfold comp1 in B2.
      apply negb_false_iff in B2. exact B2.
    + destruct (Z.eq_dec it 0) as [E|E]; [left; exact E|right].
      destruct (Z_le_gt_dec b (it - 1)) as [Hge|Hgt].
      * apply (E1 (it - 1)). lia.
      * specialize (B1 (it - 1) ltac:(lia)). unfold comp1 in B1.
        apply negb_true_iff in B1.
        destruct (df_lt (at_ tc (it - 1)) ce) eqn:Ec; [reflexivity|].
        rewrite <- Hlt. symmetry.
        apply (Hnt cb (at_ tc (it - 1)) ce);
          [exact Hcb|apply Hin; lia|exact Hce|exact B1|exact Ec].
  - intros [H1 H2].
    assert (Hge : b <= it).
    { destruct (Z_le_gt_dec b it) as [Hle|Hgt]; [exact Hle|].
      specialize (B1 it ltac:(lia)). unfold comp1 in B1.
      apply negb_true_iff in B1. rewrite B1 in H1. discriminate. }
    split; [exact Hge|].
    assert (Hle : it <= e0).
    { destruct H2 as [->|H2]; [lia|].
      destruct (Z_le_gt_dec it e0) as [Hle|Hgt]; [exact Hle|].
      specialize (E2 (it - 1) ltac:(lia)). unfold comp2 in E2.
      rewrite E2 in H2. discriminate. }
    destruct (e0 =? n) eqn:E; [apply Z.eqb_eq in E|]; lia.
Qed.

End PropagateMore.

(** *** The phase on three particles in batches of two *)

(** A particle with [x(t) = y(t) = z(t) = r(t) = t], integrated in three
    substeps that end at the times 1, 2 and [delta_t]. *)
Definition w_record : s_data_t spec_float :=
  mk_s_data spec_float
            [double_of_Z 0; double_of_Z 1; double_of_Z 1; double_of_Z 1;
             double_of_Z 2; double_of_Z 1]
            [double_of_Z 0; double_of_Z 1; double_of_Z 1; double_of_Z 1;
             double_of_Z 2; double_of_Z 1]
            [double_of_Z 0; double_of_Z 1; double_of_Z 1; double_of_Z 1;
             double_of_Z 2; double_of_Z 1]
            [double_of_Z 0; double_of_Z 1; double_of_Z 1; double_of_Z 1;
             double_of_Z 2; double_of_Z 1]
            [double_of_Z 1; double_of_Z 2; delta_t].

Definition w_integrate (idx : Z) : list (s_data_t spec_float) * bool :=
  ([s7_record; w_record], true).

Definition w_state : aabb_state :=
  propagate_for_aabb spec_float (fun d => d) SFltb (SFsub 53 1024) (fun d => d)
                     1 2 w_integrate 3 (fresh_state 3).

Lemma substeps_overlap_chunk_witness :
  lane_aabb spec_float (fun d => d) SFltb (SFsub 53 1024) (fun d => d) 1 3 w_record
  = fold_left (substep_update spec_float (fun d => d) SFltb (SFsub 53 1024) (fun d => d) 1
                              w_record
                              (chunk_begin_of spec_float (fun d => d) 3)
                              (chunk_end_of spec_float (fun d => d) 3))
              (index_range (fst (substep_range spec_float (fun d => d) SFltb 3 w_record))
                           (snd (substep_range spec_float (fun d => d) SFltb 3 w_record)))
              (default_lb, default_ub) /\
  0 <= fst (substep_range spec_float (fun d => d) SFltb 3 w_record) /\
  fst (substep_range spec_float (fun d => d) SFltb 3 w_record)
  <= snd (substep_range spec_float (fun d => d) SFltb 3 w_record) /\
  snd (substep_range spec_float (fun d => d) SFltb 3 w_record)
  <= size (tcoords spec_float w_record) /\
  forall it, 0 <= it < size (tcoords spec_float w_record) ->
    (fst (substep_range spec_float (fun d => d) SFltb 3 w_record) <= it
     < snd (substep_range spec_float (fun d => d) SFltb 3 w_record) <->
     SFltb (chunk_begin_of spec_float (fun d => d) 3) (at_ (tcoords spec_float w_record) it)
     = true /\
     (it = 0 \/
      SFltb (at_ (tcoords spec_float w_record) (it - 1)) (chunk_end_of spec_float (fun d => d) 3)
      = true)).
Proof.
  apply (substeps_overlap_chunk spec_float (fun d => d) SFltb (SFsub 53 1024) (fun d => d)
                                1 3 w_record).
  - intros a b c Ha Hb Hc.
    simpl in Ha, Hb, Hc.
    destruct Ha as [<-|[<-|[<-|[<-|[<-|[]]]]]];
      destruct Hb as [<-|[<-|[<-|[<-|[<-|[]]]]]];
      destruct Hc as [<-|[<-|[<-|[<-|[<-|[]]]]]];
      vm_compute; intros; try reflexivity; discriminate.
  - intros i j Hi Hij Hj. change (size (tcoords spec_float w_record)) with 3 in Hj.
    assert (Hci : i = 0 \/ i = 1 \/ i = 2) by lia.
    assert (Hcj : j = 0 \/ j = 1 \/ j = 2) by lia.
    destruct Hci as [-> | [-> | ->]], Hcj as [-> | [-> | ->]];
      try lia; vm_compute; reflexivity.
  - vm_compute. reflexivity.
Defined.

Lemma w_state_dims : dims 3 (st_lb (fresh_state 3), st_ub (fresh_state 3)).
Proof.
  unfold dims. cbn [fst snd]. split; [vm_compute; discriminate|].
  split; [vm_compute; discriminate|].
  intros c Hc. unfold nchunks in Hc.
  assert (Hcc : c = 0 \/ c = 1 \/ c = 2 \/ c = 3 \/ c = 4 \/ c = 5 \/ c = 6 \/ c = 7) by lia.
  destruct Hcc as [-> | [-> | [-> | [-> | [-> | [-> | [-> | ->]]]]]]];
    split; vm_compute; discriminate.
Qed.

Lemma propagate_for_boxes_witness :
  (read2 (st_lb w_state) 3 1, read2 (st_ub w_state) 3 1)
  = lane_aabb spec_float (fun d => d) SFltb (SFsub 53 1024) (fun d => d) 1 3
              (@at_ _ (s_data_inhabited spec_float) (fst (w_integrate (1 / 2))) (1 mod 2)).
Proof.
  apply (propagate_for_boxes spec_float (fun d => d) SFltb (SFsub 53 1024) (fun d => d)
           1 2 w_integrate morton_interleave insertion_sort 3 (fresh_state 3) w_state
           (morton_encode_sort morton_interleave insertion_sort
              (global_lb_atomic w_state) (global_ub_atomic w_state)
              (st_lb w_state) (st_ub w_state)
              (replicate (Z.to_nat nchunks) (vidx_init 3)) 3)).
  - lia.
  - lia.
  - exact w_state_dims.
  - vm_compute. reflexivity.
  - vm_compute. split; [discriminate|reflexivity].
  - vm_compute. split; [discriminate|reflexivity].
Defined.

Lemma global_boxes_of_lower_bounds_witness :
  box_min_of (at_ (global_lb_atomic w_state) 3)
             (map (fun p => read2 (st_lb w_state) 3 p) (index_range 0 (3 / 2 * 2))) /\
  box_max_of (at_ (global_ub_atomic w_state) 3)
             (map (fun p => read2 (st_lb w_state) 3 p) (index_range 0 (3 / 2 * 2))).
Proof.
  apply (global_boxes_of_lower_bounds spec_float (fun d => d) SFltb (SFsub 53 1024)
           (fun d => d) 1 2 w_integrate 3 (fresh_state 3) 3).
  - lia.
  - vm_compute. discriminate.
  - vm_compute. split; [discriminate|reflexivity].
  - intros p Hp. change (3 / 2 * 2) with 2 in Hp.
    assert (Hc : p = 0 \/ p = 1) by lia.
    destruct Hc as [-> | ->]; vm_compute; repeat split; discriminate.
Defined.

(** ** The boxes against the exact value of the Taylor polynomials *)

(** The rational number that a finite floating-point value stands for. *)
Definition Q_of_float (f : spec_float) : Q :=
  match f with
  | S754_finite s m e =>
      let v := (inject_Z (Z.pos m) * Qpower 2 e)%Q in if s then Qopp v else v
  | _ => 0%Q
  end.

(** The exact value at [h] of the polynomial with the coefficients [c],
    constant term first (the layout [horner_eval] reads). *)
Fixpoint poly_Q (c : list spec_float) (h : Q) : Q :=
  match c with
  | [] => 0%Q
  | c0 :: rest => (Q_of_float c0 + h * poly_Q rest h)%Q
  end.

Section Containment.
Variable dfloat : Type.
Variable df_of_double : spec_float -> dfloat.
(** The number a time of the double-length type stands for. *)
Variable df_value : dfloat -> Q.
Variable order : Z.

#[local] Instance dfloat_inhabited'' : Inhabited dfloat := dfloat_inhabited dfloat df_of_double.

(** The [order + 1] coefficients of substep [it]. *)
Definition substep_coeffs (tc : list spec_float) (it : Z) : list spec_float :=
  take (Z.to_nat (order + 1)) (drop (Z.to_nat (it * (order + 1))) tc).

(** The time at which substep [it] starts: zero for the first one, the
    end of the substep before it otherwise. *)
Definition substep_start (sd : s_data_t dfloat) (it : Z) : Q :=
  if it =? 0 then 0%Q else df_value (at_ (tcoords dfloat sd) (it - 1)).

Definition coord_inside (tc : list spec_float) (it : Z) (h : Q) (lo hi : spec_float) : Prop :=
  (Q_of_float lo <= poly_Q (substep_coeffs tc it) h)%Q /\
  (poly_Q (substep_coeffs tc it) h <= Q_of_float hi)%Q.

(** Containment as the specification states it: for every substep and
    every time [t] that lies both in the substep and in the chunk, the
    value at [t - s_start] of the substep's polynomial of each coordinate
    lies inside the box. *)
Definition aabb_contains (chunk_idx : Z) (sd : s_data_t dfloat) (box : array4 * array4)
  : Prop :=
  forall (it : Z) (t : Q),
    0 <= it < size (tcoords dfloat sd) ->
    (substep_start sd it <= t)%Q ->
    (t <= df_value (at_ (tcoords dfloat sd) it))%Q ->
    (df_value (chunk_begin_of dfloat df_of_double chunk_idx) <= t)%Q ->
    (t <= df_value (chunk_end_of dfloat df_of_double chunk_idx))%Q ->
    coord_inside (tc_x dfloat sd) it (t - substep_start sd it)
                 (a_x (fst box)) (a_x (snd box)) /\
    coord_inside (tc_y dfloat sd) it (t - substep_start sd it)
                 (a_y (fst box)) (a_y (snd box)) /\
    coord_inside (tc_z dfloat sd) it (t - substep_start sd it)
                 (a_z (fst box)) (a_z (snd box)) /\
    coord_inside (tc_r dfloat sd) it (t - substep_start sd it)
                 (a_r (fst box)) (a_r (snd box)).

End Containment.

(** One particle that moves along the x axis, [x(t) = -a + 3 t] with
    [a] the [double] nearest to three chunk lengths, [y = z = 0] and
    [r(t) = a - 3 t], taken by the integrator in a single substep of
    length [delta_t] (order 1); batches of one lane; a time type without
    low part. The particle crosses [x = 0] where chunk 1 begins. *)
Definition c1_a : spec_float := double_mul (double_of_Z 3) chunk_size.

Definition c1_record : s_data_t spec_float :=
  mk_s_data spec_float
            [SFopp c1_a; double_of_Z 3] [double_of_Z 0; double_of_Z 0]
            [double_of_Z 0; double_of_Z 0] [c1_a; SFopp (double_of_Z 3)]
            [delta_t].

Definition c1_state : aabb_state :=
  propagate_for_aabb spec_float (fun d => d) SFltb (SFsub 53 1024) (fun d => d)
                     1 1 (fun _ => ([c1_record], true)) 1 (fresh_state 1).

(** C1 on that particle, in chunk 1. The integration succeeds and the
    box is computed. The interval evaluation of [x] over the chunk,
    [h] in [[chunk_size, 2 chunk_size]], has the lower end [+0]: the
    product [3 * chunk_size] is rounded to [a] and cancels the constant
    term. The lower bound stored is the [float] just below zero,
    [-2^-149]. The exact value of the polynomial at the begin of the
    chunk is [-2^-54], below the stored lower bound: the box does not
    contain the polynomial over the chunk. *)
Theorem aabb_misses_polynomial :
  int_error c1_state = false /\
  lower (horner_eval 1 (mk_ival chunk_size (double_mul chunk_size (double_of_Z 2)))
                     (tc_x spec_float c1_record))
  = S754_zero false /\
  a_x (read2 (st_lb c1_state) 1 0) = S754_finite true 1 (-149) /\
  (poly_Q (substep_coeffs 1 (tc_x spec_float c1_record) 0)
          (Q_of_float (chunk_begin_of spec_float (fun d => d) 1))
   == - (1 # 18014398509481984))%Q /\
  ~ aabb_contains spec_float (fun d => d) Q_of_float 1 1 c1_record
                  (read2 (st_lb c1_state) 1 0, read2 (st_ub c1_state) 1 0).
Proof.
  split; [vm_compute; reflexivity|]. split; [vm_compute; reflexivity|].
  split; [vm_compute; reflexivity|]. split; [vm_compute; reflexivity|].
  intros H.
  destruct (H 0 (Q_of_float (chunk_begin_of spec_float (fun d => d) 1)))
    as [[Hx _] _].
  - vm_compute. split; [discriminate|reflexivity].
  - vm_compute. discriminate.
  - vm_compute. discriminate.
  - vm_compute. discriminate.
  - vm_compute. discriminate.
  - vm_compute in Hx. apply Hx. reflexivity.
Qed.
